(** * Bitwuzla: solving context, preprocessor, function solver, SAT back end

    A shallow embedding of the parts of the solver that the specification
    talks about: the node representation, the Kissat wrapper, the command
    line driver, the option objects of the API, the solving context with its
    push/pop and value queries, the preprocessing fixed-point loop and the
    function-congruence check.

    Conventions.
    - C++ [assert]s are modelled as enabled (a debug build): a failed
      assertion is the outcome [AssertFail].
    - Hash-consed nodes are compared structurally: two nodes are the same
      node iff kind, payload and children agree.
    - Code that the sources call but do not contain (node utilities, the
      solver engine, the individual preprocessing passes) is taken as a
      parameter of the definition that calls it. *)

From Stdlib Require Import ZArith List Bool Lia String Ascii.
From stdpp Require Import base gmap.
Import ListNotations.
Open Scope Z_scope.

(* ================================================================== *)
(** ** Outcomes of code that may hit an assertion                      *)
(* ================================================================== *)

(** [AssertFail]: an [assert] failed.  [Abort]: the code called
    [abort()] after printing a diagnostic.  [OutOfFuel]: the bound given
    to a loop of the model was reached before the loop ended. *)
Inductive outcome (A : Type) : Type :=
| Ok (a : A)
| AssertFail
| Abort
| OutOfFuel.
Arguments Ok {A} a.
Arguments AssertFail {A}.
Arguments Abort {A}.
Arguments OutOfFuel {A}.

Definition obind {A B} (m : outcome A) (k : A -> outcome B) : outcome B :=
  match m with
  | Ok a => k a
  | AssertFail => AssertFail
  | Abort => Abort
  | OutOfFuel => OutOfFuel
  end.

Notation "'let*' x ':=' m 'in' k" := (obind m (fun x => k))
  (at level 10, x name, m at level 100, k at level 200).

Definition oassert (b : bool) : outcome unit :=
  if b then Ok tt else AssertFail.

(* ================================================================== *)
(** ** Results (solver/result.h)                                       *)
(* ================================================================== *)

Inductive Result : Type := SAT | UNSAT | UNKNOWN.

Definition Result_eqb (a b : Result) : bool :=
  match a, b with
  | SAT, SAT | UNSAT, UNSAT | UNKNOWN, UNKNOWN => true
  | _, _ => false
  end.

(* ================================================================== *)
(** ** Nodes (node/node.h, node/node_kind.h)                           *)
(* ================================================================== *)

Module Kind.

Inductive t : Type :=
| CONSTANT | CONST_ARRAY | VALUE | VARIABLE | AND | DISTINCT | EQUAL
| IMPLIES | NOT | OR | XOR | ITE | EXISTS | FORALL | APPLY | LAMBDA
| SELECT | STORE | BV_ADD | BV_AND | BV_ASHR | BV_COMP | BV_CONCAT
| BV_DEC | BV_INC | BV_MUL | BV_NAND | BV_NEG | BV_NOR | BV_NOT | BV_OR
| BV_REDAND | BV_REDOR | BV_REDXOR | BV_ROL | BV_ROR | BV_SADDO | BV_SDIVO
| BV_SDIV | BV_SGE | BV_SGT | BV_SHL | BV_SHR | BV_SLE | BV_SLT | BV_SMOD
| BV_SMULO | BV_SREM | BV_SSUBO | BV_SUB | BV_UADDO | BV_UDIV | BV_UGE
| BV_UGT | BV_ULE | BV_ULT | BV_UMULO | BV_UREM | BV_USUBO | BV_XNOR
| BV_XOR | BV_EXTRACT | BV_REPEAT | BV_ROLI | BV_RORI | BV_SIGN_EXTEND
| BV_ZERO_EXTEND | FP_ABS | FP_ADD | FP_DIV | FP_EQUAL | FP_FMA | FP_FP
| FP_GE | FP_GT | FP_IS_INF | FP_IS_NAN | FP_IS_NEG | FP_IS_NORMAL
| FP_IS_POS | FP_IS_SUBNORMAL | FP_IS_ZERO | FP_LE | FP_LT | FP_MAX
| FP_MIN | FP_MUL | FP_NEG | FP_REM | FP_RTI | FP_SQRT | FP_SUB
| FP_TO_FP_FROM_BV | FP_TO_FP_FROM_FP | FP_TO_FP_FROM_SBV
| FP_TO_FP_FROM_UBV | FP_TO_SBV | FP_TO_UBV.

(** The position of a kind in the enumeration. *)
Definition tag (k : t) : positive :=
  match k with
  | CONSTANT => 1
  | CONST_ARRAY => 2
  | VALUE => 3
  | VARIABLE => 4
  | AND => 5
  | DISTINCT => 6
  | EQUAL => 7
  | IMPLIES => 8
  | NOT => 9
  | OR => 10
  | XOR => 11
  | ITE => 12
  | EXISTS => 13
  | FORALL => 14
  | APPLY => 15
  | LAMBDA => 16
  | SELECT => 17
  | STORE => 18
  | BV_ADD => 19
  | BV_AND => 20
  | BV_ASHR => 21
  | BV_COMP => 22
  | BV_CONCAT => 23
  | BV_DEC => 24
  | BV_INC => 25
  | BV_MUL => 26
  | BV_NAND => 27
  | BV_NEG => 28
  | BV_NOR => 29
  | BV_NOT => 30
  | BV_OR => 31
  | BV_REDAND => 32
  | BV_REDOR => 33
  | BV_REDXOR => 34
  | BV_ROL => 35
  | BV_ROR => 36
  | BV_SADDO => 37
  | BV_SDIVO => 38
  | BV_SDIV => 39
  | BV_SGE => 40
  | BV_SGT => 41
  | BV_SHL => 42
  | BV_SHR => 43
  | BV_SLE => 44
  | BV_SLT => 45
  | BV_SMOD => 46
  | BV_SMULO => 47
  | BV_SREM => 48
  | BV_SSUBO => 49
  | BV_SUB => 50
  | BV_UADDO => 51
  | BV_UDIV => 52
  | BV_UGE => 53
  | BV_UGT => 54
  | BV_ULE => 55
  | BV_ULT => 56
  | BV_UMULO => 57
  | BV_UREM => 58
  | BV_USUBO => 59
  | BV_XNOR => 60
  | BV_XOR => 61
  | BV_EXTRACT => 62
  | BV_REPEAT => 63
  | BV_ROLI => 64
  | BV_RORI => 65
  | BV_SIGN_EXTEND => 66
  | BV_ZERO_EXTEND => 67
  | FP_ABS => 68
  | FP_ADD => 69
  | FP_DIV => 70
  | FP_EQUAL => 71
  | FP_FMA => 72
  | FP_FP => 73
  | FP_GE => 74
  | FP_GT => 75
  | FP_IS_INF => 76
  | FP_IS_NAN => 77
  | FP_IS_NEG => 78
  | FP_IS_NORMAL => 79
  | FP_IS_POS => 80
  | FP_IS_SUBNORMAL => 81
  | FP_IS_ZERO => 82
  | FP_LE => 83
  | FP_LT => 84
  | FP_MAX => 85
  | FP_MIN => 86
  | FP_MUL => 87
  | FP_NEG => 88
  | FP_REM => 89
  | FP_RTI => 90
  | FP_SQRT => 91
  | FP_SUB => 92
  | FP_TO_FP_FROM_BV => 93
  | FP_TO_FP_FROM_FP => 94
  | FP_TO_FP_FROM_SBV => 95
  | FP_TO_FP_FROM_UBV => 96
  | FP_TO_SBV => 97
  | FP_TO_UBV => 98
  end%positive.

Definition eqb (a b : t) : bool := Pos.eqb (tag a) (tag b).

End Kind.

(** A hash-consed node: its kind, a payload (the identifier of a symbol,
    the index of a value, the indices of an indexed operator) and its
    children. *)
#[local] Unset Elimination Schemes.
Inductive Node : Type :=
| Nd (k : Kind.t) (payload : N) (children : list Node).
#[local] Set Elimination Schemes.

Definition kind (n : Node) : Kind.t := let '(Nd k _ _) := n in k.
Definition payload (n : Node) : N := let '(Nd _ p _) := n in p.
Definition children (n : Node) : list Node := let '(Nd _ _ c) := n in c.
Definition num_children (n : Node) : nat := List.length (children n).

(** [n[i]]; reading past the last child is an error of the caller. *)
Definition child (n : Node) (i : nat) : outcome Node :=
  match nth_error (children n) i with
  | Some c => Ok c
  | None => AssertFail
  end.

(** Node identity, [operator==] on nodes. *)
Fixpoint Node_eqb (a b : Node) : bool :=
  let '(Nd ka pa ca) := a in
  let '(Nd kb pb cb) := b in
  Kind.eqb ka kb && N.eqb pa pb
  && (fix all2 (l1 l2 : list Node) : bool :=
        match l1, l2 with
        | [], [] => true
        | x :: xs, y :: ys => Node_eqb x y && all2 xs ys
        | _, _ => false
        end) ca cb.

Definition nodes_eqb : list Node -> list Node -> bool :=
  fix all2 (l1 l2 : list Node) : bool :=
    match l1, l2 with
    | [], [] => true
    | x :: xs, y :: ys => Node_eqb x y && all2 xs ys
    | _, _ => false
    end.

Definition is_const (n : Node) : bool := Kind.eqb (kind n) Kind.CONSTANT.

(** [NodeManager::mk_node]: the unique node of the given kind over the
    given children. *)
Definition mk_node (k : Kind.t) (cs : list Node) : Node := Nd k 0 cs.

(* ================================================================== *)
(** ** Types (type/type.h)                                             *)
(* ================================================================== *)

#[local] Unset Elimination Schemes.
Inductive Ty : Type :=
| TBool
| TBV (w : N)
| TFP (e s : N)
| TRM
| TArray (index element : Ty)
| TFun (types : list Ty)
| TUninterpreted (symbol : N).
#[local] Set Elimination Schemes.

Definition Ty_is_bool (t : Ty) : bool :=
  match t with TBool => true | _ => false end.
Definition Ty_is_fun (t : Ty) : bool :=
  match t with TFun _ => true | _ => false end.
(** [Type::fun_types]: the domain types followed by the codomain. *)
Definition fun_types (t : Ty) : list Ty :=
  match t with TFun ts => ts | _ => [] end.

(* ================================================================== *)
(** ** Containers of nodes, free variables                          *)
(* ================================================================== *)

(** Maps and sets keyed by nodes ([std::unordered_map<Node, _>],
    [std::unordered_set<Node>]). *)
Definition NodeMap (V : Type) : Type := list (Node * V).

Fixpoint find_node {V} (m : NodeMap V) (n : Node) : option V :=
  match m with
  | [] => None
  | (k, v) :: rest => if Node_eqb k n then Some v else find_node rest n
  end.

Fixpoint set_node {V} (m : NodeMap V) (n : Node) (v : V) : NodeMap V :=
  match m with
  | [] => [(n, v)]
  | (k, w) :: rest =>
      if Node_eqb k n then (k, v) :: rest else (k, w) :: set_node rest n v
  end.

Definition NodeSet : Type := list Node.

Definition mem (s : NodeSet) (n : Node) : bool := existsb (Node_eqb n) s.
Definition set_insert (s : NodeSet) (n : Node) : NodeSet :=
  if mem s n then s else s ++ [n].
Definition set_insert_all (s : NodeSet) (ns : list Node) : NodeSet :=
  fold_left set_insert ns s.
Definition set_erase (s : NodeSet) (n : Node) : NodeSet :=
  List.filter (fun m => negb (Node_eqb n m)) s.

Definition is_binder (k : Kind.t) : bool :=
  Kind.eqb k Kind.FORALL || Kind.eqb k Kind.EXISTS || Kind.eqb k Kind.LAMBDA.

(** The variables that occur free in a term: a variable is free in
    itself, and a binder binds its first child in the rest. *)
Fixpoint free_variables (n : Node) : list Node :=
  let '(Nd k _ cs) := n in
  let below :=
    (fix go (l : list Node) : list Node :=
       match l with
       | [] => []
       | c :: l' => set_insert_all (free_variables c) (go l')
       end) cs in
  if Kind.eqb k Kind.VARIABLE then [n]
  else if is_binder k
       then match cs with
            | v :: _ => set_erase below v
            | [] => below
            end
       else below.

Definition closed (n : Node) : Prop := free_variables n = [].

(* ================================================================== *)
(** ** Options (option/option.h)                                       *)
(* ================================================================== *)

Module Opt.

Inductive Option : Type :=
| INCREMENTAL | LOG_LEVEL | PRODUCE_MODELS | PRODUCE_UNSAT_CORES
| SAT_SOLVER | SEED | VERBOSITY
| BV_SOLVER | REWRITE_LEVEL | SMT_COMP_MODE
| PROP_NPROPS | PROP_NUPDATES | PROP_PATH_SEL | PROP_PROB_PICK_INV_VALUE
| PROP_PROB_PICK_RANDOM_INPUT | PROP_CONST_BITS | PROP_INEQ_BOUNDS
| PROP_OPT_LT_CONCAT_SEXT | PROP_SEXT
| PP_CONTRADICTING_ANDS | PP_ELIM_BV_EXTRACTS | PP_EMBEDDED_CONSTR
| PP_FLATTEN_AND | PP_NORMALIZE | PP_NORMALIZE_SHARE_AWARE
| PP_SKELETON_PREPROC | PP_VARIABLE_SUBST | PP_VARIABLE_SUBST_NORM_BV_INEQ
| PP_VARIABLE_SUBST_NORM_EQ
| DBG_RW_NODE_THRESH | DBG_PP_NODE_THRESH
| DBG_CHECK_MODEL | DBG_CHECK_UNSAT_CORE.

#[global] Instance Option_eq_dec : EqDecision Option.
Proof. solve_decision. Defined.

(** The current value of an option: [OptionBool], [OptionNumeric] (a
    [uint64_t]) or a mode given by its name. *)
Inductive OptionValue : Type :=
| OBool (b : bool)
| ONumeric (n : N)
| OMode (m : string).

(** The option object: the current value of every registered option. *)
Definition Options : Type := Option -> OptionValue.

(** [Options::set(opt, value)] *)
Definition set (opt : Option) (v : OptionValue) (o : Options) : Options :=
  fun opt' => if decide (opt' = opt) then v else o opt'.

(** [Options::get(opt)] *)
Definition get (o : Options) (opt : Option) : OptionValue := o opt.

Definition get_bool (o : Options) (opt : Option) : bool :=
  match o opt with
  | OBool b => b
  | ONumeric n => negb (N.eqb n 0)
  | OMode _ => false
  end.

Definition get_numeric (o : Options) (opt : Option) : N :=
  match o opt with
  | ONumeric n => n
  | OBool b => if b then 1%N else 0%N
  | OMode _ => 0%N
  end.

(** The members read by the code below. *)
Definition incremental (o : Options) : bool := get_bool o INCREMENTAL.
Definition produce_models (o : Options) : bool := get_bool o PRODUCE_MODELS.
Definition verbosity (o : Options) : N := get_numeric o VERBOSITY.
Definition pp_contr_ands (o : Options) : bool :=
  get_bool o PP_CONTRADICTING_ANDS.
Definition pp_embedded_constr (o : Options) : bool :=
  get_bool o PP_EMBEDDED_CONSTR.
Definition pp_flatten_and (o : Options) : bool := get_bool o PP_FLATTEN_AND.
Definition pp_normalize (o : Options) : bool := get_bool o PP_NORMALIZE.
Definition pp_skeleton_preproc (o : Options) : bool :=
  get_bool o PP_SKELETON_PREPROC.
Definition pp_variable_subst (o : Options) : bool :=
  get_bool o PP_VARIABLE_SUBST.
Definition dbg_check_model (o : Options) : bool :=
  get_bool o DBG_CHECK_MODEL.
Definition dbg_check_unsat_core (o : Options) : bool :=
  get_bool o DBG_CHECK_UNSAT_CORE.

(** An option object in which every Boolean option is off, every numeric
    option is zero and no mode is named; used to build examples. *)
Definition all_off : Options :=
  fun opt =>
    match opt with
    | SAT_SOLVER | BV_SOLVER | PROP_PATH_SEL => OMode ""
    | LOG_LEVEL | SEED | VERBOSITY | REWRITE_LEVEL | PROP_NPROPS
    | PROP_NUPDATES | PROP_PROB_PICK_INV_VALUE
    | PROP_PROB_PICK_RANDOM_INPUT | DBG_RW_NODE_THRESH
    | DBG_PP_NODE_THRESH => ONumeric 0
    | _ => OBool false
    end.

End Opt.

(* ================================================================== *)
(** ** The environment (env.h)                                         *)
(* ================================================================== *)

(** A terminator: the answer of its [terminate()] at the k-th call. *)
Definition Terminator : Type := nat -> bool.

(** [Env] keeps its own copy of the options ([const option::Options
    d_options]) and a pointer to the configured terminator. *)
Record Env : Type := {
  env_options : Opt.Options;
  d_terminator : option Terminator
}.

(** [Env::Env(const option::Options& options)] *)
Definition Env_new (options : Opt.Options) : Env :=
  {| env_options := options; d_terminator := None |}.

(** [Env::configure_terminator] *)
Definition configure_terminator (e : Env) (t : option Terminator) : Env :=
  {| env_options := env_options e; d_terminator := t |}.

(** Modelled from the spec: [Env::terminate] (declared in env.h, its body
    is not among the sources), at its k-th call: "the configured
    Terminator (a caller-supplied predicate returning bool)"; false when
    no terminator is configured. *)
Definition Env_terminate (e : Env) (k : nat) : bool :=
  match d_terminator e with
  | Some t => t k
  | None => false
  end.

(* ================================================================== *)
(** ** The preprocessor (preprocess/preprocessor.cpp)                  *)
(* ================================================================== *)

Module Preprocess.

(** The pass objects held by the preprocessor, in the order of their
    members. *)
Inductive PassId : Type :=
| REWRITE | CONTR_ANDS | ELIM_LAMBDA | ELIM_UNINTERPRETED
| EMBEDDED_CONSTRAINTS | VARIABLE_SUBSTITUTION | FLATTEN_AND
| SKELETON_PREPROC | NORMALIZE.

Definition PassId_eqb (a b : PassId) : bool :=
  match a, b with
  | REWRITE, REWRITE | CONTR_ANDS, CONTR_ANDS | ELIM_LAMBDA, ELIM_LAMBDA
  | ELIM_UNINTERPRETED, ELIM_UNINTERPRETED
  | EMBEDDED_CONSTRAINTS, EMBEDDED_CONSTRAINTS
  | VARIABLE_SUBSTITUTION, VARIABLE_SUBSTITUTION
  | FLATTEN_AND, FLATTEN_AND | SKELETON_PREPROC, SKELETON_PREPROC
  | NORMALIZE, NORMALIZE => true
  | _, _ => false
  end.

(** Modelled from the spec: [AssertionVector] (not among the sources),
    the assertions of one level of the stack and the number of
    modifications made to them since the last reset ("the fixed-point
    loop resets a modified flag", passes "marking modified iff" they
    "changed any assertion"). *)
Record AssertionVector : Type := {
  av_nodes : list Node;
  d_level : nat;
  d_modified : nat
}.

Definition size (av : AssertionVector) : nat := List.length (av_nodes av).
Definition num_modified (av : AssertionVector) : nat := d_modified av.
Definition modified (av : AssertionVector) : bool :=
  negb (Nat.eqb (d_modified av) 0).
Definition reset_modified (av : AssertionVector) : AssertionVector :=
  {| av_nodes := av_nodes av; d_level := d_level av; d_modified := 0 |}.

(** What the loop does, in order: resetting the flag, applying a pass. *)
Inductive Event : Type :=
| ResetModified
| Apply (p : PassId).

Definition is_apply (p : PassId) (e : Event) : bool :=
  match e with
  | Apply q => PassId_eqb p q
  | ResetModified => false
  end.

(** Modelled from the spec: the assertion stack as the preprocessor sees
    it through its [AssertionView] (not among the sources): "an ordered
    sequence of (level, term) pairs" and "a monotone cursor", the index of
    the first pair not yet preprocessed. *)
Record AssertionView : Type := {
  view_stack : list (Node * nat);
  view_index : nat
}.

Definition view_empty (v : AssertionView) : bool :=
  Nat.leb (List.length (view_stack v)) (view_index v).

Fixpoint take_level (l : nat) (xs : list (Node * nat)) : list Node :=
  match xs with
  | (n, l') :: rest => if Nat.eqb l' l then n :: take_level l rest else []
  | [] => []
  end.

(** Modelled from the spec: [AssertionVector assertions(d_assertions)]
    (the constructor is not among the sources), the pending assertions of
    the level of the first pending one: "each level of the assertion stack
    is preprocessed before control moves to the next level". *)
Definition level_vector (v : AssertionView) : AssertionVector :=
  match skipn (view_index v) (view_stack v) with
  | (n, l) :: rest =>
      {| av_nodes := n :: take_level l rest; d_level := l; d_modified := 0 |}
  | [] => {| av_nodes := []; d_level := 0; d_modified := 0 |}
  end.

(** Modelled from the spec: the stack after the vector taken at the index
    has been processed into [av] (the vector writes through the view),
    and [set_index(begin() + assertions.size())]. *)
Definition commit (v : AssertionView) (old_size : nat) (av : AssertionVector)
  : AssertionView :=
  {| view_stack :=
       firstn (view_index v) (view_stack v)
       ++ map (fun n => (n, d_level av)) (av_nodes av)
       ++ skipn (view_index v + old_size) (view_stack v);
     view_index := view_index v + size av |}.

Section Preprocessor.

(** The state of the nine pass objects, and what applying one of them to
    an assertion vector does. *)
Variable PassState : Type.
Variable pass_apply :
  PassId -> PassState -> AssertionVector -> PassState * AssertionVector.

Record Preprocessor : Type := {
  d_passes : PassState;
  (** [d_backtrack_mgr.num_levels()] of the preprocessor's own manager *)
  d_num_levels : nat;
  (** [d_stats.num_iterations] *)
  num_iterations : nat
}.

Definition LoopState : Type := (PassState * AssertionVector * list Event)%type.

Definition run (enabled : bool) (p : PassId) (st : LoopState) : LoopState :=
  if enabled
  then let '(ps, av, tr) := st in
       let '(ps', av') := pass_apply p ps av in
       (ps', av', tr ++ [Apply p])
  else st.

(** One round of the [do { ... } while (assertions.modified())] body. *)
Definition iteration (options : Opt.Options) (skel_done : bool)
    (ps : PassState) (av : AssertionVector) : LoopState * bool :=
  let st := (ps, reset_modified av, [ResetModified]) in
  let st := run true REWRITE st in
  let st := run (Opt.pp_flatten_and options) FLATTEN_AND st in
  let st := run (Opt.pp_variable_subst options) VARIABLE_SUBSTITUTION st in
  let skel := (Opt.pp_skeleton_preproc options && negb skel_done)%bool in
  let st := run skel SKELETON_PREPROC st in
  let skel_done := (skel || skel_done)%bool in
  let st := run (Opt.pp_embedded_constr options) EMBEDDED_CONSTRAINTS st in
  let st := run (Opt.pp_contr_ands options) CONTR_ANDS st in
  let st := run true ELIM_LAMBDA st in
  let st := run true ELIM_UNINTERPRETED st in
  let st := run (Opt.pp_normalize options) NORMALIZE st in
  (st, skel_done).

(** The fixed-point loop. [fuel] bounds the number of rounds; the last
    component of the result tells whether the loop ended by itself. *)
Fixpoint fixed_point (fuel : nat) (options : Opt.Options) (skel_done : bool)
    (ps : PassState) (av : AssertionVector) (iters : nat)
  : LoopState * nat * bool :=
  match fuel with
  | O => ((ps, av, []), iters, false)
  | S fuel' =>
      let '((ps1, av1, tr1), skel_done1) := iteration options skel_done ps av in
      if modified av1
      then let '((ps2, av2, tr2), n, fin) :=
             fixed_point fuel' options skel_done1 ps1 av1 (S iters) in
           ((ps2, av2, tr1 ++ tr2), n, fin)
      else ((ps1, av1, tr1), S iters, true)
  end.

(** [Preprocessor::apply] *)
Definition apply (fuel : nat) (env : Env) (pp : Preprocessor)
    (av : AssertionVector) : Preprocessor * AssertionVector * list Event * bool :=
  if Nat.eqb (size av) 0 then (pp, av, [], true)
  else
    let '((ps, av', tr), n, fin) :=
      fixed_point fuel (env_options env) false (d_passes pp) av
        (num_iterations pp) in
    ({| d_passes := ps; d_num_levels := d_num_levels pp;
        num_iterations := n |}, av', tr, fin).

(** [Preprocessor::sync_scope] *)
Definition sync_scope (pp : Preprocessor) (level : nat) : Preprocessor :=
  {| d_passes := d_passes pp;
     d_num_levels := Nat.max (d_num_levels pp) level;
     num_iterations := num_iterations pp |}.

(** The [while (!d_assertions.empty())] loop of [preprocess]: one round
    per level that has pending assertions.  [n] bounds the number of
    rounds (every round consumes at least one assertion). The trace has
    one entry per round: the level and what [apply] did. *)
Fixpoint process_levels (n fuel : nat) (env : Env) (pp : Preprocessor)
    (v : AssertionView)
  : Preprocessor * AssertionView * list (nat * list Event) * bool :=
  match n with
  | O => (pp, v, [], view_empty v)
  | S n' =>
      if view_empty v then (pp, v, [], true)
      else
        let assertions := level_vector v in
        let level := d_level assertions in
        let pp := sync_scope pp level in
        let '(pp1, av', tr, fin) := apply fuel env pp assertions in
        let v1 := commit v (size assertions) av' in
        if fin
        then let '(pp2, v2, trs, fin2) := process_levels n' fuel env pp1 v1 in
             (pp2, v2, (level, tr) :: trs, fin2)
        else (pp1, v1, [(level, tr)], false)
  end.

(** [Preprocessor::preprocess]; [global_levels] is
    [d_global_backtrack_mgr.num_levels()]. The result is the [Result] the
    function returns when it returns. *)
Definition preprocess (fuel : nat) (env : Env) (global_levels : nat)
    (pp : Preprocessor) (v : AssertionView)
  : Preprocessor * AssertionView * list (nat * list Event) * option Result :=
  if view_empty v then (pp, v, [], Some UNKNOWN)
  else
    let '(pp1, v1, trs, fin) :=
      process_levels (List.length (view_stack v)) fuel env pp v in
    if fin
    then (sync_scope pp1 global_levels, v1, trs, Some UNKNOWN)
    else (pp1, v1, trs, None).

End Preprocessor.

Arguments Build_Preprocessor {PassState} _ _ _.
Arguments d_passes {PassState} _.
Arguments d_num_levels {PassState} _.
Arguments num_iterations {PassState} _.
Arguments run {PassState} _ _ _ _.
Arguments iteration {PassState} _ _ _ _ _.
Arguments fixed_point {PassState} _ _ _ _ _ _ _.
Arguments apply {PassState} _ _ _ _ _.
Arguments sync_scope {PassState} _ _.
Arguments process_levels {PassState} _ _ _ _ _ _.
Arguments preprocess {PassState} _ _ _ _ _ _.

(** The passes enabled in a round, in the order in which the loop body
    applies them; [first] tells whether the round is the first of its
    [apply]. *)
Definition enabled (options : Opt.Options) (first : bool) (p : PassId) : bool :=
  match p with
  | REWRITE | ELIM_LAMBDA | ELIM_UNINTERPRETED => true
  | FLATTEN_AND => Opt.pp_flatten_and options
  | VARIABLE_SUBSTITUTION => Opt.pp_variable_subst options
  | SKELETON_PREPROC => (Opt.pp_skeleton_preproc options && first)%bool
  | EMBEDDED_CONSTRAINTS => Opt.pp_embedded_constr options
  | CONTR_ANDS => Opt.pp_contr_ands options
  | NORMALIZE => Opt.pp_normalize options
  end.

Definition pass_order : list PassId :=
  [REWRITE; FLATTEN_AND; VARIABLE_SUBSTITUTION; SKELETON_PREPROC;
   EMBEDDED_CONSTRAINTS; CONTR_ANDS; ELIM_LAMBDA; ELIM_UNINTERPRETED;
   NORMALIZE].

Definition round_events (options : Opt.Options) (first : bool) : list Event :=
  ResetModified :: map Apply (List.filter (enabled options first) pass_order).

Definition count_pass (p : PassId) (tr : list Event) : nat :=
  List.length (List.filter (is_apply p) tr).

(** What [k] rounds of one [apply] do: the first round, then [k - 1]
    later rounds. *)
Definition loop_events (options : Opt.Options) (k : nat) : list Event :=
  match k with
  | O => []
  | S k' =>
      round_events options true
      ++ concat (repeat (round_events options false) k')
  end.

(** The events of [k] rounds of a loop that starts with the given value
    of [skel_done]. *)
Fixpoint rounds_events (options : Opt.Options) (skel_done : bool) (k : nat)
  : list Event :=
  match k with
  | O => []
  | S k' =>
      round_events options (negb skel_done)
      ++ rounds_events options
           (Opt.pp_skeleton_preproc options && negb skel_done || skel_done)%bool
           k'
  end.

(** The assertion vector after [k] rounds of the loop body. *)
Fixpoint after_rounds {PassState : Type}
    (pass_apply :
       PassId -> PassState -> AssertionVector -> PassState * AssertionVector)
    (k : nat) (options : Opt.Options) (skel_done : bool) (ps : PassState)
    (av : AssertionVector) : AssertionVector :=
  match k with
  | O => av
  | S k' =>
      let '((ps1, av1, _), skel_done1) :=
        iteration pass_apply options skel_done ps av in
      after_rounds pass_apply k' options skel_done1 ps1 av1
  end.

(** All events of a [preprocess] call, level after level. *)
Definition all_events (trs : list (nat * list Event)) : list Event :=
  concat (map snd trs).

End Preprocess.

(* ================================================================== *)
(** ** The function solver (solver/fun/fun_solver.cpp)                 *)
(* ================================================================== *)

Module FunSolver.

(** [FunSolver::Apply]: an application with the model values of its
    arguments and of itself, and the hash of the argument values. *)
Record Apply : Type := {
  d_apply : Node;
  d_values : list Node;
  d_value : Node;
  d_hash : Z
}.

(** [Apply::operator==] *)
Definition Apply_eq (a b : Apply) : outcome bool :=
  let* _ := oassert (Nat.eqb (List.length (d_values a))
                             (List.length (d_values b))) in
  Ok (nodes_eqb (d_values a) (d_values b)).

(** Looking an application up in a function model (an
    [std::unordered_set<Apply>]): the element equal to it, if any. *)
Fixpoint find_equal (fun_model : list Apply) (app : Apply)
  : outcome (option Apply) :=
  match fun_model with
  | [] => Ok None
  | x :: rest =>
      let* e := Apply_eq x app in
      if e then Ok (Some x) else find_equal rest app
  end.

(** The state of the solver together with the lemmas it has sent to the
    solver state ([d_solver_state.lemma]). *)
Record State : Type := {
  d_applies : list Node;
  d_fun_models : NodeMap (list Apply);
  lemmas : list Node
}.

Definition fun_model_of (m : NodeMap (list Apply)) (f : Node) : list Apply :=
  match find_node m f with
  | Some fm => fm
  | None => []
  end.

Section Solver.

(** [d_solver_state.value]: the value of a term in the current model. *)
Variable state_value : Node -> Node.
(** [std::hash<Node>] *)
Variable hash_node : Node -> Z.
(** [utils::mk_nary] *)
Variable mk_nary : Kind.t -> list Node -> Node.

(** [Apply::Apply(apply, state)] *)
Definition Apply_new (apply : Node) : Apply :=
  let values := map state_value (tl (children apply)) in
  {| d_apply := apply;
     d_values := values;
     d_value := state_value apply;
     d_hash := fold_left (fun h v => (h + hash_node v) mod 2 ^ 64) values 0 |}.

(** [FunSolver::register_term] *)
Definition register_term (st : State) (term : Node) : outcome State :=
  let* _ := oassert (Kind.eqb (kind term) Kind.APPLY) in
  Ok {| d_applies := d_applies st ++ [term];
        d_fun_models := d_fun_models st;
        lemmas := lemmas st |}.

(** The lemma built by [add_function_congruence_lemma(a, b)]. *)
Definition congruence_lemma (a b : Node) : Node :=
  let premise :=
    map (fun ab : Node * Node => mk_node Kind.EQUAL [fst ab; snd ab])
        (combine (tl (children a)) (tl (children b))) in
  let conclusion := mk_node Kind.EQUAL [a; b] in
  mk_node Kind.IMPLIES [mk_nary Kind.AND premise; conclusion].

(** [FunSolver::add_function_congruence_lemma]: the lemmas sent so far,
    with the new one added. *)
Definition add_function_congruence_lemma (sent : list Node) (a b : Node)
  : outcome (list Node) :=
  let* _ := oassert (Nat.eqb (num_children a) (num_children b)) in
  let* _ := oassert (Kind.eqb (kind a) Kind.APPLY) in
  let* _ := oassert (Kind.eqb (kind b) Kind.APPLY) in
  let* _ := oassert (negb (Node_eqb a b)) in
  Ok (sent ++ [congruence_lemma a b]).

(** The body of the loop of [check] for the application [apply]. *)
Definition check_step (apply : Node)
    (st : NodeMap (list Apply) * list Node)
  : outcome (NodeMap (list Apply) * list Node) :=
  let '(models, sent) := st in
  let* fn := child apply 0 in
  let fun_model := fun_model_of models fn in
  let app := Apply_new apply in
  let* found := find_equal fun_model app in
  match found with
  | None => Ok (set_node models fn (fun_model ++ [app]), sent)
  | Some it =>
      (* created by [d_fun_models[fun]] even when nothing is inserted *)
      let models := set_node models fn fun_model in
      if negb (Node_eqb (d_value it) (d_value app))
      then let* sent := add_function_congruence_lemma sent apply (d_apply it) in
           Ok (models, sent)
      else Ok (models, sent)
  end.

(** The loop of [check], which reads [d_applies.size()] anew in every
    round. [pending] are the applications from index [i] on, [growth] the
    applications that get registered during this and the following
    rounds, [examined] the applications already examined. *)
Fixpoint check_loop (fuel : nat) (pending : list Node)
    (growth : list (list Node)) (examined : list Node)
    (st : NodeMap (list Apply) * list Node) : outcome State :=
  match pending with
  | [] => Ok {| d_applies := examined;
                d_fun_models := fst st;
                lemmas := snd st |}
  | apply :: rest =>
      match fuel with
      | O => OutOfFuel
      | S fuel' =>
          let* st' := check_step apply st in
          check_loop fuel' (rest ++ hd [] growth) (tl growth)
            (examined ++ [apply]) st'
      end
  end.

(** [FunSolver::check]: [d_fun_models.clear()], then the loop. [growth]
    lists, round by round, the applications registered while [check]
    runs. On success [check] returns [true]. *)
Definition check (st : State) (growth : list (list Node)) : outcome State :=
  check_loop (List.length (d_applies st) + List.length (concat growth))
    (d_applies st) growth [] ([], lemmas st).

Section Value.

(** [Node::type], [NodeManager::mk_var] (the k-th variable made by a
    call), [utils::mk_default_value], [utils::mk_binder]. *)
Variable type_of : Node -> Ty.
Variable mk_var : nat -> Ty -> Node.
Variable mk_default_value : Ty -> Node.
Variable mk_binder : Kind.t -> list Node -> Node.

Fixpoint mk_vars (k : nat) (types : list Ty) : list Node :=
  match types with
  | [] => []
  | t :: ts => mk_var k t :: mk_vars (S k) ts
  end.

(** The nested ITEs built from a function model. *)
Fixpoint add_ites (vars : list Node) (fun_model : list Apply) (res : Node)
  : outcome Node :=
  match fun_model with
  | [] => Ok res
  | apply :: rest =>
      let values := d_values apply in
      let* _ := oassert (Nat.eqb (List.length vars) (List.length values)) in
      let eqs :=
        map (fun vv : Node * Node => mk_node Kind.EQUAL [fst vv; snd vv])
            (combine vars values) in
      let cond := mk_nary Kind.AND eqs in
      add_ites vars rest (mk_node Kind.ITE [cond; d_value apply; res])
  end.

(** [FunSolver::value] *)
Definition value (st : State) (term : Node) : outcome Node :=
  let* _ := oassert (Ty_is_fun (type_of term)) in
  match find_node (d_fun_models st) term with
  | Some fun_model =>
      let types := fun_types (type_of term) in
      let vars := mk_vars 0 (removelast types) in
      let res := mk_default_value (List.last types TBool) in
      let* res := add_ites vars fun_model res in
      Ok (mk_binder Kind.LAMBDA (vars ++ [res]))
  | None => Ok (mk_default_value (type_of term))
  end.

End Value.
End Solver.

(** The words of the specification: two applications are in the same
    class when they apply the same function to arguments with pairwise
    equal model values. *)
Definition same_class (state_value : Node -> Node) (a b : Node) : bool :=
  (nodes_eqb (firstn 1 (children a)) (firstn 1 (children b))
   && nodes_eqb (map state_value (tl (children a)))
                (map state_value (tl (children b))))%bool.

(** The first application of the class of [a] among those examined
    before it. *)
Definition representative (state_value : Node -> Node)
    (earlier : list Node) (a : Node) : option Node :=
  List.find (fun b => same_class state_value b a) earlier.

(** The lemma expected for [a] examined after [earlier]: the congruence
    lemma of [a] and its representative when their values differ. *)
Definition lemma_for (state_value : Node -> Node)
    (mk_nary : Kind.t -> list Node -> Node)
    (earlier : list Node) (a : Node) : list Node :=
  match representative state_value earlier a with
  | Some b =>
      if Node_eqb (state_value b) (state_value a) then []
      else [congruence_lemma mk_nary a b]
  | None => []
  end.

(** The lemmas expected from examining [todo], in order, after
    [earlier]. *)
Fixpoint expected_lemmas (state_value : Node -> Node)
    (mk_nary : Kind.t -> list Node -> Node)
    (earlier todo : list Node) : list Node :=
  match todo with
  | [] => []
  | a :: rest =>
      lemma_for state_value mk_nary earlier a
      ++ expected_lemmas state_value mk_nary (earlier ++ [a]) rest
  end.

(** The applications registered by the time the loop ends: those present
    at the start followed by those registered in the rounds that took
    place. *)
Definition all_applies (applies : list Node) (growth : list (list Node))
  : list Node :=
  applies ++ concat growth.

(** Registered applications are well formed when each is an [APPLY] node
    with a function child, and two applications of one function have the
    same number of children. *)
Definition applies_wf (applies : list Node) : Prop :=
  Forall (fun a => kind a = Kind.APPLY /\ children a <> []) applies
  /\ (forall a b, In a applies -> In b applies ->
                  firstn 1 (children a) = firstn 1 (children b) ->
                  num_children a = num_children b).

(** The invariant of the loop of [check]: looking an application of [L]
    up in the function models gives its representative among the examined
    applications. *)
Definition models_inv (state_value : Node -> Node) (hash_node : Node -> Z)
    (L examined : list Node) (models : NodeMap (list Apply)) : Prop :=
  forall a f args,
    In a L -> children a = f :: args ->
    find_equal (fun_model_of models f) (Apply_new state_value hash_node a)
    = Ok (option_map (Apply_new state_value hash_node)
            (representative state_value examined a)).

End FunSolver.

(* ================================================================== *)
(** ** The solving context (solving_context.cpp)                       *)
(* ================================================================== *)

Module Context.

(** What [check_no_free_variables] finds: nothing, or the first assertion
    for which it prints its free variables and aborts. *)
Inductive FreeVarCheck : Type :=
| NoFreeVariables
| FoundFreeVariables (assertion : Node) (vars : list Node)
| CheckOutOfFuel.

(** The [do { ... } while (!visit.empty())] loop of
    [check_no_free_variables]. The top of [visit] ([visit.back()]) is the
    head of the list, so appending the children of [cur] puts them, last
    child first, in front of the list. *)
Fixpoint free_vars_loop (fuel : nat) (visit : list Node)
    (cache : NodeMap bool) (free_vars : NodeMap NodeSet)
  : option (NodeMap bool * NodeMap NodeSet) :=
  match fuel with
  | O => None
  | S fuel' =>
      match visit with
      | [] => Some (cache, free_vars)
      | cur :: rest =>
          match find_node cache cur with
          | None =>
              (* inserted *)
              free_vars_loop fuel' (rev (children cur) ++ visit)
                (set_node cache cur false) free_vars
          | Some false =>
              let cache := set_node cache cur true in
              let free_vars :=
                if Kind.eqb (kind cur) Kind.VARIABLE
                then set_node free_vars cur [cur]
                else
                  let vars0 :=
                    match find_node free_vars cur with
                    | Some s => s
                    | None => []
                    end in
                  let vars :=
                    fold_left
                      (fun vars c =>
                         match find_node free_vars c with
                         | Some s => set_insert_all vars s
                         | None => vars
                         end)
                      (children cur) vars0 in
                  set_node free_vars cur vars in
              let free_vars :=
                if is_binder (kind cur)
                then match children cur, find_node free_vars cur with
                     | v :: _, Some s => set_node free_vars cur (set_erase s v)
                     | v :: _, None => set_node free_vars cur []
                     | [], _ => free_vars
                     end
                else free_vars in
              free_vars_loop fuel' rest cache free_vars
          | Some true => free_vars_loop fuel' rest cache free_vars
          end
      end
  end.

(** The loop over the assertions: [cache] lives across the assertions,
    [free_vars] is declared anew for each of them. *)
Fixpoint check_from (fuel : nat) (assertions : list Node)
    (cache : NodeMap bool) : FreeVarCheck :=
  match assertions with
  | [] => NoFreeVariables
  | assertion :: rest =>
      match free_vars_loop fuel [assertion] cache [] with
      | None => CheckOutOfFuel
      | Some (cache', free_vars) =>
          match find_node free_vars assertion with
          | Some (v :: vs) => FoundFreeVariables assertion (v :: vs)
          | _ => check_from fuel rest cache'
          end
      end
  end.

(** [SolvingContext::check_no_free_variables] *)
Definition check_no_free_variables (fuel : nat) (d_assertions : list Node)
  : FreeVarCheck :=
  check_from fuel d_assertions [].

(** The traversal shared by [solve] and [ensure_model]: every node
    reachable from the stack is visited once; constants are preprocessed
    and collected, and quantifiers are noted. *)
Fixpoint collect_consts (fuel : nat) (process : Node -> Node)
    (visit : list Node) (cache : NodeSet) (terms : list Node)
    (need_check : bool) : option (NodeSet * list Node * bool) :=
  match fuel with
  | O => None
  | S fuel' =>
      match visit with
      | [] => Some (cache, terms, need_check)
      | cur :: rest =>
          if mem cache cur
          then collect_consts fuel' process rest cache terms need_check
          else
            let cache := cache ++ [cur] in
            let terms :=
              if is_const cur then terms ++ [process cur] else terms in
            let need_check :=
              (need_check
               || (negb (is_const cur)
                   && (Kind.eqb (kind cur) Kind.FORALL
                       || Kind.eqb (kind cur) Kind.EXISTS)))%bool in
            collect_consts fuel' process (rev (children cur) ++ rest)
              cache terms need_check
      end
  end.

Fixpoint collect_all (fuel : nat) (process : Node -> Node)
    (assertions : list Node) (cache : NodeSet) (terms : list Node)
    (need_check : bool) : option (list Node * bool) :=
  match assertions with
  | [] => Some (terms, need_check)
  | a :: rest =>
      match collect_consts fuel process [a] cache terms need_check with
      | None => None
      | Some (cache', terms', need') =>
          collect_all fuel process rest cache' terms' need'
      end
  end.

Section SolvingContext.

(** The pass objects of the preprocessor. *)
Variable PassState : Type.
Variable pass_apply :
  Preprocess.PassId -> PassState -> Preprocess.AssertionVector ->
  PassState * Preprocess.AssertionVector.
(** [Preprocessor::process] *)
Variable pp_process : PassState -> Node -> Node.

(** The solver engine: [process_term], [solve], [value] (which either
    returns a node or throws [ComputeValueException] for a node) and
    [ensure_model]; and the two debug checkers. *)
Variable Engine : Type.
Variable engine_process_term : Engine -> Node -> Engine.
Variable engine_solve : Engine -> Engine * Result.
Variable engine_value : Engine -> Node -> Node + Node.
Variable engine_ensure_model : Engine -> list Node -> Engine.
Variable check_model : Engine -> list Node -> bool.
Variable check_unsat_core : Engine -> list Node -> bool.

(** [Type::is_bool] of [Node::type]. *)
Variable is_bool : Node -> bool.

Record SolvingContext : Type := {
  d_env : Env;
  (** [d_backtrack_mgr]: the number of pushed levels *)
  d_levels : nat;
  (** [d_assertions]: the stack and the index of its view *)
  d_assertions : Preprocess.AssertionView;
  (** [d_original_assertions], each with the level it was added at *)
  d_original_assertions : list (Node * nat);
  d_preprocessor : Preprocess.Preprocessor PassState;
  d_solver_engine : Engine;
  d_sat_state : Result
}.

(** [SolvingContext::SolvingContext(const option::Options& options)]:
    the environment is built from a copy of the options. *)
Definition SolvingContext_new (options : Opt.Options) (passes : PassState)
    (engine : Engine) : SolvingContext :=
  {| d_env := Env_new options;
     d_levels := 0;
     d_assertions := {| Preprocess.view_stack := [];
                        Preprocess.view_index := 0 |};
     d_original_assertions := [];
     d_preprocessor := {| Preprocess.d_passes := passes;
                          Preprocess.d_num_levels := 0;
                          Preprocess.num_iterations := 0 |};
     d_solver_engine := engine;
     d_sat_state := UNKNOWN |}.

Definition options (ctx : SolvingContext) : Opt.Options :=
  env_options (d_env ctx).

Definition assertion_nodes (ctx : SolvingContext) : list Node :=
  map fst (Preprocess.view_stack (d_assertions ctx)).

Definition original_assertions (ctx : SolvingContext) : list Node :=
  map fst (d_original_assertions ctx).

Definition with_assertions (ctx : SolvingContext)
    (v : Preprocess.AssertionView) (orig : list (Node * nat))
  : SolvingContext :=
  {| d_env := d_env ctx; d_levels := d_levels ctx;
     d_assertions := v; d_original_assertions := orig;
     d_preprocessor := d_preprocessor ctx;
     d_solver_engine := d_solver_engine ctx;
     d_sat_state := d_sat_state ctx |}.

Definition with_levels (ctx : SolvingContext) (n : nat) : SolvingContext :=
  {| d_env := d_env ctx; d_levels := n;
     d_assertions := d_assertions ctx;
     d_original_assertions := d_original_assertions ctx;
     d_preprocessor := d_preprocessor ctx;
     d_solver_engine := d_solver_engine ctx;
     d_sat_state := d_sat_state ctx |}.

Definition with_engine (ctx : SolvingContext) (e : Engine) (r : Result)
  : SolvingContext :=
  {| d_env := d_env ctx; d_levels := d_levels ctx;
     d_assertions := d_assertions ctx;
     d_original_assertions := d_original_assertions ctx;
     d_preprocessor := d_preprocessor ctx;
     d_solver_engine := e;
     d_sat_state := r |}.

(** Modelled from the spec: [AssertionStack::push_back] (the assertion
    stack is not among the sources) appends the formula at the current
    level: "assert(t): requires t.sort = Bool; appends to current level".
    It reports that the formula was added. *)
Definition stack_push_back (v : Preprocess.AssertionView) (formula : Node)
    (level : nat) : Preprocess.AssertionView * bool :=
  ({| Preprocess.view_stack := Preprocess.view_stack v ++ [(formula, level)];
      Preprocess.view_index := Preprocess.view_index v |}, true).

(** [SolvingContext::assert_formula] *)
Definition assert_formula (ctx : SolvingContext) (formula : Node)
  : outcome SolvingContext :=
  let* _ := oassert (is_bool formula) in
  let '(v, added) := stack_push_back (d_assertions ctx) formula (d_levels ctx) in
  Ok (with_assertions ctx v
        (if added
         then d_original_assertions ctx ++ [(formula, d_levels ctx)]
         else d_original_assertions ctx)).

(** [SolvingContext::push] *)
Definition push (ctx : SolvingContext) : SolvingContext :=
  with_levels ctx (S (d_levels ctx)).

(** Modelled from the spec: [BacktrackManager::pop] (the backtrack
    manager is not among the sources): "pop discards all pairs at topmost
    levels being popped", and "popping past the root fails". *)
Definition pop (ctx : SolvingContext) : outcome SolvingContext :=
  let* _ := oassert (negb (Nat.eqb (d_levels ctx) 0)) in
  let n := Nat.pred (d_levels ctx) in
  let keep := List.filter (fun p : Node * nat => Nat.leb (snd p) n) in
  let stack := keep (Preprocess.view_stack (d_assertions ctx)) in
  Ok (with_levels
        (with_assertions ctx
           {| Preprocess.view_stack := stack;
              Preprocess.view_index :=
                Nat.min (Preprocess.view_index (d_assertions ctx))
                        (List.length stack) |}
           (keep (d_original_assertions ctx)))
        n).

(** [SolvingContext::preprocess]; the formula statistics computed for a
    positive verbosity do not change the state. *)
Definition preprocess (fuel : nat) (ctx : SolvingContext)
  : outcome (SolvingContext * Result) :=
  let '(pp, v, _, res) :=
    Preprocess.preprocess pass_apply fuel (d_env ctx)
      (d_levels ctx) (d_preprocessor ctx) (d_assertions ctx) in
  match res with
  | Some r =>
      Ok ({| d_env := d_env ctx; d_levels := d_levels ctx;
             d_assertions := v;
             d_original_assertions := d_original_assertions ctx;
             d_preprocessor := pp;
             d_solver_engine := d_solver_engine ctx;
             d_sat_state := d_sat_state ctx |}, r)
  | None => OutOfFuel
  end.

(** [SolvingContext::ensure_model] *)
Definition ensure_model (fuel : nat) (ctx : SolvingContext)
  : outcome SolvingContext :=
  match collect_all fuel
          (pp_process (Preprocess.d_passes (d_preprocessor ctx)))
          (original_assertions ctx) [] [] false with
  | None => OutOfFuel
  | Some (terms, need_check) =>
      if need_check
      then Ok (with_engine ctx
                 (engine_ensure_model (d_solver_engine ctx) terms)
                 (d_sat_state ctx))
      else Ok ctx
  end.

Definition Result_is (r s : Result) : bool := Result_eqb r s.

(** [SolvingContext::solve], in a debug build. *)
Definition solve (fuel : nat) (ctx : SolvingContext)
  : outcome (SolvingContext * Result) :=
  match check_no_free_variables fuel (assertion_nodes ctx) with
  | CheckOutOfFuel => OutOfFuel
  | FoundFreeVariables _ _ => Abort
  | NoFreeVariables =>
      let* pr := preprocess fuel ctx in
      let ctx := fst pr in
      match collect_all fuel
              (pp_process (Preprocess.d_passes (d_preprocessor ctx)))
              (original_assertions ctx) [] [] false with
      | None => OutOfFuel
      | Some (terms, _) =>
          let engine :=
            fold_left engine_process_term terms (d_solver_engine ctx) in
          let '(engine, res) := engine_solve engine in
          let ctx := with_engine ctx engine res in
          let* ctx :=
            (if (Result_is res SAT
                 && (Opt.produce_models (options ctx)
                     || Opt.dbg_check_model (options ctx)))%bool
             then ensure_model fuel ctx
             else Ok ctx) in
          let* _ :=
            (if (Result_is res SAT && Opt.dbg_check_model (options ctx))%bool
             then oassert (check_model (d_solver_engine ctx)
                             (original_assertions ctx))
             else if (Result_is res UNSAT
                      && Opt.dbg_check_unsat_core (options ctx))%bool
             then oassert (check_unsat_core (d_solver_engine ctx)
                             (original_assertions ctx))
             else Ok tt) in
          Ok (ctx, res)
      end
  end.

(** [SolvingContext::get_value] *)
Definition get_value (ctx : SolvingContext) (term : Node) : outcome Node :=
  let* _ := oassert (Result_is (d_sat_state ctx) SAT) in
  match engine_value (d_solver_engine ctx)
          (pp_process (Preprocess.d_passes (d_preprocessor ctx)) term) with
  | inl v => Ok v
  | inr _ => Ok term
  end.

End SolvingContext.

Arguments Build_SolvingContext {PassState Engine} _ _ _ _ _ _ _.
Arguments d_env {PassState Engine} _.
Arguments d_levels {PassState Engine} _.
Arguments d_assertions {PassState Engine} _.
Arguments d_original_assertions {PassState Engine} _.
Arguments d_preprocessor {PassState Engine} _.
Arguments d_solver_engine {PassState Engine} _.
Arguments d_sat_state {PassState Engine} _.
Arguments SolvingContext_new {PassState Engine} _ _ _.
Arguments options {PassState Engine} _.
Arguments assertion_nodes {PassState Engine} _.
Arguments original_assertions {PassState Engine} _.
Arguments assert_formula {PassState Engine} _ _ _.
Arguments push {PassState Engine} _.
Arguments pop {PassState Engine} _.
Arguments preprocess {PassState} _ {Engine} _ _.
Arguments solve {PassState} _ _ {Engine} _ _ _ _ _ _ _.
Arguments get_value {PassState} _ {Engine} _ _ _.

End Context.

(* ================================================================== *)
(** ** The C++ API (api/cpp/bitwuzla.cpp)                              *)
(* ================================================================== *)

Module Api.

(** An API options object owns an internal options object through the
    pointer [d_options]; the internal objects live in a heap. *)
Abbreviation loc := positive.
Abbreviation Heap := (gmap positive Opt.Options).

Record Options : Type := { d_options : loc }.

(** [Options::set(option, value)]: writes through the pointer. The option
    is given by its internal name (its image under
    [s_internal_options]). *)
Definition Options_set (h : Heap) (o : Options) (opt : Opt.Option)
    (v : Opt.OptionValue) : Heap :=
  alter (Opt.set opt v) (d_options o) h.

(** [Options::get_*(option)]: reads through the pointer. *)
Definition Options_get (h : Heap) (o : Options) (opt : Opt.Option)
  : option Opt.OptionValue :=
  match h !! d_options o with
  | Some io => Some (Opt.get io opt)
  | None => None
  end.

Section Bitwuzla.

Variable PassState : Type.
Variable pass_apply :
  Preprocess.PassId -> PassState -> Preprocess.AssertionVector ->
  PassState * Preprocess.AssertionVector.
Variable pp_process : PassState -> Node -> Node.
Variable Engine : Type.
Variable engine_process_term : Engine -> Node -> Engine.
Variable engine_solve : Engine -> Engine * Result.
Variable engine_value : Engine -> Node -> Node + Node.
Variable engine_ensure_model : Engine -> list Node -> Engine.
Variable check_model : Engine -> list Node -> bool.
Variable check_unsat_core : Engine -> list Node -> bool.
Variable is_bool : Node -> bool.

(** The solver instance: [d_ctx]. *)
Record Bitwuzla : Type := {
  d_ctx : Context.SolvingContext PassState Engine
}.

(** [Bitwuzla::Bitwuzla(const Options &options)]: the solving context
    is constructed from the dereferenced [options.d_options]. *)
Definition Bitwuzla_new (h : Heap) (options : Options) (passes : PassState)
    (engine : Engine) : option Bitwuzla :=
  match h !! d_options options with
  | Some io => Some {| d_ctx := Context.SolvingContext_new io passes engine |}
  | None => None
  end.

(** [Bitwuzla::terminate]: [return false;] *)
Definition terminate (b : Bitwuzla) : bool := false.

(** [Bitwuzla::push]: [for (i = 0; i < nlevels; ++i) d_ctx->push();] *)
Fixpoint push (b : Bitwuzla) (nlevels : nat) : outcome Bitwuzla :=
  match nlevels with
  | O => Ok b
  | S n => push {| d_ctx := Context.push (d_ctx b) |} n
  end.

(** [Bitwuzla::pop]: [for (i = 0; i < nlevels; ++i) d_ctx->pop();] *)
Fixpoint pop (b : Bitwuzla) (nlevels : nat) : outcome Bitwuzla :=
  match nlevels with
  | O => Ok b
  | S n =>
      let* ctx := Context.pop (d_ctx b) in
      pop {| d_ctx := ctx |} n
  end.

(** [Bitwuzla::assert_formula] *)
Definition assert_formula (b : Bitwuzla) (term : Node) : outcome Bitwuzla :=
  let* ctx := Context.assert_formula is_bool (d_ctx b) term in
  Ok {| d_ctx := ctx |}.

(** [Bitwuzla::simplify]: [return Result::UNKNOWN;] *)
Definition simplify (b : Bitwuzla) : outcome (Bitwuzla * Result) :=
  Ok (b, UNKNOWN).

(** [Bitwuzla::check_sat] *)
Definition check_sat (fuel : nat) (b : Bitwuzla) (assumptions : list Node)
  : outcome (Bitwuzla * Result) :=
  let* _ := oassert (Nat.eqb (List.length assumptions) 0) in
  let* r := Context.solve pass_apply pp_process engine_process_term
              engine_solve engine_ensure_model check_model
              check_unsat_core fuel (d_ctx b) in
  Ok ({| d_ctx := fst r |}, snd r).

(** [Bitwuzla::get_value] *)
Definition get_value (b : Bitwuzla) (term : Node) : outcome Node :=
  Context.get_value pp_process engine_value (d_ctx b) term.

(** The program state seen from a client: the option objects it holds
    and the solver instances it has constructed. *)
Record World : Type := {
  heap : Heap;
  instances : gmap positive Bitwuzla
}.

(** [bitwuzla::Bitwuzla bitwuzla(options)] for a new instance [id]. *)
Definition construct (w : World) (id : positive) (options : Options)
    (passes : PassState) (engine : Engine) : option World :=
  match Bitwuzla_new (heap w) options passes engine with
  | Some b => Some {| heap := heap w; instances := <[id := b]> (instances w) |}
  | None => None
  end.

(** [options.set(option, value)] *)
Definition set_option (w : World) (options : Options) (opt : Opt.Option)
    (v : Opt.OptionValue) : World :=
  {| heap := Options_set (heap w) options opt v; instances := instances w |}.

(** The value of an option as the instance [id] reads it
    ([d_ctx->options()]). *)
Definition instance_option (w : World) (id : positive) (opt : Opt.Option)
  : option Opt.OptionValue :=
  match instances w !! id with
  | Some b => Some (Opt.get (Context.options (d_ctx b)) opt)
  | None => None
  end.

End Bitwuzla.

Arguments Build_Bitwuzla {PassState Engine} _.
Arguments d_ctx {PassState Engine} _.
Arguments Bitwuzla_new {PassState Engine} _ _ _ _.
Arguments terminate {PassState Engine} _.
Arguments push {PassState Engine} _ _.
Arguments pop {PassState Engine} _ _.
Arguments assert_formula {PassState Engine} _ _ _.
Arguments simplify {PassState Engine} _.
Arguments get_value {PassState} _ {Engine} _ _ _.
Arguments Build_World {PassState Engine} _ _.
Arguments heap {PassState Engine} _.
Arguments instances {PassState Engine} _.
Arguments construct {PassState Engine} _ _ _ _ _.
Arguments set_option {PassState Engine} _ _ _ _.
Arguments instance_option {PassState Engine} _ _ _.

End Api.

(* ================================================================== *)
(** ** sat/kissat.cpp                                                  *)
(* ================================================================== *)

Module Kissat.
Section Wrapper.

(** The Kissat library itself: the solver handle and the three entry
    points the wrapper forwards to. *)
Variable kissat : Type.
Variable kissat_add : kissat -> Z -> kissat.
Variable kissat_value : kissat -> Z -> Z.
Variable kissat_solve : kissat -> kissat * Z.
Variable kissat_set_terminate : kissat -> (unit -> Z) -> kissat.
Variable kissat_version : string.

(** [Kissat::add] *)
Definition add (d_solver : kissat) (lit : Z) : outcome kissat :=
  Ok (kissat_add d_solver lit).

(** [Kissat::assume]: [(void) lit; assert(false);] *)
Definition assume (d_solver : kissat) (lit : Z) : outcome kissat :=
  let* _ := oassert false in Ok d_solver.

(** [Kissat::value] *)
Definition value (d_solver : kissat) (lit : Z) : outcome Z :=
  let val := kissat_value d_solver lit in
  if 0 <? val then Ok 1
  else if val <? 0 then Ok (-1)
  else Ok 0.

(** [Kissat::failed]: [(void) lit; assert(false);] *)
Definition failed (d_solver : kissat) (lit : Z) : outcome bool :=
  let* _ := oassert false in Ok false.

(** [Kissat::fixed]: [(void) lit; assert(false);] *)
Definition fixed (d_solver : kissat) (lit : Z) : outcome Z :=
  let* _ := oassert false in Ok 0.

(** [Kissat::solve] *)
Definition solve (d_solver : kissat) : outcome (kissat * Result) :=
  let '(s, res) := kissat_solve d_solver in
  if res =? 10 then Ok (s, SAT)
  else if res =? 20 then Ok (s, UNSAT)
  else Ok (s, UNKNOWN).

(** [Kissat::set_terminate] *)
Definition set_terminate (d_solver : kissat) (fn : unit -> Z)
  : outcome kissat :=
  Ok (kissat_set_terminate d_solver fn).

(** [Kissat::get_version] *)
Definition get_version (d_solver : kissat) : outcome string :=
  Ok kissat_version.

End Wrapper.
End Kissat.

(* ================================================================== *)
(** ** main/main.cpp                                                   *)
(* ================================================================== *)

Module Main.

(** [size_t] is 64 bits wide; [std::string::npos] is its largest value. *)
Definition size_max : Z := 2 ^ 64.
Definition npos : Z := size_max - 1.

Definition size (s : string) : Z := Z.of_nat (String.length s).

(** [std::string::find]: position of the first occurrence, or [npos]. *)
Definition find (s sub : string) : Z :=
  match index 0 sub s with
  | Some i => Z.of_nat i
  | None => npos
  end.

(** [std::string::substr(pos)]: throws [std::out_of_range] (here [None])
    when [pos > size()]. *)
Definition substr (s : string) (pos : Z) : option string :=
  if size s <? pos then None
  else Some (substring (Z.to_nat pos) (String.length s - Z.to_nat pos) s).

Definition EXIT_SUCCESS : Z := 0.
Definition EXIT_FAILURE : Z := 1.

(** How the process ends: [bzla_exit(status)], or an exception that leaves
    [main] (which ends the process through [std::terminate]). *)
Inductive Termination : Type :=
| Exit (status : Z)
| Uncaught.

Inductive Output : Type :=
| PrintHelp | PrintCopyright | PrintVersion
| Stderr (msg : string).

(** What [bitwuzla::parse] did: the message it returns (empty on
    success), and the answers of the check-sat commands it ran.  Only the
    message is part of the C++ return value. *)
Record ParseOutcome : Type := {
  err_msg : string;
  answers : list Result
}.

Section Driver.

(** [bitwuzla::Options::set(args)]: [Some msg] when it throws a
    [bitwuzla::Exception] with message [msg]. *)
Variable options_set : list string -> option string.
(** [bitwuzla::parse(options, filename)], the options being those
    configured from [args]. *)
Variable parse : list string -> string -> ParseOutcome.

(** The test that takes an argument as the input file:
    [arg.find(".smt2") == arg.size() - 5 || arg.find(".btor") == arg.size() - 5]
    with the subtraction carried out on [size_t]. *)
Definition is_input_file (arg : string) : bool :=
  (find arg ".smt2" =? (size arg - 5) mod size_max)
  || (find arg ".btor" =? (size arg - 5) mod size_max).

(** The loop over [argv[1..]]: either an early exit, or the collected
    option arguments and the file name. *)
Fixpoint scan_args (argv args : list string) (filename : string)
  : (Output * Z) + (list string * string) :=
  match argv with
  | [] => inr (args, filename)
  | arg :: rest =>
      if (String.eqb arg "-h" || String.eqb arg "--help")%bool
      then inl (PrintHelp, EXIT_SUCCESS)
      else if (String.eqb arg "-c" || String.eqb arg "--copyright")%bool
      then inl (PrintCopyright, EXIT_SUCCESS)
      else if (String.eqb arg "-V" || String.eqb arg "--version")%bool
      then inl (PrintVersion, EXIT_SUCCESS)
      else if is_input_file arg
      then scan_args rest args arg
      else scan_args rest (args ++ [arg]) filename
  end.

(** [main]: the output and the way the process ends. *)
Definition main (argv : list string) : list Output * Termination :=
  match scan_args (tl argv) [] "" with
  | inl (out, status) => ([out], Exit status)
  | inr (args, filename) =>
      match options_set args with
      | Some msg =>
          let pos := find msg "', " in
          match substr msg ((pos + 3) mod size_max) with
          | Some m => ([Stderr ("[error] " ++ m)], Exit EXIT_FAILURE)
          | None => ([], Uncaught)
          end
      | None =>
          let err := err_msg (parse args filename) in
          if String.eqb err ""
          then ([], Exit EXIT_SUCCESS)
          else ([Stderr ("[error] " ++ err)], Exit EXIT_FAILURE)
      end
  end.

Definition exit_status (argv : list string) : Termination :=
  snd (main argv).

End Driver.

(** A front end whose option arguments are all accepted and whose input
    is a satisfiable (resp. unsatisfiable) formula. *)
Definition accept_all (_ : list string) : option string := None.
Definition parse_answer (r : Result) (_ : list string) (_ : string)
  : ParseOutcome :=
  {| err_msg := ""; answers := [r] |}.

End Main.

(* ================================================================== *)
(** ** The kinds of the API and their tables (api/cpp/bitwuzla.cpp)    *)
(* ================================================================== *)

(** The kinds of the API, [bitwuzla::Kind]: the enumerators that the
    tables [s_internal_kinds] and [s_kinds] list, in the order of
    [s_internal_kinds]. *)
Module ApiKind.

Inductive t : Type :=
| CONSTANT | CONST_ARRAY | VALUE | VARIABLE | AND | DISTINCT | EQUAL | IFF
| IMPLIES | NOT | OR | XOR | ITE | EXISTS | FORALL | APPLY | LAMBDA
| ARRAY_SELECT | ARRAY_STORE | BV_ADD | BV_AND | BV_ASHR | BV_COMP
| BV_CONCAT | BV_DEC | BV_INC | BV_MUL | BV_NAND | BV_NEG | BV_NOR | BV_NOT
| BV_OR | BV_REDAND | BV_REDOR | BV_REDXOR | BV_ROL | BV_ROR
| BV_SADD_OVERFLOW | BV_SDIV_OVERFLOW | BV_SDIV | BV_SGE | BV_SGT | BV_SHL
| BV_SHR | BV_SLE | BV_SLT | BV_SMOD | BV_SMUL_OVERFLOW | BV_SREM
| BV_SSUB_OVERFLOW | BV_SUB | BV_UADD_OVERFLOW | BV_UDIV | BV_UGE | BV_UGT
| BV_ULE | BV_ULT | BV_UMUL_OVERFLOW | BV_UREM | BV_USUB_OVERFLOW | BV_XNOR
| BV_XOR | BV_EXTRACT | BV_REPEAT | BV_ROLI | BV_RORI | BV_SIGN_EXTEND
| BV_ZERO_EXTEND | FP_ABS | FP_ADD | FP_DIV | FP_EQUAL | FP_FMA | FP_FP
| FP_GE | FP_GT | FP_IS_INF | FP_IS_NAN | FP_IS_NEG | FP_IS_NORMAL
| FP_IS_POS | FP_IS_SUBNORMAL | FP_IS_ZERO | FP_LEQ | FP_LT | FP_MAX
| FP_MIN | FP_MUL | FP_NEG | FP_REM | FP_RTI | FP_SQRT | FP_SUB
| FP_TO_FP_FROM_BV | FP_TO_FP_FROM_FP | FP_TO_FP_FROM_SBV
| FP_TO_FP_FROM_UBV | FP_TO_SBV | FP_TO_UBV.

Definition tag (k : t) : positive :=
  match k with
  | CONSTANT => 1
  | CONST_ARRAY => 2
  | VALUE => 3
  | VARIABLE => 4
  | AND => 5
  | DISTINCT => 6
  | EQUAL => 7
  | IFF => 8
  | IMPLIES => 9
  | NOT => 10
  | OR => 11
  | XOR => 12
  | ITE => 13
  | EXISTS => 14
  | FORALL => 15
  | APPLY => 16
  | LAMBDA => 17
  | ARRAY_SELECT => 18
  | ARRAY_STORE => 19
  | BV_ADD => 20
  | BV_AND => 21
  | BV_ASHR => 22
  | BV_COMP => 23
  | BV_CONCAT => 24
  | BV_DEC => 25
  | BV_INC => 26
  | BV_MUL => 27
  | BV_NAND => 28
  | BV_NEG => 29
  | BV_NOR => 30
  | BV_NOT => 31
  | BV_OR => 32
  | BV_REDAND => 33
  | BV_REDOR => 34
  | BV_REDXOR => 35
  | BV_ROL => 36
  | BV_ROR => 37
  | BV_SADD_OVERFLOW => 38
  | BV_SDIV_OVERFLOW => 39
  | BV_SDIV => 40
  | BV_SGE => 41
  | BV_SGT => 42
  | BV_SHL => 43
  | BV_SHR => 44
  | BV_SLE => 45
  | BV_SLT => 46
  | BV_SMOD => 47
  | BV_SMUL_OVERFLOW => 48
  | BV_SREM => 49
  | BV_SSUB_OVERFLOW => 50
  | BV_SUB => 51
  | BV_UADD_OVERFLOW => 52
  | BV_UDIV => 53
  | BV_UGE => 54
  | BV_UGT => 55
  | BV_ULE => 56
  | BV_ULT => 57
  | BV_UMUL_OVERFLOW => 58
  | BV_UREM => 59
  | BV_USUB_OVERFLOW => 60
  | BV_XNOR => 61
  | BV_XOR => 62
  | BV_EXTRACT => 63
  | BV_REPEAT => 64
  | BV_ROLI => 65
  | BV_RORI => 66
  | BV_SIGN_EXTEND => 67
  | BV_ZERO_EXTEND => 68
  | FP_ABS => 69
  | FP_ADD => 70
  | FP_DIV => 71
  | FP_EQUAL => 72
  | FP_FMA => 73
  | FP_FP => 74
  | FP_GE => 75
  | FP_GT => 76
  | FP_IS_INF => 77
  | FP_IS_NAN => 78
  | FP_IS_NEG => 79
  | FP_IS_NORMAL => 80
  | FP_IS_POS => 81
  | FP_IS_SUBNORMAL => 82
  | FP_IS_ZERO => 83
  | FP_LEQ => 84
  | FP_LT => 85
  | FP_MAX => 86
  | FP_MIN => 87
  | FP_MUL => 88
  | FP_NEG => 89
  | FP_REM => 90
  | FP_RTI => 91
  | FP_SQRT => 92
  | FP_SUB => 93
  | FP_TO_FP_FROM_BV => 94
  | FP_TO_FP_FROM_FP => 95
  | FP_TO_FP_FROM_SBV => 96
  | FP_TO_FP_FROM_UBV => 97
  | FP_TO_SBV => 98
  | FP_TO_UBV => 99
  end.

Definition eqb (a b : t) : bool := Pos.eqb (tag a) (tag b).

End ApiKind.

(** [s_internal_kinds], the initializer list of the map from the kinds of
    the API to the kinds of nodes. *)
Definition s_internal_kinds : list (ApiKind.t * Kind.t) :=
  [
   (ApiKind.CONSTANT, Kind.CONSTANT);
   (ApiKind.CONST_ARRAY, Kind.CONST_ARRAY); (ApiKind.VALUE, Kind.VALUE);
   (ApiKind.VARIABLE, Kind.VARIABLE); (ApiKind.AND, Kind.AND);
   (ApiKind.DISTINCT, Kind.DISTINCT); (ApiKind.EQUAL, Kind.EQUAL);
   (ApiKind.IFF, Kind.EQUAL); (ApiKind.IMPLIES, Kind.IMPLIES);
   (ApiKind.NOT, Kind.NOT); (ApiKind.OR, Kind.OR); (ApiKind.XOR, Kind.XOR);
   (ApiKind.ITE, Kind.ITE); (ApiKind.EXISTS, Kind.EXISTS);
   (ApiKind.FORALL, Kind.FORALL); (ApiKind.APPLY, Kind.APPLY);
   (ApiKind.LAMBDA, Kind.LAMBDA); (ApiKind.ARRAY_SELECT, Kind.SELECT);
   (ApiKind.ARRAY_STORE, Kind.STORE); (ApiKind.BV_ADD, Kind.BV_ADD);
   (ApiKind.BV_AND, Kind.BV_AND); (ApiKind.BV_ASHR, Kind.BV_ASHR);
   (ApiKind.BV_COMP, Kind.BV_COMP); (ApiKind.BV_CONCAT, Kind.BV_CONCAT);
   (ApiKind.BV_DEC, Kind.BV_DEC); (ApiKind.BV_INC, Kind.BV_INC);
   (ApiKind.BV_MUL, Kind.BV_MUL); (ApiKind.BV_NAND, Kind.BV_NAND);
   (ApiKind.BV_NEG, Kind.BV_NEG); (ApiKind.BV_NOR, Kind.BV_NOR);
   (ApiKind.BV_NOT, Kind.BV_NOT); (ApiKind.BV_OR, Kind.BV_OR);
   (ApiKind.BV_REDAND, Kind.BV_REDAND); (ApiKind.BV_REDOR, Kind.BV_REDOR);
   (ApiKind.BV_REDXOR, Kind.BV_REDXOR); (ApiKind.BV_ROL, Kind.BV_ROL);
   (ApiKind.BV_ROR, Kind.BV_ROR);
   (ApiKind.BV_SADD_OVERFLOW, Kind.BV_SADDO);
   (ApiKind.BV_SDIV_OVERFLOW, Kind.BV_SDIVO);
   (ApiKind.BV_SDIV, Kind.BV_SDIV); (ApiKind.BV_SGE, Kind.BV_SGE);
   (ApiKind.BV_SGT, Kind.BV_SGT); (ApiKind.BV_SHL, Kind.BV_SHL);
   (ApiKind.BV_SHR, Kind.BV_SHR); (ApiKind.BV_SLE, Kind.BV_SLE);
   (ApiKind.BV_SLT, Kind.BV_SLT); (ApiKind.BV_SMOD, Kind.BV_SMOD);
   (ApiKind.BV_SMUL_OVERFLOW, Kind.BV_SMULO);
   (ApiKind.BV_SREM, Kind.BV_SREM);
   (ApiKind.BV_SSUB_OVERFLOW, Kind.BV_SSUBO);
   (ApiKind.BV_SUB, Kind.BV_SUB);
   (ApiKind.BV_UADD_OVERFLOW, Kind.BV_UADDO);
   (ApiKind.BV_UDIV, Kind.BV_UDIV); (ApiKind.BV_UGE, Kind.BV_UGE);
   (ApiKind.BV_UGT, Kind.BV_UGT); (ApiKind.BV_ULE, Kind.BV_ULE);
   (ApiKind.BV_ULT, Kind.BV_ULT);
   (ApiKind.BV_UMUL_OVERFLOW, Kind.BV_UMULO);
   (ApiKind.BV_UREM, Kind.BV_UREM);
   (ApiKind.BV_USUB_OVERFLOW, Kind.BV_USUBO);
   (ApiKind.BV_XNOR, Kind.BV_XNOR); (ApiKind.BV_XOR, Kind.BV_XOR);
   (ApiKind.BV_EXTRACT, Kind.BV_EXTRACT);
   (ApiKind.BV_REPEAT, Kind.BV_REPEAT); (ApiKind.BV_ROLI, Kind.BV_ROLI);
   (ApiKind.BV_RORI, Kind.BV_RORI);
   (ApiKind.BV_SIGN_EXTEND, Kind.BV_SIGN_EXTEND);
   (ApiKind.BV_ZERO_EXTEND, Kind.BV_ZERO_EXTEND);
   (ApiKind.FP_ABS, Kind.FP_ABS); (ApiKind.FP_ADD, Kind.FP_ADD);
   (ApiKind.FP_DIV, Kind.FP_DIV); (ApiKind.FP_EQUAL, Kind.FP_EQUAL);
   (ApiKind.FP_FMA, Kind.FP_FMA); (ApiKind.FP_FP, Kind.FP_FP);
   (ApiKind.FP_GE, Kind.FP_GE); (ApiKind.FP_GT, Kind.FP_GT);
   (ApiKind.FP_IS_INF, Kind.FP_IS_INF);
   (ApiKind.FP_IS_NAN, Kind.FP_IS_NAN);
   (ApiKind.FP_IS_NEG, Kind.FP_IS_NEG);
   (ApiKind.FP_IS_NORMAL, Kind.FP_IS_NORMAL);
   (ApiKind.FP_IS_POS, Kind.FP_IS_POS);
   (ApiKind.FP_IS_SUBNORMAL, Kind.FP_IS_SUBNORMAL);
   (ApiKind.FP_IS_ZERO, Kind.FP_IS_ZERO); (ApiKind.FP_LEQ, Kind.FP_LE);
   (ApiKind.FP_LT, Kind.FP_LT); (ApiKind.FP_MAX, Kind.FP_MAX);
   (ApiKind.FP_MIN, Kind.FP_MIN); (ApiKind.FP_MUL, Kind.FP_MUL);
   (ApiKind.FP_NEG, Kind.FP_NEG); (ApiKind.FP_REM, Kind.FP_REM);
   (ApiKind.FP_RTI, Kind.FP_RTI); (ApiKind.FP_SQRT, Kind.FP_SQRT);
   (ApiKind.FP_SUB, Kind.FP_SUB);
   (ApiKind.FP_TO_FP_FROM_BV, Kind.FP_TO_FP_FROM_BV);
   (ApiKind.FP_TO_FP_FROM_FP, Kind.FP_TO_FP_FROM_FP);
   (ApiKind.FP_TO_FP_FROM_SBV, Kind.FP_TO_FP_FROM_SBV);
   (ApiKind.FP_TO_FP_FROM_UBV, Kind.FP_TO_FP_FROM_UBV);
   (ApiKind.FP_TO_SBV, Kind.FP_TO_SBV); (ApiKind.FP_TO_UBV, Kind.FP_TO_UBV)
  ].

(** [s_kinds], the initializer list of the map from the kinds of nodes to
    the kinds of the API. *)
Definition s_kinds : list (Kind.t * ApiKind.t) :=
  [
   (Kind.CONSTANT, ApiKind.CONSTANT);
   (Kind.CONST_ARRAY, ApiKind.CONST_ARRAY); (Kind.VALUE, ApiKind.VALUE);
   (Kind.VARIABLE, ApiKind.VARIABLE); (Kind.AND, ApiKind.AND);
   (Kind.DISTINCT, ApiKind.DISTINCT); (Kind.EQUAL, ApiKind.EQUAL);
   (Kind.EQUAL, ApiKind.IFF); (Kind.IMPLIES, ApiKind.IMPLIES);
   (Kind.NOT, ApiKind.NOT); (Kind.OR, ApiKind.OR); (Kind.XOR, ApiKind.XOR);
   (Kind.ITE, ApiKind.ITE); (Kind.EXISTS, ApiKind.EXISTS);
   (Kind.FORALL, ApiKind.FORALL); (Kind.APPLY, ApiKind.APPLY);
   (Kind.LAMBDA, ApiKind.LAMBDA); (Kind.SELECT, ApiKind.ARRAY_SELECT);
   (Kind.STORE, ApiKind.ARRAY_STORE); (Kind.BV_ADD, ApiKind.BV_ADD);
   (Kind.BV_AND, ApiKind.BV_AND); (Kind.BV_ASHR, ApiKind.BV_ASHR);
   (Kind.BV_COMP, ApiKind.BV_COMP); (Kind.BV_CONCAT, ApiKind.BV_CONCAT);
   (Kind.BV_DEC, ApiKind.BV_DEC); (Kind.BV_INC, ApiKind.BV_INC);
   (Kind.BV_MUL, ApiKind.BV_MUL); (Kind.BV_NAND, ApiKind.BV_NAND);
   (Kind.BV_NEG, ApiKind.BV_NEG); (Kind.BV_NOR, ApiKind.BV_NOR);
   (Kind.BV_NOT, ApiKind.BV_NOT); (Kind.BV_OR, ApiKind.BV_OR);
   (Kind.BV_REDAND, ApiKind.BV_REDAND); (Kind.BV_REDOR, ApiKind.BV_REDOR);
   (Kind.BV_REDXOR, ApiKind.BV_REDXOR); (Kind.BV_ROL, ApiKind.BV_ROL);
   (Kind.BV_ROR, ApiKind.BV_ROR);
   (Kind.BV_SADDO, ApiKind.BV_SADD_OVERFLOW);
   (Kind.BV_SDIVO, ApiKind.BV_SDIV_OVERFLOW);
   (Kind.BV_SDIV, ApiKind.BV_SDIV); (Kind.BV_SGE, ApiKind.BV_SGE);
   (Kind.BV_SGT, ApiKind.BV_SGT); (Kind.BV_SHL, ApiKind.BV_SHL);
   (Kind.BV_SHR, ApiKind.BV_SHR); (Kind.BV_SLE, ApiKind.BV_SLE);
   (Kind.BV_SLT, ApiKind.BV_SLT); (Kind.BV_SMOD, ApiKind.BV_SMOD);
   (Kind.BV_SMULO, ApiKind.BV_SMUL_OVERFLOW);
   (Kind.BV_SREM, ApiKind.BV_SREM);
   (Kind.BV_SSUBO, ApiKind.BV_SSUB_OVERFLOW);
   (Kind.BV_SUB, ApiKind.BV_SUB);
   (Kind.BV_UADDO, ApiKind.BV_UADD_OVERFLOW);
   (Kind.BV_UDIV, ApiKind.BV_UDIV); (Kind.BV_UGE, ApiKind.BV_UGE);
   (Kind.BV_UGT, ApiKind.BV_UGT); (Kind.BV_ULE, ApiKind.BV_ULE);
   (Kind.BV_ULT, ApiKind.BV_ULT);
   (Kind.BV_UMULO, ApiKind.BV_UMUL_OVERFLOW);
   (Kind.BV_UREM, ApiKind.BV_UREM);
   (Kind.BV_USUBO, ApiKind.BV_USUB_OVERFLOW);
   (Kind.BV_XNOR, ApiKind.BV_XNOR); (Kind.BV_XOR, ApiKind.BV_XOR);
   (Kind.BV_EXTRACT, ApiKind.BV_EXTRACT);
   (Kind.BV_REPEAT, ApiKind.BV_REPEAT); (Kind.BV_ROLI, ApiKind.BV_ROLI);
   (Kind.BV_RORI, ApiKind.BV_RORI);
   (Kind.BV_SIGN_EXTEND, ApiKind.BV_SIGN_EXTEND);
   (Kind.BV_ZERO_EXTEND, ApiKind.BV_ZERO_EXTEND);
   (Kind.FP_ABS, ApiKind.FP_ABS); (Kind.FP_ADD, ApiKind.FP_ADD);
   (Kind.FP_DIV, ApiKind.FP_DIV); (Kind.FP_EQUAL, ApiKind.FP_EQUAL);
   (Kind.FP_FMA, ApiKind.FP_FMA); (Kind.FP_FP, ApiKind.FP_FP);
   (Kind.FP_GE, ApiKind.FP_GE); (Kind.FP_GT, ApiKind.FP_GT);
   (Kind.FP_IS_INF, ApiKind.FP_IS_INF);
   (Kind.FP_IS_NAN, ApiKind.FP_IS_NAN);
   (Kind.FP_IS_NEG, ApiKind.FP_IS_NEG);
   (Kind.FP_IS_NORMAL, ApiKind.FP_IS_NORMAL);
   (Kind.FP_IS_POS, ApiKind.FP_IS_POS);
   (Kind.FP_IS_SUBNORMAL, ApiKind.FP_IS_SUBNORMAL);
   (Kind.FP_IS_ZERO, ApiKind.FP_IS_ZERO); (Kind.FP_LE, ApiKind.FP_LEQ);
   (Kind.FP_LT, ApiKind.FP_LT); (Kind.FP_MAX, ApiKind.FP_MAX);
   (Kind.FP_MIN, ApiKind.FP_MIN); (Kind.FP_MUL, ApiKind.FP_MUL);
   (Kind.FP_NEG, ApiKind.FP_NEG); (Kind.FP_REM, ApiKind.FP_REM);
   (Kind.FP_RTI, ApiKind.FP_RTI); (Kind.FP_SQRT, ApiKind.FP_SQRT);
   (Kind.FP_SUB, ApiKind.FP_SUB);
   (Kind.FP_TO_FP_FROM_BV, ApiKind.FP_TO_FP_FROM_BV);
   (Kind.FP_TO_FP_FROM_FP, ApiKind.FP_TO_FP_FROM_FP);
   (Kind.FP_TO_FP_FROM_SBV, ApiKind.FP_TO_FP_FROM_SBV);
   (Kind.FP_TO_FP_FROM_UBV, ApiKind.FP_TO_FP_FROM_UBV);
   (Kind.FP_TO_SBV, ApiKind.FP_TO_SBV); (Kind.FP_TO_UBV, ApiKind.FP_TO_UBV)
  ].

(** The values that a [std::unordered_map] constructed from the
    initializer list [init] may hold for [key]: the value listed with it;
    none when the key is not listed, and then [at] throws
    [std::out_of_range]; one of the values listed when the key is listed
    several times, the map keeping one element per key. *)
Definition may_hold {K V : Type} (eqb : K -> K -> bool)
    (init : list (K * V)) (key : K) : list V :=
  map snd (List.filter (fun e => eqb (fst e) key) init).

(** [s_internal_kinds.at(kind)], the kind of the node that [mk_term]
    makes. *)
Definition internal_kind_at (kind : ApiKind.t) : list Kind.t :=
  may_hold ApiKind.eqb s_internal_kinds kind.

(** [Term::kind]: [s_kinds.at(d_node->kind())]. *)
Definition Term_kind (n : Node) : list ApiKind.t :=
  may_hold Kind.eqb s_kinds (kind n).

(** [mk_term(kind, args, indices)] for a kind without indices: the node
    of kind [s_internal_kinds.at(kind)] over the arguments. *)
Definition mk_term (kind : ApiKind.t) (args : list Node) : list Node :=
  map (fun k => mk_node k args) (internal_kind_at kind).

(* ================================================================== *)
(** ** Subterms and the size of a term                                 *)
(* ================================================================== *)

(** The number of nodes of a term, seen as a tree. *)
Fixpoint node_size (n : Node) : nat :=
  let '(Nd _ _ cs) := n in
  S ((fix sum (l : list Node) : nat :=
        match l with
        | [] => O
        | c :: l' => (node_size c + sum l')%nat
        end) cs).

Definition nodes_size : list Node -> nat :=
  fix sum (l : list Node) : nat :=
    match l with
    | [] => O
    | c :: l' => (node_size c + sum l')%nat
    end.

(** The term itself and the subterms of its children. *)
Fixpoint subterms (n : Node) : list Node :=
  let '(Nd _ _ cs) := n in
  n :: (fix all (l : list Node) : list Node :=
          match l with
          | [] => []
          | c :: l' => subterms c ++ all l'
          end) cs.

Definition subterms_list : list Node -> list Node :=
  fix all (l : list Node) : list Node :=
    match l with
    | [] => []
    | c :: l' => subterms c ++ all l'
    end.

Definition subterm (m n : Node) : Prop := In m (subterms n).

(** Two sets of nodes with the same elements. *)
Definition same_elements (s t : NodeSet) : Prop :=
  forall v, In v s <-> In v t.

(** Every set recorded in [free_vars] only holds free variables of its
    node. *)
Definition free_vars_sound (free_vars : NodeMap NodeSet) : Prop :=
  forall n s, find_node free_vars n = Some s ->
              forall v, In v s -> In v (free_variables n).

(** What [check_no_free_variables] records for a node [cur] whose
    children have been visited: the body of its [else if (!it->second)]
    branch. *)
Definition finish_node (cur : Node) (free_vars : NodeMap NodeSet)
  : NodeMap NodeSet :=
  let free_vars :=
    if Kind.eqb (kind cur) Kind.VARIABLE
    then set_node free_vars cur [cur]
    else
      let vars0 :=
        match find_node free_vars cur with
        | Some s => s
        | None => []
        end in
      let vars :=
        fold_left
          (fun vars c =>
             match find_node free_vars c with
             | Some s => set_insert_all vars s
             | None => vars
             end)
          (children cur) vars0 in
      set_node free_vars cur vars in
  if is_binder (kind cur)
  then match children cur, find_node free_vars cur with
       | v :: _, Some s => set_node free_vars cur (set_erase s v)
       | v :: _, None => set_node free_vars cur []
       | [], _ => free_vars
       end
  else free_vars.

(** The invariant of the free-variable traversal between two visits: a
    node is marked done exactly when its set is recorded, and the set
    recorded holds exactly its free variables. *)
Definition free_vars_good (cache : NodeMap bool)
    (free_vars : NodeMap NodeSet) : Prop :=
  (forall n, find_node cache n = Some true ->
             exists s, find_node free_vars n = Some s
                       /\ same_elements s (free_variables n))
  /\ (forall n s, find_node free_vars n = Some s ->
                  find_node cache n = Some true).

(** What the traversal of [check_no_free_variables] does with the nodes
    [l] on top of its stack, none of whose subterms is being visited:
    after at most [bound] iterations they are popped and marked done,
    nothing has been unmarked, the nodes being visited are the same, and
    the invariant [I] has been kept. *)
Definition visits (I : NodeMap bool -> NodeMap NodeSet -> Prop)
    (l : list Node) (bound : nat) : Prop :=
  forall cache free_vars rest,
    I cache free_vars ->
    (forall c m, In c l -> subterm m c -> find_node cache m <> Some false) ->
    exists steps cache' free_vars',
      (steps <= bound)%nat
      /\ (forall fuel,
            Context.free_vars_loop (steps + fuel) (l ++ rest) cache free_vars
            = Context.free_vars_loop fuel rest cache' free_vars')
      /\ I cache' free_vars'
      /\ (forall c, In c l -> find_node cache' c = Some true)
      /\ (forall m, find_node cache m = Some true ->
                    find_node cache' m = Some true)
      /\ (forall m, find_node cache' m = Some false
                    <-> find_node cache m = Some false).

(** The model is congruent on the applications [l] when two of them of
    the same class have the same value. *)
Definition congruent_on (state_value : Node -> Node) (l : list Node)
  : Prop :=
  forall a b, In a l -> In b l ->
              FunSolver.same_class state_value a b = true ->
              state_value a = state_value b.

(** The applications of [todo] that are the first of their class when
    [todo] is examined, in order, after [earlier]. *)
Fixpoint class_firsts (state_value : Node -> Node)
    (earlier todo : list Node) : list Node :=
  match todo with
  | [] => []
  | a :: rest =>
      match FunSolver.representative state_value earlier a with
      | None => [a]
      | Some _ => []
      end ++ class_firsts state_value (earlier ++ [a]) rest
  end.

(** The applications of the function [f] among [l]. *)
Definition applies_of (f : Node) (l : list Node) : list Node :=
  List.filter (fun a => nodes_eqb (firstn 1 (children a)) [f]) l.

(** A quantified formula. *)
Definition is_quantifier (n : Node) : bool :=
  (Kind.eqb (kind n) Kind.FORALL || Kind.eqb (kind n) Kind.EXISTS)%bool.

(** A cache holds, with each subterm of [n] it holds, the subterms of
    that subterm. *)
Definition closed_below (cache : NodeSet) (n : Node) : Prop :=
  forall m, subterm m n -> In m cache ->
            forall k, subterm k m -> In k cache.

(** [new] lists, each once, the subterms of the nodes [l] that [cache]
    does not hold. *)
Definition fresh_subterms (l : list Node) (cache new : NodeSet) : Prop :=
  List.NoDup new
  /\ forall k, In k new
               <-> (exists c, In c l /\ subterm k c) /\ ~ In k cache.

(** What the traversal of [solve] and [ensure_model] does with the nodes
    [l] on top of its stack: after at most [bound] iterations they are
    popped, and the subterms not visited before have been added to the
    cache, their constants preprocessed and collected, and their
    quantifiers noted. *)
Definition collect_visits (l : list Node) (bound : nat) : Prop :=
  forall process cache terms need_check rest,
    (forall c, In c l -> closed_below cache c) ->
    exists steps new,
      (steps <= bound)%nat
      /\ (forall fuel,
            Context.collect_consts (steps + fuel) process (l ++ rest)
              cache terms need_check
            = Context.collect_consts fuel process rest (cache ++ new)
                (terms ++ map process (List.filter is_const new))
                (need_check || existsb is_quantifier new))
      /\ fresh_subterms l cache new.

(** The arguments at which [main] prints and exits at once. *)
Definition exit_flags : list string :=
  ["-h"; "--help"; "-c"; "--copyright"; "-V"; "--version"]%string.

(** What [main] prints at such an argument. *)
Definition flag_output (flag : string) : Main.Output :=
  if (String.eqb flag "-h" || String.eqb flag "--help")%bool
  then Main.PrintHelp
  else if (String.eqb flag "-c" || String.eqb flag "--copyright")%bool
  then Main.PrintCopyright
  else Main.PrintVersion.

(** [s] ends with [suffix]. *)
Definition ends_with (s suffix : string) : Prop :=
  substring (String.length s - String.length suffix)
    (String.length suffix) s = suffix.

(* ================================================================== *)
(** ** Timers (util/statistics.cpp)                                    *)
(* ================================================================== *)

Module Statistics.

(** [TimerStatistic]: the time accumulated and the time of the last
    start, in ticks of [std::chrono::steady_clock], and whether the timer
    is running. The reading of the clock, [steady_clock::now()], is an
    argument of the functions that take it. *)
Record TimerStatistic : Type := {
  d_elapsed : Z;
  d_start : Z;
  d_running : bool
}.

(** [TimerStatistic::start] *)
Definition start (now : Z) (t : TimerStatistic) : outcome TimerStatistic :=
  let* _ := oassert (negb (d_running t)) in
  Ok {| d_elapsed := d_elapsed t; d_start := now; d_running := true |}.

(** [TimerStatistic::stop] *)
Definition stop (now : Z) (t : TimerStatistic) : outcome TimerStatistic :=
  let* _ := oassert (d_running t) in
  Ok {| d_elapsed := d_elapsed t + (now - d_start t);
        d_start := d_start t;
        d_running := false |}.

(** [TimerStatistic::running] *)
Definition running (t : TimerStatistic) : bool := d_running t.

(** [TimerStatistic::elapsed]: the time accumulated, with the time since
    the start when the timer is running, cast to milliseconds (which
    truncates) and to [uint64_t]. [ticks_per_ms] is the number of ticks
    of the clock in a millisecond. *)
Definition elapsed (ticks_per_ms : Z) (now : Z) (t : TimerStatistic) : Z :=
  let elapsed :=
    if d_running t then d_elapsed t + (now - d_start t) else d_elapsed t in
  (Z.quot elapsed ticks_per_ms) mod 2 ^ 64.

(** [Timer::Timer(TimerStatistic& stat)], on the statistic it refers
    to. *)
Definition Timer_new (now : Z) (stat : TimerStatistic)
  : outcome TimerStatistic :=
  if negb (running stat) then start now stat else Ok stat.

(** [Timer::~Timer] *)
Definition Timer_delete (now : Z) (stat : TimerStatistic)
  : outcome TimerStatistic :=
  if running stat then stop now stat else Ok stat.

End Statistics.

(** The number of rounds in a trace of the preprocessing loop: each round
    starts by resetting the flag. *)
Definition count_resets (tr : list Preprocess.Event) : nat :=
  List.length
    (List.filter
       (fun e => match e with
                 | Preprocess.ResetModified => true
                 | Preprocess.Apply _ => false
                 end) tr).

(** The loop of [count_nodes] (preprocess/preprocessor.cpp): the head of
    [visit] is [visit.back()]. *)
Fixpoint count_nodes_loop (fuel : nat) (visit : list Node) (cache : NodeSet)
  : option NodeSet :=
  match fuel with
  | O => None
  | S fuel' =>
      match visit with
      | [] => Some cache
      | cur :: rest =>
          if mem cache cur
          then count_nodes_loop fuel' rest cache
          else count_nodes_loop fuel' (rev (children cur) ++ rest)
                 (cache ++ [cur])
      end
  end.

(** [count_nodes(node, cache)] *)
Definition count_nodes (fuel : nat) (node : Node) (cache : NodeSet)
  : option NodeSet :=
  count_nodes_loop fuel [node] cache.

(** [for (i = 0; i < assertions.size(); ++i) count_nodes(assertions[i], cache);]
    as [Preprocessor::apply] runs it before and after the passes. *)
Fixpoint count_all_nodes (fuel : nat) (assertions : list Node)
    (cache : NodeSet) : option NodeSet :=
  match assertions with
  | [] => Some cache
  | a :: rest =>
      match count_nodes fuel a cache with
      | Some cache' => count_all_nodes fuel rest cache'
      | None => None
      end
  end.

(* ================================================================== *)
(** ** Sorts of functions (api/cpp/bitwuzla.cpp)                       *)
(* ================================================================== *)

(** [Sort::fun_get_domain]: the loop pushes [types[i]] for [i] below
    [types.size() - 1]. *)
Definition Sort_fun_get_domain (d_type : Ty) : outcome (list Ty) :=
  let types := fun_types d_type in
  let* _ := oassert (0 <? List.length types)%nat in
  Ok (map (fun i => nth i types TBool) (seq 0 (List.length types - 1))).

(** [Sort::fun_get_codomain]: [types.back()]. *)
Definition Sort_fun_get_codomain (d_type : Ty) : outcome Ty :=
  let types := fun_types d_type in
  let* _ := oassert (0 <? List.length types)%nat in
  Ok (List.last types TBool).

(* ================================================================== *)
(** ** The term handles of the C API (api/c/bitwuzla.cpp)              *)
(* ================================================================== *)

Module CApi.

(** [bitwuzla::Term]: a node, or null. *)
Record Term : Type := { d_node : option Node }.

(** [Term::is_null] *)
Definition is_null (t : Term) : bool :=
  match d_node t with
  | None => true
  | Some _ => false
  end.

(** [Bitwuzla::TermMap]: from the id of a term to a copy of the term and
    the number of references handed out, a [uint64_t]. *)
Abbreviation TermMap := (gmap Z (Term * Z)).

Section Handles.

(** [Term::id] *)
Variable Term_id : Term -> Z.

(** [export_term]: the map afterwards and the id returned. *)
Definition export_term (term_map : TermMap) (term : Term)
  : outcome (TermMap * Z) :=
  let* _ := oassert (negb (is_null term)) in
  let term_id := Term_id term in
  match term_map !! term_id with
  | None => Ok (<[term_id := (term, 1)]> term_map, term_id)
  | Some (t, count) =>
      Ok (<[term_id := (t, (count + 1) mod 2 ^ 64)]> term_map, term_id)
  end.

(** [import_term]: [term_map().at(term_id).first]; [None] when [at]
    throws [std::out_of_range]. *)
Definition import_term (term_map : TermMap) (term_id : Z) : option Term :=
  match term_map !! term_id with
  | Some (t, _) => Some t
  | None => None
  end.

(** The number of references handed out for an id. *)
Definition references (term_map : TermMap) (term_id : Z) : Z :=
  match term_map !! term_id with
  | Some (_, count) => count
  | None => 0
  end.

(** [for (auto &term : terms) res.push_back(export_term(term));], the
    loop by which [bitwuzla_term_get_children],
    [bitwuzla_get_unsat_assumptions] and [bitwuzla_get_unsat_core] hand
    out terms: the map afterwards and the ids collected. *)
Fixpoint export_terms (term_map : TermMap) (terms : list Term)
  : outcome (TermMap * list Z) :=
  match terms with
  | [] => Ok (term_map, [])
  | term :: rest =>
      let* exported := export_term term_map term in
      let* others := export_terms (fst exported) rest in
      Ok (fst others, snd exported :: snd others)
  end.

(** Every term in the map is kept under its own id and is not null. *)
Definition consistent (term_map : TermMap) : Prop :=
  forall id t count,
    term_map !! id = Some (t, count) ->
    Term_id t = id /\ is_null t = false.

End Handles.

End CApi.

(* ================================================================== *)
(** ** Wrapping the help text (main/main.cpp)                          *)
(* ================================================================== *)

Module Help.

(** The words that [while (std::getline(iss, w, ' '))] reads: the pieces
    between the spaces, the empty ones included, but for an empty last
    piece, at which [getline] extracts nothing and fails. [w] holds the
    characters of the piece being read. *)
Fixpoint getline_from (text : string) (w : string) : list string :=
  match text with
  | EmptyString => if String.eqb w "" then [] else [w]
  | String c rest =>
      if Ascii.eqb c " "
      then w :: getline_from rest ""
      else getline_from rest (w ++ String c "")%string
  end.

Definition getline_words (text : string) : list string :=
  getline_from text "".

(** [std::setw(n) << " "]: a space, filled up to the width [n]. *)
Definition setw_space (n : nat) : string :=
  string_of_list_ascii (repeat " "%char (Nat.max n 1)).

(** What is written at a line break:
    ["\n  " << std::setw(already_used_width) << " "]. *)
Definition line_break (already_used_width : nat) : string :=
  (String "010"%char "  " ++ setw_space already_used_width)%string.

(** The loop of [wrap]; the lengths are [size_t]. *)
Fixpoint wrap_loop (width : Z) (already_used_width : nat)
    (words : list string) (line_len : Z) (wrapped : string)
  : outcome string :=
  match words with
  | [] => Ok wrapped
  | w :: rest =>
      let* _ := oassert (Main.size w <? width) in
      let broken := width <=? (line_len + Main.size w) mod Main.size_max in
      let wrapped :=
        if broken then (wrapped ++ line_break already_used_width)%string
        else wrapped in
      let line_len := if broken then 0 else line_len in
      wrap_loop width already_used_width rest
        ((line_len + Main.size w) mod Main.size_max)
        (wrapped ++ w ++ " ")%string
  end.

(** [wrap(text, already_used_width)] *)
Definition wrap (text : string) (already_used_width : nat)
  : outcome string :=
  wrap_loop ((80 - Z.of_nat already_used_width) mod Main.size_max)
    already_used_width (getline_words text) 0 "".

(** The words of a line, each followed by a space. *)
Fixpoint render_line (line : list string) : string :=
  match line with
  | [] => ""%string
  | w :: rest => (w ++ " " ++ render_line rest)%string
  end.

(** The lines after the first, each after a line break. *)
Fixpoint render_lines (already_used_width : nat)
    (lines : list (list string)) : string :=
  match lines with
  | [] => ""%string
  | l :: rest =>
      (line_break already_used_width ++ render_line l
       ++ render_lines already_used_width rest)%string
  end.

(** The sum of the sizes of the words of a line. *)
Fixpoint total_size (line : list string) : Z :=
  match line with
  | [] => 0
  | w :: rest => Main.size w + total_size rest
  end.

End Help.

(** The loop of [SolvingContext::compute_formula_statistics]; [stat]
    lists the kinds streamed into the histogram, [stat << cur.kind()]. *)
Fixpoint formula_statistics_loop (fuel : nat) (visit : list Node)
    (cache : NodeSet) (stat : list Kind.t)
  : option (NodeSet * list Kind.t) :=
  match fuel with
  | O => None
  | S fuel' =>
      match visit with
      | [] => Some (cache, stat)
      | cur :: rest =>
          if mem cache cur
          then formula_statistics_loop fuel' rest cache stat
          else formula_statistics_loop fuel' (rev (children cur) ++ rest)
                 (cache ++ [cur]) (stat ++ [kind cur])
      end
  end.

(** [SolvingContext::compute_formula_statistics]: every assertion is
    pushed on [visit] before the loop starts, the last one on top. *)
Definition compute_formula_statistics (fuel : nat)
    (d_assertions : list Node) (stat : list Kind.t) : option (list Kind.t) :=
  option_map snd (formula_statistics_loop fuel (rev d_assertions) [] stat).

(* ================================================================== *)
(** ** Elimination of lambdas (preprocess/pass/elim_lambda.cpp)        *)
(* ================================================================== *)

Module ElimLambda.

(** A cache of the pass: a node is mapped to a node, or to the null node
    [Node()], here [None], while it is being visited. *)
Abbreviation Cache := (NodeMap (option Node)).

Section Pass.

(** [utils::rebuild_node(cur, children)] and
    [utils::rebuild_node(cur, cache)]; node/node_utils is not among the
    sources. *)
Variable rebuild_node : Node -> list (option Node) -> Node.
Variable rebuild_node_cache : Node -> Cache -> Node.

(** [cur.kind() == Kind::APPLY && cur[0].kind() == Kind::LAMBDA] *)
Definition is_lambda_apply (cur : Node) : outcome bool :=
  if Kind.eqb (kind cur) Kind.APPLY
  then let* fn := child cur 0 in Ok (Kind.eqb (kind fn) Kind.LAMBDA)
  else Ok false.

(** [map.find(key) != map.end()] *)
Definition has_key (cache : Cache) (key : Node) : bool :=
  match find_node cache key with
  | Some _ => true
  | None => false
  end.

(** [map.at(key)]: when the key is missing it throws an exception that
    the pass does not catch. *)
Definition cache_at (cache : Cache) (key : Node) : outcome (option Node) :=
  match find_node cache key with
  | Some v => Ok v
  | None => Abort
  end.

(** The first loop of [reduce]: the variables of the nested lambdas are
    paired with the processed arguments; [emplace] keeps the first pair
    of a variable. *)
Fixpoint bind_arguments (d_cache : Cache) (args : list Node) (body : Node)
    (substitutions : Cache) : outcome (Node * Cache) :=
  match args with
  | [] => Ok (body, substitutions)
  | arg :: rest =>
      let* var := child body 0 in
      let* value := cache_at d_cache arg in
      let substitutions :=
        match find_node substitutions var with
        | Some _ => substitutions
        | None => set_node substitutions var value
        end in
      let* body := child body 1 in
      bind_arguments d_cache rest body substitutions
  end.

(** The second loop of [reduce], over the body. *)
Fixpoint reduce_loop (fuel : nat) (d_cache substitutions : Cache)
    (visit : list Node) (cache : Cache) : outcome Cache :=
  match fuel with
  | O => OutOfFuel
  | S fuel' =>
      match visit with
      | [] => Ok cache
      | cur :: rest =>
          match find_node cache cur with
          | None =>
              let cache := set_node cache cur None in
              let* redex := is_lambda_apply cur in
              if redex
              then
                let* _ := oassert (has_key d_cache cur) in
                let* reduced := cache_at d_cache cur in
                match reduced with
                | Some r =>
                    reduce_loop fuel' d_cache substitutions (r :: visit) cache
                | None => Abort
                end
              else reduce_loop fuel' d_cache substitutions
                     (rev (children cur) ++ visit) cache
          | Some None =>
              let* redex := is_lambda_apply cur in
              let* value :=
                if redex
                then
                  let* _ := oassert (has_key d_cache cur) in
                  let* reduced := cache_at d_cache cur in
                  match reduced with
                  | Some r => cache_at cache r
                  | None => Abort
                  end
                else
                  match find_node substitutions cur with
                  | Some v =>
                      let* _ :=
                        oassert (Kind.eqb (kind cur) Kind.VARIABLE) in
                      Ok v
                  | None => Ok (Some (rebuild_node_cache cur cache))
                  end in
              reduce_loop fuel' d_cache substitutions rest
                (set_node cache cur value)
          | Some (Some _) =>
              reduce_loop fuel' d_cache substitutions rest cache
          end
      end
  end.

(** [PassElimLambda::reduce] *)
Definition reduce (fuel : nat) (d_cache : Cache) (node : Node)
  : outcome (option Node) :=
  let* _ := oassert (Kind.eqb (kind node) Kind.APPLY) in
  let* fn := child node 0 in
  let* _ := oassert (Kind.eqb (kind fn) Kind.LAMBDA) in
  let* bound := bind_arguments d_cache (tl (children node)) fn [] in
  let body := fst bound in
  let substitutions := snd bound in
  let* _ := oassert (negb (Kind.eqb (kind body) Kind.LAMBDA)) in
  let* cache := reduce_loop fuel d_cache substitutions [body] [] in
  cache_at cache body.

(** The processed children of a node: [d_cache.find(child)], asserted to
    be found. *)
Fixpoint child_values (d_cache : Cache) (cs : list Node)
  : outcome (list (option Node)) :=
  match cs with
  | [] => Ok []
  | c :: rest =>
      match find_node d_cache c with
      | Some v =>
          let* vs := child_values d_cache rest in
          Ok (v :: vs)
      | None => AssertFail
      end
  end.

(** The loop of [PassElimLambda::process]; [num_elim] is
    [d_stats.num_elim], a [uint64_t]. *)
Fixpoint process_loop (fuel : nat) (visit : list Node) (d_cache : Cache)
    (num_elim : Z) : outcome (Cache * Z) :=
  match fuel with
  | O => OutOfFuel
  | S fuel' =>
      match visit with
      | [] => Ok (d_cache, num_elim)
      | cur :: rest =>
          match find_node d_cache cur with
          | None =>
              process_loop fuel' (rev (children cur) ++ visit)
                (set_node d_cache cur None) num_elim
          | Some None =>
              let* values := child_values d_cache (children cur) in
              let* redex := is_lambda_apply cur in
              if redex
              then
                let num_elim := (num_elim + 1) mod 2 ^ 64 in
                let* r := reduce fuel' d_cache cur in
                process_loop fuel' rest (set_node d_cache cur r) num_elim
              else
                process_loop fuel' rest
                  (set_node d_cache cur (Some (rebuild_node cur values)))
                  num_elim
          | Some (Some _) => process_loop fuel' rest d_cache num_elim
          end
      end
  end.

(** [PassElimLambda::process]: the node returned, the cache and the
    counter afterwards. *)
Definition process (fuel : nat) (d_cache : Cache) (num_elim : Z)
    (term : Node) : outcome (option Node * Cache * Z) :=
  let* st := process_loop fuel [term] d_cache num_elim in
  let* r := cache_at (fst st) term in
  Ok (r, fst st, snd st).

End Pass.

(** No subterm of [n] is a lambda applied to arguments. *)
Definition no_lambda_apply (n : Node) : Prop :=
  forall m, subterm m n -> is_lambda_apply m = Ok false.

(** A cache that maps the subterms of [n] it holds to themselves. *)
Definition unchanged_below (d_cache : Cache) (n : Node) : Prop :=
  forall m, subterm m n ->
            find_node d_cache m = None \/ find_node d_cache m = Some (Some m).

(** What the loop of [process] does with nodes [l] on top of its stack
    that hold no applied lambda: they are popped after at most [bound]
    iterations, each mapped to itself, and nothing else changes in the
    cache but subterms of theirs being mapped to themselves. *)
Definition process_visits
    (rebuild_node : Node -> list (option Node) -> Node)
    (rebuild_node_cache : Node -> Cache -> Node)
    (l : list Node) (bound : nat) : Prop :=
  forall d_cache num_elim rest,
    (forall c, In c l -> no_lambda_apply c /\ unchanged_below d_cache c) ->
    exists steps d_cache',
      (steps <= bound)%nat
      /\ (forall fuel,
            process_loop rebuild_node rebuild_node_cache (steps + fuel)
              (l ++ rest) d_cache num_elim
            = process_loop rebuild_node rebuild_node_cache fuel rest
                d_cache' num_elim)
      /\ (forall c, In c l -> find_node d_cache' c = Some (Some c))
      /\ (forall m,
            find_node d_cache' m = find_node d_cache m
            \/ ((exists c, In c l /\ subterm m c)
                /\ find_node d_cache' m = Some (Some m))).

(** The image of a node under a cache: the node it is mapped to, the node
    itself when the cache has none for it. *)
Definition cache_image (cache : Cache) (c : Node) : Node :=
  match find_node cache c with
  | Some (Some r) => r
  | _ => c
  end.

(** The term [n] with the nodes that [substitutions] maps replaced by
    their images. *)
Fixpoint substitute (substitutions : Cache) (n : Node) : Node :=
  match n with
  | Nd k p cs =>
      match find_node substitutions n with
      | Some (Some r) => r
      | _ => Nd k p (map (substitute substitutions) cs)
      end
  end.

(** Only variables are substituted, and by nodes that are not null. *)
Definition substitutes_variables (substitutions : Cache) : Prop :=
  forall m v,
    find_node substitutions m = Some v ->
    kind m = Kind.VARIABLE /\ v <> None.

(** A cache of [reduce] that maps the subterms of [n] it holds to their
    substituted form. *)
Definition substituted_below (substitutions cache : Cache) (n : Node)
  : Prop :=
  forall m, subterm m n ->
            find_node cache m = None
            \/ find_node cache m = Some (Some (substitute substitutions m)).

(** What the second loop of [reduce] does with nodes [l] on top of its
    stack that hold no applied lambda. *)
Definition reduce_visits
    (rebuild_node_cache : Node -> Cache -> Node)
    (d_cache substitutions : Cache) (l : list Node) (bound : nat) : Prop :=
  forall cache rest,
    (forall c, In c l ->
               no_lambda_apply c
               /\ substituted_below substitutions cache c) ->
    exists steps cache',
      (steps <= bound)%nat
      /\ (forall fuel,
            reduce_loop rebuild_node_cache (steps + fuel) d_cache
              substitutions (l ++ rest) cache
            = reduce_loop rebuild_node_cache fuel d_cache substitutions
                rest cache')
      /\ (forall c, In c l ->
                    find_node cache' c
                    = Some (Some (substitute substitutions c)))
      /\ (forall m,
            find_node cache' m = find_node cache m
            \/ ((exists c, In c l /\ subterm m c)
                /\ find_node cache' m
                   = Some (Some (substitute substitutions m)))).

End ElimLambda.

(* ================================================================== *)
(** ** Sample terms and collaborators used in the examples             *)
(* ================================================================== *)

Module Sample.

(** A Boolean constant [p], the value [true], a bit-vector variable [x]
    and a bit-vector constant [c]. *)
Definition p : Node := Nd Kind.CONSTANT 1 [].
Definition q : Node := Nd Kind.CONSTANT 2 [].
Definition mk_true : Node := Nd Kind.VALUE 1 [].
Definition x : Node := Nd Kind.VARIABLE 3 [].
Definition c : Node := Nd Kind.CONSTANT 4 [].
Definition not_not_p : Node := mk_node Kind.NOT [mk_node Kind.NOT [p]].

(** [x = c], which has the free variable [x], and the closed formula
    [exists x. x = c]. *)
Definition eq_x_c : Node := mk_node Kind.EQUAL [x; c].
Definition exists_x : Node := mk_node Kind.EXISTS [x; eq_x_c].

(** An uninterpreted function [fn] over bit-vectors of width 8, three
    argument constants and the applications of [fn] to them. *)
Definition fn : Node := Nd Kind.CONSTANT 20 [].
Definition arg_a : Node := Nd Kind.CONSTANT 10 [].
Definition arg_b : Node := Nd Kind.CONSTANT 11 [].
Definition arg_d : Node := Nd Kind.CONSTANT 12 [].
Definition app_a : Node := mk_node Kind.APPLY [fn; arg_a].
Definition app_b : Node := mk_node Kind.APPLY [fn; arg_b].
Definition app_d : Node := mk_node Kind.APPLY [fn; arg_d].

(** The bit-vector value [n]. *)
Definition bv (n : N) : Node := Nd Kind.VALUE n [].

(** A model in which the three arguments all have the value 0, while
    [fn arg_a] and [fn arg_d] have the value 1 and [fn arg_b] has the
    value 2. *)
Definition state_value (n : Node) : Node :=
  match n with
  | Nd Kind.APPLY _ [_; Nd _ 11%N _] => bv 2
  | Nd Kind.APPLY _ _ => bv 1
  | _ => bv 0
  end.

Definition hash_node (n : Node) : Z := Z.of_N (payload n).

(** Node utilities: an n-ary operator as a left-nested chain of binary
    ones, a binder over several variables as nested binders, variables
    numbered from 100, and the value 0 as the default value. *)
Definition mk_nary (k : Kind.t) (terms : list Node) : Node :=
  match terms with
  | [] => mk_node k []
  | t :: rest => fold_left (fun acc u => mk_node k [acc; u]) rest t
  end.

Fixpoint mk_binder (k : Kind.t) (terms : list Node) : Node :=
  match terms with
  | [] => mk_node k []
  | [body] => body
  | v :: rest => mk_node k [v; mk_binder k rest]
  end.

Definition mk_var (k : nat) (t : Ty) : Node :=
  Nd Kind.VARIABLE (100 + N.of_nat k) [].

Definition mk_default_value (t : Ty) : Node := bv 0.

Definition type_of (n : Node) : Ty :=
  if Node_eqb n fn then TFun [TBV 8; TBV 8] else TBV 8.

(** The function solver with the three applications registered. *)
Definition fun_solver : FunSolver.State :=
  {| FunSolver.d_applies := [app_a; app_b; app_d];
     FunSolver.d_fun_models := [];
     FunSolver.lemmas := [] |}.

(** The function solver with two applications registered; the third is
    registered while the first is examined. *)
Definition fun_solver_two : FunSolver.State :=
  {| FunSolver.d_applies := [app_a; app_b];
     FunSolver.d_fun_models := [];
     FunSolver.lemmas := [] |}.

(** Passes: rewriting removes a double negation at the top of an
    assertion, the other passes leave the assertions as they are. *)
Definition strip (n : Node) : Node :=
  match n with
  | Nd Kind.NOT _ [Nd Kind.NOT _ [m]] => m
  | _ => n
  end.

Definition pass_apply (p : Preprocess.PassId) (ps : unit)
    (av : Preprocess.AssertionVector) : unit * Preprocess.AssertionVector :=
  match p with
  | Preprocess.REWRITE =>
      let changed :=
        List.filter (fun n => negb (Node_eqb n (strip n)))
          (Preprocess.av_nodes av) in
      (tt, {| Preprocess.av_nodes := map strip (Preprocess.av_nodes av);
              Preprocess.d_level := Preprocess.d_level av;
              Preprocess.d_modified :=
                Preprocess.d_modified av + List.length changed |})
  | _ => (tt, av)
  end.

Definition preprocessor : Preprocess.Preprocessor unit :=
  {| Preprocess.d_passes := tt;
     Preprocess.d_num_levels := 0;
     Preprocess.num_iterations := 0 |}.

(** Options with only the skeleton pass switched on. *)
Definition skeleton_on : Opt.Options :=
  Opt.set Opt.PP_SKELETON_PREPROC (Opt.OBool true) Opt.all_off.

(** A view with one pending assertion at level 0 and one at level 1. *)
Definition two_levels : Preprocess.AssertionView :=
  {| Preprocess.view_stack := [(p, 0%nat); (q, 1%nat)];
     Preprocess.view_index := 0 |}.

(** A view with the single pending assertion [not (not p)]. *)
Definition one_assertion : Preprocess.AssertionView :=
  {| Preprocess.view_stack := [(not_not_p, 0%nat)];
     Preprocess.view_index := 0 |}.

(** A terminator that asks for termination at every call. *)
Definition always_terminate : Terminator := fun _ => true.

(** Sorts of the sample terms. *)
Definition is_bool (n : Node) : bool :=
  match kind n with
  | Kind.VARIABLE => false
  | Kind.CONSTANT => negb (N.eqb (payload n) 4)
  | _ => true
  end.

(** A solver engine without state that answers UNKNOWN. *)
Definition engine_solve (e : unit) : unit * Result := (tt, UNKNOWN).

(** The heap of a client that holds one options object, at location 1,
    with every option off. *)
Definition options_object : Api.Options := {| Api.d_options := 1%positive |}.
Definition heap : Api.Heap := {[ 1%positive := Opt.all_off ]}.
Definition world : Api.World unit unit :=
  {| Api.heap := heap; Api.instances := ∅ |}.

(** A solver engine made of the function solver alone: its state is the
    state of the function solver, and its value of a term is the value
    the function solver gives. *)
Definition fun_value (st : FunSolver.State) (term : Node) : outcome Node :=
  FunSolver.value mk_nary type_of mk_var mk_default_value mk_binder st term.

Definition fun_engine_value (st : FunSolver.State) (term : Node)
  : Node + Node :=
  match fun_value st term with
  | Ok v => inl v
  | _ => inr term
  end.

(** The function solver after its check of the three applications. *)
Definition fun_solver_checked : FunSolver.State :=
  match FunSolver.check state_value hash_node mk_nary fun_solver [] with
  | Ok st => st
  | _ => fun_solver
  end.

(** A solving context whose last [solve] answered SAT and whose engine is
    the checked function solver; preprocessing a term leaves it as it
    is. *)
Definition pp_process (ps : unit) (term : Node) : Node := term.

Definition context_sat : Context.SolvingContext unit FunSolver.State :=
  {| Context.d_env := Env_new Opt.all_off;
     Context.d_levels := 0;
     Context.d_assertions := {| Preprocess.view_stack := [];
                                Preprocess.view_index := 0 |};
     Context.d_original_assertions := [];
     Context.d_preprocessor := preprocessor;
     Context.d_solver_engine := fun_solver_checked;
     Context.d_sat_state := SAT |}.

(** A context over the original assertions [originals], all at level 0,
    whose engine is the list of the terms it has been given. *)
Definition context_of (originals : list Node)
  : Context.SolvingContext unit (list Node) :=
  {| Context.d_env := Env_new Opt.all_off;
     Context.d_levels := 0;
     Context.d_assertions :=
       {| Preprocess.view_stack := map (fun a => (a, 0%nat)) originals;
          Preprocess.view_index := 0 |};
     Context.d_original_assertions := map (fun a => (a, 0%nat)) originals;
     Context.d_preprocessor := preprocessor;
     Context.d_solver_engine := [];
     Context.d_sat_state := UNKNOWN |}.

Definition engine_add (e : list Node) (term : Node) : list Node :=
  e ++ [term].
Definition engine_add_all (e : list Node) (terms : list Node) : list Node :=
  e ++ terms.
Definition engine_sat (e : list Node) : list Node * Result := (e, SAT).

(** Rebuilding a node over the given children, null nodes left out. *)
Definition rebuild_node (n : Node) (values : list (option Node)) : Node :=
  Nd (kind n) (payload n)
     (fold_right (fun v acc => match v with
                               | Some c => c :: acc
                               | None => acc
                               end) [] values).

(** Rebuilding a node from a cache: the node over the images of its
    children. *)
Definition rebuild_node_cache (n : Node) (cache : ElimLambda.Cache) : Node :=
  Nd (kind n) (payload n) (map (ElimLambda.cache_image cache) (children n)).

(** The lambda [fun x => x = c] and its application to [arg_a]. *)
Definition lambda_x : Node := mk_node Kind.LAMBDA [x; eq_x_c].
Definition beta_redex : Node := mk_node Kind.APPLY [lambda_x; arg_a].

(** A solver instance built from options in which every option is off
    (in particular [incremental]). *)
Definition bitwuzla_off : Api.Bitwuzla unit unit :=
  {| Api.d_ctx := Context.SolvingContext_new Opt.all_off tt tt |}.

End Sample.

(* ================================================================== *)
(** * Theorems                                                         *)
(* ================================================================== *)

(** C10. The Kissat back end answers [add], [value], [solve] and
    [set_terminate] for every solver state and literal, while [assume],
    [failed] and [fixed] end in a failed assertion for every literal:
    assumptions cannot be used with this back end. *)
Theorem kissat_no_assumptions :
  forall (kissat : Type) (kissat_add : kissat -> Z -> kissat)
         (kissat_value : kissat -> Z -> Z)
         (kissat_solve : kissat -> kissat * Z)
         (kissat_set_terminate : kissat -> (unit -> Z) -> kissat)
         (kissat_version : string) (s : kissat) (lit : Z),
    Kissat.assume kissat s lit = AssertFail
    /\ Kissat.failed kissat s lit = AssertFail
    /\ Kissat.fixed kissat s lit = AssertFail
    /\ Kissat.add kissat kissat_add s lit = Ok (kissat_add s lit)
    /\ (exists v, Kissat.value kissat kissat_value s lit = Ok v
                  /\ (v = 1 \/ v = -1 \/ v = 0))
    /\ (exists r, Kissat.solve kissat kissat_solve s = Ok r)
    /\ (forall fn, Kissat.set_terminate kissat kissat_set_terminate s fn
                   = Ok (kissat_set_terminate s fn))
    /\ Kissat.get_version kissat kissat_version s = Ok kissat_version.
Proof.
  intros. repeat split; try reflexivity.
  - unfold Kissat.value.
    destruct (0 <? kissat_value s lit); [eauto|].
    destruct (kissat_value s lit <? 0); eauto 6.
  - unfold Kissat.solve. destruct (kissat_solve s) as [s' res].
    destruct (res =? 10); [eauto|]. destruct (res =? 20); eauto.
Qed.

(* ------------------------------------------------------------------ *)
(** ** The command line front end                                      *)
(* ------------------------------------------------------------------ *)

Lemma scan_args_status :
  forall argv args filename out status,
    Main.scan_args argv args filename = inl (out, status) ->
    status = Main.EXIT_SUCCESS.
Proof.
  induction argv as [|arg rest IH]; intros args filename out status H;
    simpl in H; [discriminate|].
  repeat match type of H with
         | (if ?c then _ else _) = _ => destruct c
         end; try (inversion H; reflexivity); eauto.
Qed.

(** C8 (as stated, refuted). An input whose single check-sat answers SAT
    and that parses without error makes [main] exit with status 0, not
    10; likewise 0, not 20, for an UNSAT input. *)
Lemma main_sat_exits_zero :
  Main.answers (Main.parse_answer SAT [] "sat.smt2"%string) = [SAT]
  /\ Main.exit_status Main.accept_all (Main.parse_answer SAT)
       ["bitwuzla"; "sat.smt2"]%string = Main.Exit 0
  /\ Main.exit_status Main.accept_all (Main.parse_answer SAT)
       ["bitwuzla"; "sat.smt2"]%string <> Main.Exit 10
  /\ Main.exit_status Main.accept_all (Main.parse_answer UNSAT)
       ["bitwuzla"; "unsat.smt2"]%string <> Main.Exit 20.
Proof.
  repeat split; try (vm_compute; reflexivity); vm_compute; discriminate.
Qed.

(** C8 (amended). Whatever the answers of the check-sat commands, [main]
    exits with status 0 or 1 or dies from an uncaught exception; the
    status is 0 exactly when a help, copyright or version flag was met
    first or when the options were accepted and parsing returned the
    empty message; it is never 10 or 20. In particular the status does
    not depend on the answers that parsing produced. *)
Theorem main_exit_status :
  forall (options_set : list string -> option string)
         (parse parse' : list string -> string -> Main.ParseOutcome)
         (argv : list string),
    (Main.exit_status options_set parse argv = Main.Exit 0
     \/ Main.exit_status options_set parse argv = Main.Exit 1
     \/ Main.exit_status options_set parse argv = Main.Uncaught)
    /\ (Main.exit_status options_set parse argv = Main.Exit 0 <->
        (exists out, Main.scan_args (tl argv) [] "" = inl (out, 0))
        \/ (exists args filename,
               Main.scan_args (tl argv) [] "" = inr (args, filename)
               /\ options_set args = None
               /\ Main.err_msg (parse args filename) = ""%string))
    /\ ((forall a f, Main.err_msg (parse a f) = Main.err_msg (parse' a f)) ->
        Main.exit_status options_set parse argv
        = Main.exit_status options_set parse' argv).
Proof.
  intros os parse parse' argv.
  unfold Main.exit_status, Main.main.
  destruct (Main.scan_args (tl argv) [] "") as [[out status]|[args filename]] eqn:Hs.
  - apply scan_args_status in Hs as Hst. subst status.
    unfold Main.EXIT_SUCCESS. simpl.
    repeat split; eauto.
  - destruct (os args) as [msg|] eqn:Hos.
    + destruct (Main.substr msg _); simpl; unfold Main.EXIT_FAILURE.
      * repeat split; eauto.
        -- intros H; discriminate.
        -- intros [[out H]|(a & f & H & Hn & _)]; [discriminate|].
           inversion H; subst. congruence.
      * repeat split; eauto.
        -- intros H; discriminate.
        -- intros [[out H]|(a & f & H & Hn & _)]; [discriminate|].
           inversion H; subst. congruence.
    + destruct (String.eqb (Main.err_msg (parse args filename)) "") eqn:He;
        simpl; unfold Main.EXIT_SUCCESS, Main.EXIT_FAILURE.
      * apply String.eqb_eq in He.
        repeat split; eauto.
        -- intros _. right. exists args, filename. auto.
        -- intros Hp. rewrite <- Hp, He. reflexivity.
      * apply String.eqb_neq in He.
        repeat split; eauto.
        -- intros H; discriminate.
        -- intros [[out H]|(a & f & H & _ & Hn)]; [discriminate|].
           inversion H; subst. contradiction.
        -- intros Hp. rewrite <- Hp.
           apply String.eqb_neq in He. rewrite He. reflexivity.
Qed.

(* ------------------------------------------------------------------ *)
(** ** Node identity                                                   *)
(* ------------------------------------------------------------------ *)

Lemma Kind_tag_inj : forall a b, Kind.tag a = Kind.tag b -> a = b.
Proof.
  intros a b H.
  destruct a; simpl in H;
    (destruct b; simpl in H; first [reflexivity | discriminate H]).
Qed.

Lemma Kind_eqb_eq : forall a b, Kind.eqb a b = true <-> a = b.
Proof.
  intros a b. unfold Kind.eqb. rewrite Pos.eqb_eq. split.
  - apply Kind_tag_inj.
  - intros ->. reflexivity.
Qed.

Lemma Node_eqb_nodes_eqb :
  forall ka pa ca kb pb cb,
    Node_eqb (Nd ka pa ca) (Nd kb pb cb)
    = Kind.eqb ka kb && N.eqb pa pb && nodes_eqb ca cb.
Proof. reflexivity. Qed.

Lemma Node_induction (P : Node -> Prop) :
  (forall k p cs, Forall P cs -> P (Nd k p cs)) -> forall n, P n.
Proof.
  intros H. fix IH 1. intros [k p cs]. apply H.
  induction cs as [|c cs IHcs]; constructor; [apply IH | exact IHcs].
Qed.

Lemma nodes_eqb_eq :
  forall l1,
    Forall (fun a => forall b, Node_eqb a b = true <-> a = b) l1 ->
    forall l2, nodes_eqb l1 l2 = true <-> l1 = l2.
Proof.
  induction 1 as [|x xs Hx _ IH]; intros [|y ys]; simpl;
    try (split; [discriminate|discriminate]); [tauto|].
  rewrite andb_true_iff, Hx, IH. split.
  - intros [-> ->]. reflexivity.
  - intros H. inversion H. auto.
Qed.

Lemma Node_eqb_eq : forall a b, Node_eqb a b = true <-> a = b.
Proof.
  induction a as [ka pa ca IH] using Node_induction. intros [kb pb cb].
  rewrite Node_eqb_nodes_eqb, !andb_true_iff, Kind_eqb_eq, N.eqb_eq,
    (nodes_eqb_eq ca IH cb).
  split.
  - intros [[-> ->] ->]. reflexivity.
  - intros H. inversion H. auto.
Qed.

Lemma Node_eqb_refl : forall a, Node_eqb a a = true.
Proof. intros a. apply Node_eqb_eq. reflexivity. Qed.

Lemma Node_eqb_neq : forall a b, Node_eqb a b = false <-> a <> b.
Proof.
  intros a b. rewrite <- Node_eqb_eq. destruct (Node_eqb a b); split;
    congruence.
Qed.

(* ------------------------------------------------------------------ *)
(** ** The preprocessing loop                                          *)
(* ------------------------------------------------------------------ *)

Section PreprocessorFacts.

Context {PassState : Type}.
Variable pass_apply :
  Preprocess.PassId -> PassState -> Preprocess.AssertionVector ->
  PassState * Preprocess.AssertionVector.

Import Preprocess.

Lemma run_trace :
  forall en p (st : LoopState PassState),
    snd (run pass_apply en p st)
    = snd st ++ (if en then [Apply p] else []).
Proof.
  intros en p [[ps av] tr]. unfold run. destruct en; simpl.
  - destruct (pass_apply p ps av). reflexivity.
  - rewrite app_nil_r. reflexivity.
Qed.

Lemma iteration_events :
  forall options sd ps av,
    snd (fst (iteration pass_apply options sd ps av))
    = round_events options (negb sd)
    /\ snd (iteration pass_apply options sd ps av)
       = (Opt.pp_skeleton_preproc options && negb sd || sd)%bool.
Proof.
  intros options sd ps av. unfold iteration. cbv zeta. cbn [fst snd].
  split; [|reflexivity].
  rewrite !run_trace. cbn [snd].
  unfold round_events, pass_order, enabled. cbn [List.filter].
  destruct (Opt.pp_flatten_and options), (Opt.pp_variable_subst options),
    (Opt.pp_skeleton_preproc options), sd,
    (Opt.pp_embedded_constr options), (Opt.pp_contr_ands options),
    (Opt.pp_normalize options); reflexivity.
Qed.

Lemma round_events_later :
  forall options sd,
    Opt.pp_skeleton_preproc options = false \/ sd = true ->
    round_events options (negb sd) = round_events options false.
Proof.
  intros options sd [H| ->]; [|reflexivity].
  unfold round_events, pass_order, enabled. simpl List.filter.
  rewrite H. reflexivity.
Qed.

Lemma rounds_events_later :
  forall options k sd,
    Opt.pp_skeleton_preproc options = false \/ sd = true ->
    rounds_events options sd k
    = concat (repeat (round_events options false) k).
Proof.
  intros options k. induction k as [|k IH]; intros sd H; [reflexivity|].
  cbn [rounds_events repeat concat].
  rewrite round_events_later by exact H. f_equal.
  apply IH. destruct H as [H| ->].
  - left. exact H.
  - right. apply orb_true_r.
Qed.

Lemma rounds_events_first :
  forall options k,
    rounds_events options false k = loop_events options k.
Proof.
  intros options [|k]; [reflexivity|].
  cbn [rounds_events loop_events negb]. f_equal. apply rounds_events_later.
  destruct (Opt.pp_skeleton_preproc options); auto.
Qed.

Lemma fixed_point_shape :
  forall fuel options sd ps av iters ps' av' tr n fin,
    fixed_point pass_apply fuel options sd ps av iters
    = ((ps', av', tr), n, fin) ->
    exists k : nat,
      (k <= fuel)%nat /\ n = (iters + k)%nat
      /\ tr = rounds_events options sd k
      /\ av' = after_rounds pass_apply k options sd ps av
      /\ (forall j : nat, (0 < j < k)%nat ->
            modified (after_rounds pass_apply j options sd ps av) = true)
      /\ (fin = true -> (0 < k)%nat /\ modified av' = false)
      /\ (fin = false -> k = fuel).
Proof.
  induction fuel as [|fuel IH];
    intros options sd ps av iters ps' av' tr n fin Hfp.
  - simpl in Hfp. inversion Hfp; subst. exists 0%nat.
    repeat split; try lia; try reflexivity; try discriminate.
  - cbn [fixed_point] in Hfp.
    pose proof (iteration_events options sd ps av) as [Htr Hsd].
    destruct (iteration pass_apply options sd ps av)
      as [[[ps1 av1] tr1] sd1] eqn:Hit.
    cbn [fst snd] in Htr, Hsd. subst tr1 sd1.
    destruct (modified av1) eqn:Hmod.
    + destruct (fixed_point pass_apply fuel options _ ps1 av1 (S iters))
        as [[[[ps2 av2] tr2] n2] fin2] eqn:Hrec.
      inversion Hfp; subst; clear Hfp.
      apply IH in Hrec.
      destruct Hrec as (k & Hk & Hn & Ht & Hav & Hj & Hfin & Hnf).
      exists (S k). repeat split.
      * lia.
      * lia.
      * cbn [rounds_events]. rewrite Ht. reflexivity.
      * cbn [after_rounds]. rewrite Hit. exact Hav.
      * intros j Hjk. destruct j as [|j]; [lia|].
        cbn [after_rounds]. rewrite Hit.
        destruct j as [|j]; [exact Hmod|]. apply Hj. lia.
      * lia.
      * apply Hfin; assumption.
      * intros Hf. rewrite (Hnf Hf). reflexivity.
    + inversion Hfp; subst; clear Hfp.
      exists 1%nat. repeat split; try lia.
      * cbn [rounds_events]. rewrite app_nil_r. reflexivity.
      * cbn [after_rounds]. rewrite Hit. reflexivity.
      * exact Hmod.
Qed.

Lemma count_pass_app :
  forall p (a b : list Event),
    count_pass p (a ++ b) = (count_pass p a + count_pass p b)%nat.
Proof.
  intros p a b. unfold count_pass.
  rewrite List.filter_app, List.length_app. reflexivity.
Qed.

Lemma count_skeleton_later :
  forall options k,
    count_pass SKELETON_PREPROC
      (concat (repeat (round_events options false) k)) = 0%nat.
Proof.
  intros options k. induction k as [|k IH]; [reflexivity|].
  cbn [repeat concat]. rewrite count_pass_app, IH.
  unfold round_events, pass_order, enabled, count_pass.
  rewrite andb_false_r. cbn [List.filter].
  destruct (Opt.pp_flatten_and options), (Opt.pp_variable_subst options),
    (Opt.pp_embedded_constr options), (Opt.pp_contr_ands options),
    (Opt.pp_normalize options); reflexivity.
Qed.

Lemma count_skeleton_loop :
  forall options k,
    (count_pass SKELETON_PREPROC (loop_events options k) <= 1)%nat.
Proof.
  intros options [|k]; cbn [loop_events]; [unfold count_pass; simpl; lia|].
  rewrite count_pass_app, count_skeleton_later.
  unfold round_events, pass_order, enabled, count_pass. cbn [List.filter].
  destruct (Opt.pp_flatten_and options), (Opt.pp_variable_subst options),
    (Opt.pp_skeleton_preproc options),
    (Opt.pp_embedded_constr options), (Opt.pp_contr_ands options),
    (Opt.pp_normalize options); simpl; lia.
Qed.

End PreprocessorFacts.

Lemma apply_shape :
  forall {PassState : Type}
         (pass_apply :
            Preprocess.PassId -> PassState -> Preprocess.AssertionVector ->
            PassState * Preprocess.AssertionVector)
         fuel env pp av pp' av' tr fin,
    Preprocess.apply pass_apply fuel env pp av = (pp', av', tr, fin) ->
    exists k : nat,
      (k <= fuel)%nat
      /\ tr = Preprocess.loop_events (env_options env) k
      /\ Preprocess.num_iterations pp'
         = (Preprocess.num_iterations pp + k)%nat
      /\ av' = Preprocess.after_rounds pass_apply k (env_options env) false
                 (Preprocess.d_passes pp) av
      /\ (forall j : nat, (0 < j < k)%nat ->
            Preprocess.modified
              (Preprocess.after_rounds pass_apply j (env_options env) false
                 (Preprocess.d_passes pp) av) = true)
      /\ (fin = true -> (0 < Preprocess.size av)%nat ->
          (0 < k)%nat /\ Preprocess.modified av' = false)
      /\ (fin = false -> k = fuel).
Proof.
  intros PassState pass_apply fuel env pp av pp' av' tr fin H.
  unfold Preprocess.apply in H.
  destruct (Nat.eqb (Preprocess.size av) 0) eqn:Hsz.
  - inversion H; subst; clear H. exists 0%nat.
    apply Nat.eqb_eq in Hsz.
    repeat split; try lia; try reflexivity; try discriminate.
  - destruct (Preprocess.fixed_point pass_apply fuel (env_options env) false
                (Preprocess.d_passes pp) av (Preprocess.num_iterations pp))
      as [[[[ps2 av2] tr2] n2] fin2] eqn:Hfp.
    inversion H; subst; clear H.
    apply fixed_point_shape in Hfp.
    destruct Hfp as (k & Hk & Hn & Ht & Hav & Hj & Hfin & Hnf).
    exists k. rewrite rounds_events_first in Ht.
    repeat split; try assumption.
    + apply Hfin; assumption.
    + apply Hfin; assumption.
Qed.

Lemma process_levels_shape :
  forall {PassState : Type}
         (pass_apply :
            Preprocess.PassId -> PassState -> Preprocess.AssertionVector ->
            PassState * Preprocess.AssertionVector)
         n fuel env pp v pp' v' trs fin,
    Preprocess.process_levels pass_apply n fuel env pp v
    = (pp', v', trs, fin) ->
    Forall (fun lt : nat * list Preprocess.Event =>
              exists k : nat,
                (k <= fuel)%nat
                /\ snd lt = Preprocess.loop_events (env_options env) k)
           trs.
Proof.
  intros PassState pass_apply n.
  induction n as [|n IH]; intros fuel env pp v pp' v' trs fin H.
  - simpl in H. inversion H; subst. constructor.
  - cbn [Preprocess.process_levels] in H.
    destruct (Preprocess.view_empty v).
    { inversion H; subst. constructor. }
    cbv zeta in H.
    destruct (Preprocess.apply pass_apply fuel env _ _)
      as [[[pp1 av1] tr1] fin1] eqn:Hap.
    apply apply_shape in Hap.
    destruct Hap as (k & Hk & Ht & _).
    destruct fin1.
    + destruct (Preprocess.process_levels pass_apply n fuel env pp1 _)
        as [[[pp2 v2] trs2] fin2] eqn:Hrec.
      inversion H; subst; clear H.
      constructor; [exists k; split; [exact Hk|reflexivity]|].
      eapply IH. exact Hrec.
    + inversion H; subst; clear H.
      constructor; [exists k; split; [exact Hk|reflexivity]|constructor].
Qed.

(** C6 (as stated, refuted). With the skeleton pass switched on and
    pending assertions at two levels, one call of [preprocess] returns
    after applying the skeleton pass twice, once for each level. *)
Lemma skeleton_once_per_level_not_per_call :
  let r := Preprocess.preprocess Sample.pass_apply 1
             (Env_new Sample.skeleton_on) 1 Sample.preprocessor
             Sample.two_levels in
  snd r = Some UNKNOWN
  /\ Preprocess.count_pass Preprocess.SKELETON_PREPROC
       (Preprocess.all_events (snd (fst r))) = 2%nat.
Proof. vm_compute. split; reflexivity. Qed.

(** C6 (amended). For every level with pending assertions [preprocess]
    runs the loop of [apply] once. The loop runs in rounds; every round
    first resets the modified flag and then applies, in the order of the
    loop body, each enabled pass exactly once, the skeleton pass being
    enabled only in the first round of the level. The loop goes on as long
    as the round that ended has modified an assertion and stops after the
    first round that has not. The skeleton pass is thus applied at most
    once per level (not per [preprocess] call). *)
Theorem preprocess_loop_rounds :
  forall (PassState : Type)
         (pass_apply :
            Preprocess.PassId -> PassState -> Preprocess.AssertionVector ->
            PassState * Preprocess.AssertionVector)
         fuel env global_levels pp v pp1 v1 trs res av pp' av' tr fin,
    Preprocess.preprocess pass_apply fuel env global_levels pp v
    = (pp1, v1, trs, res) ->
    Preprocess.apply pass_apply fuel env pp av = (pp', av', tr, fin) ->
    (0 < Preprocess.size av)%nat ->
    Forall (fun lt : nat * list Preprocess.Event =>
              exists k : nat,
                (k <= fuel)%nat
                /\ snd lt = Preprocess.loop_events (env_options env) k
                /\ (Preprocess.count_pass Preprocess.SKELETON_PREPROC (snd lt)
                    <= 1)%nat)
           trs
    /\ exists k : nat,
         (k <= fuel)%nat
         /\ tr = Preprocess.loop_events (env_options env) k
         /\ (Preprocess.count_pass Preprocess.SKELETON_PREPROC tr <= 1)%nat
         /\ av' = Preprocess.after_rounds pass_apply k (env_options env)
                    false (Preprocess.d_passes pp) av
         /\ (forall j : nat, (0 < j < k)%nat ->
               Preprocess.modified
                 (Preprocess.after_rounds pass_apply j (env_options env)
                    false (Preprocess.d_passes pp) av) = true)
         /\ (fin = true -> (0 < k)%nat /\ Preprocess.modified av' = false)
         /\ (fin = false -> k = fuel).
Proof.
  intros PassState pass_apply fuel env gl pp v pp1 v1 trs res
    av pp' av' tr fin Hpre Hap Hsz.
  split.
  - assert (Hshape :
      Forall (fun lt : nat * list Preprocess.Event =>
                exists k : nat,
                  (k <= fuel)%nat
                  /\ snd lt = Preprocess.loop_events (env_options env) k)
             trs).
    { unfold Preprocess.preprocess in Hpre.
      destruct (Preprocess.view_empty v).
      { inversion Hpre; subst. constructor. }
      destruct (Preprocess.process_levels pass_apply _ fuel env pp v)
        as [[[pp2 v2] trs2] fin2] eqn:Hpl.
      apply process_levels_shape in Hpl.
      destruct fin2; inversion Hpre; subst; exact Hpl. }
    eapply List.Forall_impl; [|exact Hshape].
    intros [l t] (k & Hk & Ht). exists k. repeat split; try assumption.
    simpl in Ht |- *. rewrite Ht. apply count_skeleton_loop.
  - apply apply_shape in Hap.
    destruct Hap as (k & Hk & Ht & _ & Hav & Hj & Hfin & Hnf).
    exists k. repeat split; try assumption.
    + rewrite Ht. apply count_skeleton_loop.
    + apply Hfin; assumption.
    + apply Hfin; assumption.
Qed.

(** A run with two rounds: the first rewrites [not (not p)] to [p], the
    second changes nothing and ends the loop. *)
Lemma preprocess_loop_rounds_witness :
  let env := Env_new Sample.skeleton_on in
  let av := Preprocess.level_vector Sample.one_assertion in
  exists pp1 v1 trs res pp' av' tr fin,
    Preprocess.preprocess Sample.pass_apply 2 env 0 Sample.preprocessor
      Sample.one_assertion = (pp1, v1, trs, res)
    /\ Preprocess.apply Sample.pass_apply 2 env Sample.preprocessor av
       = (pp', av', tr, fin)
    /\ (0 < Preprocess.size av)%nat
    /\ tr = Preprocess.loop_events (env_options env) 2
    /\ fin = true
    /\ Preprocess.av_nodes av' = [Sample.p]
    /\ Forall (fun lt : nat * list Preprocess.Event =>
                 exists k : nat,
                   (k <= 2)%nat
                   /\ snd lt = Preprocess.loop_events (env_options env) k
                   /\ (Preprocess.count_pass Preprocess.SKELETON_PREPROC
                         (snd lt) <= 1)%nat)
              trs.
Proof.
  intros env av.
  destruct (Preprocess.preprocess Sample.pass_apply 2 env 0
              Sample.preprocessor Sample.one_assertion)
    as [[[pp1 v1] trs] res] eqn:Hpre.
  destruct (Preprocess.apply Sample.pass_apply 2 env Sample.preprocessor av)
    as [[[pp' av'] tr] fin] eqn:Hap.
  exists pp1, v1, trs, res, pp', av', tr, fin.
  assert (Hsz : (0 < Preprocess.size av)%nat) by (vm_compute; lia).
  pose proof (preprocess_loop_rounds unit Sample.pass_apply 2 env 0
                Sample.preprocessor Sample.one_assertion pp1 v1 trs res
                av pp' av' tr fin Hpre Hap Hsz) as [Hall _].
  vm_compute in Hap. inversion Hap; subst.
  repeat split; try reflexivity; try exact Hsz; exact Hall.
Defined.

Lemma apply_env :
  forall {PassState : Type}
         (pass_apply :
            Preprocess.PassId -> PassState -> Preprocess.AssertionVector ->
            PassState * Preprocess.AssertionVector)
         fuel env env' pp av,
    env_options env = env_options env' ->
    Preprocess.apply pass_apply fuel env pp av
    = Preprocess.apply pass_apply fuel env' pp av.
Proof.
  intros PassState pass_apply fuel env env' pp av H.
  unfold Preprocess.apply. rewrite H. reflexivity.
Qed.

Lemma process_levels_env :
  forall {PassState : Type}
         (pass_apply :
            Preprocess.PassId -> PassState -> Preprocess.AssertionVector ->
            PassState * Preprocess.AssertionVector)
         n fuel env env' pp v,
    env_options env = env_options env' ->
    Preprocess.process_levels pass_apply n fuel env pp v
    = Preprocess.process_levels pass_apply n fuel env' pp v.
Proof.
  intros PassState pass_apply n fuel env env' pp v H. revert pp v.
  induction n as [|n IH]; intros pp v; [reflexivity|].
  cbn [Preprocess.process_levels].
  destruct (Preprocess.view_empty v); [reflexivity|]. cbv zeta.
  rewrite (apply_env pass_apply fuel env env' _ _ H).
  destruct (Preprocess.apply pass_apply fuel env' _ _)
    as [[[pp1 av1] tr1] fin1].
  destruct fin1; [|reflexivity]. rewrite IH. reflexivity.
Qed.

Lemma preprocess_result :
  forall {PassState : Type}
         (pass_apply :
            Preprocess.PassId -> PassState -> Preprocess.AssertionVector ->
            PassState * Preprocess.AssertionVector)
         fuel env global_levels pp v,
    snd (Preprocess.preprocess pass_apply fuel env global_levels pp v)
    = Some UNKNOWN
    \/ snd (Preprocess.preprocess pass_apply fuel env global_levels pp v)
       = None.
Proof.
  intros. unfold Preprocess.preprocess.
  destruct (Preprocess.view_empty v); [left; reflexivity|].
  destruct (Preprocess.process_levels pass_apply _ fuel env pp v)
    as [[[pp1 v1] trs] fin].
  destruct fin; [left|right]; reflexivity.
Qed.



(* ------------------------------------------------------------------ *)
(** ** The API: simplify, push and pop, options                        *)
(* ------------------------------------------------------------------ *)

(** C5 (the code at the failing input). With the single assertion [true]
    on the stack, [Bitwuzla::simplify] returns UNKNOWN and leaves the
    instance as it is, and so does the preprocessing of the solving
    context; the specification asks for SAT. *)
Theorem simplify_true_is_unknown :
  exists b : Api.Bitwuzla unit unit,
    Api.assert_formula Sample.is_bool Sample.bitwuzla_off Sample.mk_true
    = Ok b
    /\ Context.assertion_nodes (Api.d_ctx b) = [Sample.mk_true]
    /\ Api.simplify b = Ok (b, UNKNOWN)
    /\ (exists ctx,
          Context.preprocess Sample.pass_apply 1 (Api.d_ctx b)
          = Ok (ctx, UNKNOWN)
          /\ Context.assertion_nodes ctx = [Sample.mk_true]).
Proof.
  eexists. split; [reflexivity|].
  split; [reflexivity|]. split; [reflexivity|].
  eexists. split; reflexivity.
Qed.

Lemma push_levels :
  forall (PassState Engine : Type) (n : nat)
         (b : Api.Bitwuzla PassState Engine),
  exists b',
    Api.push b n = Ok b'
    /\ Context.d_levels (Api.d_ctx b')
       = (Context.d_levels (Api.d_ctx b) + n)%nat
    /\ Context.options (Api.d_ctx b') = Context.options (Api.d_ctx b).
Proof.
  intros PassState Engine n. induction n as [|n IH]; intros b.
  - exists b. simpl. repeat split. lia.
  - cbn [Api.push].
    destruct (IH {| Api.d_ctx := Context.push (Api.d_ctx b) |})
      as (b' & Hp & Hl & Ho).
    exists b'. split; [exact Hp|]. split.
    + rewrite Hl. simpl. lia.
    + rewrite Ho. reflexivity.
Qed.

(** C3 (the code at the failing input). On an instance whose
    [incremental] option is off, [push(2)] returns normally and leaves
    the context with two levels more; [pop(2)] then returns normally as
    well. The specification asks for a usage error and an unchanged
    context. *)
Theorem push_without_incremental :
  Opt.incremental (Context.options (Api.d_ctx Sample.bitwuzla_off)) = false
  /\ exists b2 b0 : Api.Bitwuzla unit unit,
       Api.push Sample.bitwuzla_off 2 = Ok b2
       /\ Context.d_levels (Api.d_ctx b2) = 2%nat
       /\ b2 <> Sample.bitwuzla_off
       /\ Api.pop b2 2 = Ok b0
       /\ Context.d_levels (Api.d_ctx b0) = 0%nat.
Proof.
  split; [reflexivity|].
  eexists. eexists. split; [reflexivity|]. split; [reflexivity|].
  split; [|split; reflexivity].
  intros H. apply (f_equal (fun b => Context.d_levels (Api.d_ctx b))) in H.
  discriminate H.
Qed.



(* ------------------------------------------------------------------ *)
(** ** The function-congruence check                                   *)
(* ------------------------------------------------------------------ *)

Lemma nodes_eqb_true_iff :
  forall l1 l2 : list Node, nodes_eqb l1 l2 = true <-> l1 = l2.
Proof.
  intros l1. apply nodes_eqb_eq.
  apply List.Forall_forall. intros a _. apply Node_eqb_eq.
Qed.

Lemma find_node_set_node :
  forall {V : Type} (m : NodeMap V) (k k' : Node) (v : V),
    find_node (set_node m k v) k'
    = if Node_eqb k k' then Some v else find_node m k'.
Proof.
  intros V m k k' v. induction m as [|[k0 v0] m IH]; simpl.
  - reflexivity.
  - destruct (Node_eqb k0 k) eqn:H0; simpl.
    + apply Node_eqb_eq in H0. subst k0.
      destruct (Node_eqb k k'); reflexivity.
    + destruct (Node_eqb k0 k') eqn:H1.
      * assert (Node_eqb k k' = false) as ->; [|reflexivity].
        apply Node_eqb_neq. intros ->. apply Node_eqb_eq in H1. subst k0.
        rewrite Node_eqb_refl in H0. discriminate.
      * exact IH.
Qed.

Lemma list_find_app :
  forall {A : Type} (f : A -> bool) (l1 l2 : list A),
    List.find f (l1 ++ l2)
    = match List.find f l1 with
      | Some x => Some x
      | None => List.find f l2
      end.
Proof.
  intros A f l1 l2. induction l1 as [|x l1 IH]; simpl; [reflexivity|].
  destruct (f x); [reflexivity|exact IH].
Qed.

Section FunSolverFacts.

Variable state_value : Node -> Node.
Variable hash_node : Node -> Z.
Variable mk_nary : Kind.t -> list Node -> Node.

Import FunSolver.

#[local] Abbreviation new := (Apply_new state_value hash_node).
#[local] Abbreviation rep := (representative state_value).
#[local] Abbreviation step := (check_step state_value hash_node mk_nary).
#[local] Abbreviation models_inv :=
  (FunSolver.models_inv state_value hash_node).

Lemma same_class_iff :
  forall b a,
    same_class state_value b a = true <->
    firstn 1 (children b) = firstn 1 (children a)
    /\ map state_value (tl (children b)) = map state_value (tl (children a)).
Proof.
  intros b a. unfold same_class.
  rewrite andb_true_iff, !nodes_eqb_true_iff. reflexivity.
Qed.

Lemma Apply_eq_new :
  forall x a,
    num_children x = num_children a ->
    Apply_eq (new x) (new a)
    = Ok (nodes_eqb (map state_value (tl (children x)))
                    (map state_value (tl (children a)))).
Proof.
  intros x a H. unfold Apply_eq, Apply_new. cbn [d_values].
  rewrite !List.length_map.
  replace (List.length (tl (children x)))
    with (List.length (tl (children a))).
  - rewrite Nat.eqb_refl. reflexivity.
  - unfold num_children in H.
    destruct (children x), (children a); simpl in *; congruence.
Qed.

Lemma find_equal_app :
  forall m y app,
    find_equal (m ++ [y]) app
    = match find_equal m app with
      | Ok (Some r) => Ok (Some r)
      | Ok None =>
          match Apply_eq y app with
          | Ok true => Ok (Some y)
          | Ok false => Ok None
          | AssertFail => AssertFail
          | Abort => Abort
          | OutOfFuel => OutOfFuel
          end
      | AssertFail => AssertFail
      | Abort => Abort
      | OutOfFuel => OutOfFuel
      end.
Proof.
  intros m y app. induction m as [|x m IH]; simpl.
  - destruct (Apply_eq y app) as [[|]| | |]; reflexivity.
  - destruct (Apply_eq x app) as [[|]| | |]; simpl; try reflexivity.
    exact IH.
Qed.

Lemma fun_model_of_set :
  forall (m : NodeMap (list Apply)) f g fm,
    fun_model_of (set_node m f fm) g
    = if Node_eqb f g then fm else fun_model_of m g.
Proof.
  intros m f g fm. unfold fun_model_of. rewrite find_node_set_node.
  destruct (Node_eqb f g); reflexivity.
Qed.

Lemma rep_snoc :
  forall examined x a,
    rep (examined ++ [x]) a
    = match rep examined a with
      | Some b => Some b
      | None => if same_class state_value x a then Some x else None
      end.
Proof.
  intros examined x a. unfold representative. rewrite list_find_app.
  destruct (List.find _ examined); [reflexivity|]. simpl.
  destruct (same_class state_value x a); reflexivity.
Qed.

Lemma check_step_spec :
  forall L examined models sent x,
    applies_wf L -> incl examined L -> In x L ->
    models_inv L examined models ->
    exists models',
      step x (models, sent)
      = Ok (models', sent ++ lemma_for state_value mk_nary examined x)
      /\ models_inv L (examined ++ [x]) models'.
Proof.
  intros L examined models sent x [Hwf Har] Hincl Hx Hinv.
  pose proof (proj1 (List.Forall_forall _ _) Hwf) as Hk.
  destruct (Hk x Hx) as [Hkx Hcx].
  destruct (children x) as [|f args] eqn:Hch; [contradiction|]. clear Hcx.
  unfold check_step, child. rewrite Hch. cbn [nth_error obind].
  rewrite (Hinv x f args Hx Hch). cbn [obind].
  unfold lemma_for.
  destruct (rep examined x) as [b|] eqn:Hrep; cbn [option_map].
  - (* an application of the class has been examined before *)
    unfold representative in Hrep.
    apply List.find_some in Hrep. destruct Hrep as [Hb Hsc].
    apply same_class_iff in Hsc. destruct Hsc as [Hfn Hvals].
    assert (HbL : In b L) by (apply Hincl; exact Hb).
    assert (Hinv' :
      models_inv L (examined ++ [x])
        (set_node models f (fun_model_of models f))).
    { intros a g gargs Ha Hcha.
      rewrite fun_model_of_set.
      replace (if Node_eqb f g then fun_model_of models f
               else fun_model_of models g) with (fun_model_of models g).
      2:{ destruct (Node_eqb f g) eqn:Hfg; [|reflexivity].
          apply Node_eqb_eq in Hfg. subst g. reflexivity. }
      rewrite (Hinv a g gargs Ha Hcha). f_equal. f_equal.
      rewrite rep_snoc.
      destruct (rep examined a) as [r|] eqn:Hra; [reflexivity|].
      destruct (same_class state_value x a) eqn:Hxa; [|reflexivity].
      exfalso. apply same_class_iff in Hxa. destruct Hxa as [Hf2 Hv2].
      unfold representative in Hra.
      apply (List.find_none _ _ Hra b) in Hb.
      assert (same_class state_value b a = true) as Hba.
      { apply same_class_iff. split; congruence. }
      congruence. }
    cbn [d_value d_apply Apply_new].
    destruct (Node_eqb (state_value b) (state_value x)) eqn:Hv; cbn [negb].
    + exists (set_node models f (fun_model_of models f)).
      rewrite app_nil_r. split; [reflexivity|exact Hinv'].
    + exists (set_node models f (fun_model_of models f)).
      split; [|exact Hinv'].
      unfold add_function_congruence_lemma.
      rewrite (Har x b Hx HbL) by (symmetry; exact Hfn).
      rewrite Nat.eqb_refl. cbn [oassert obind].
      rewrite Hkx. destruct (Hk b HbL) as [Hkb _]. rewrite Hkb.
      change (Kind.eqb Kind.APPLY Kind.APPLY) with true. cbn [oassert obind].
      assert (Node_eqb x b = false) as Hne.
      { apply Node_eqb_neq. intros ->. rewrite Node_eqb_refl in Hv.
        discriminate. }
      rewrite Hne. reflexivity.
  - (* the first application of its class *)
    exists (set_node models f (fun_model_of models f ++ [new x])).
    rewrite app_nil_r. split; [reflexivity|].
    intros a g gargs Ha Hcha.
    rewrite fun_model_of_set, rep_snoc.
    pose proof (Hinv a g gargs Ha Hcha) as Hfa.
    destruct (Node_eqb f g) eqn:Hfg.
    + apply Node_eqb_eq in Hfg. subst g.
      rewrite find_equal_app, Hfa.
      destruct (rep examined a) as [r|]; cbn [option_map]; [reflexivity|].
      assert (Hfirst : firstn 1 (children x) = firstn 1 (children a))
        by (rewrite Hch, Hcha; reflexivity).
      rewrite Apply_eq_new by (apply Har; assumption).
      unfold same_class. rewrite Hfirst.
      replace (nodes_eqb (firstn 1 (children a)) (firstn 1 (children a)))
        with true by (symmetry; apply nodes_eqb_true_iff; reflexivity).
      cbn [andb].
      destruct (nodes_eqb _ _); reflexivity.
    + rewrite Hfa. f_equal. f_equal.
      destruct (rep examined a) as [r|]; [reflexivity|].
      unfold same_class. rewrite Hch, Hcha. cbn [firstn nodes_eqb].
      rewrite Hfg. reflexivity.
Qed.

End FunSolverFacts.

Section FunSolverLoop.

Variable state_value : Node -> Node.
Variable hash_node : Node -> Z.
Variable mk_nary : Kind.t -> list Node -> Node.

Import FunSolver.

Lemma concat_hd_tl :
  forall growth : list (list Node),
    concat growth = hd [] growth ++ concat (tl growth).
Proof. intros [|g gs]; reflexivity. Qed.

Lemma check_loop_spec :
  forall L fuel pending growth examined models sent,
    applies_wf L ->
    incl (examined ++ pending ++ concat growth) L ->
    (List.length pending + List.length (concat growth) <= fuel)%nat ->
    models_inv state_value hash_node L examined models ->
    exists st' extra,
      check_loop state_value hash_node mk_nary fuel pending growth examined
        (models, sent) = Ok st'
      /\ d_applies st' = examined ++ pending ++ extra
      /\ extra
         = concat (firstn (List.length pending + List.length extra) growth)
      /\ lemmas st'
         = sent ++ expected_lemmas state_value mk_nary examined
                     (pending ++ extra).
Proof.
  intros L fuel. induction fuel as [|fuel IH];
    intros pending growth examined models sent Hwf Hincl Hfuel Hinv.
  - destruct pending as [|x rest]; [|simpl in Hfuel; lia].
    exists {| d_applies := examined; d_fun_models := models;
              lemmas := sent |}, [].
    simpl. rewrite !app_nil_r. repeat split; reflexivity.
  - destruct pending as [|x rest].
    + exists {| d_applies := examined; d_fun_models := models;
                lemmas := sent |}, [].
      simpl. rewrite !app_nil_r. repeat split; reflexivity.
    + cbn [check_loop].
      assert (Hx : In x L).
      { apply Hincl. apply in_or_app. right. left. reflexivity. }
      assert (Hex : incl examined L).
      { intros y Hy. apply Hincl. apply in_or_app. left. exact Hy. }
      destruct (check_step_spec state_value hash_node mk_nary
                  L examined models sent x Hwf Hex Hx Hinv)
        as (models' & Hstep & Hinv').
      rewrite Hstep. cbn [obind].
      destruct (IH (rest ++ hd [] growth) (tl growth) (examined ++ [x])
                  models'
                  (sent ++ lemma_for state_value mk_nary examined x))
        as (st' & extra' & Hloop & Happ & Hextra & Hlem).
      * exact Hwf.
      * intros y Hy. apply Hincl.
        rewrite (concat_hd_tl growth).
        rewrite <- !app_assoc in Hy. exact Hy.
      * rewrite (concat_hd_tl growth) in Hfuel.
        rewrite !List.length_app in *. simpl in Hfuel. lia.
      * exact Hinv'.
      * exists st', (hd [] growth ++ extra').
        split; [exact Hloop|]. split; [|split].
        -- rewrite Happ. rewrite <- !app_assoc. reflexivity.
        -- destruct growth as [|g gs].
           ++ simpl in Hextra |- *. rewrite firstn_nil in Hextra.
              rewrite Hextra. reflexivity.
           ++ simpl. f_equal.
              rewrite Hextra at 1. f_equal. f_equal.
              simpl. rewrite !List.length_app. lia.
        -- rewrite Hlem. simpl. rewrite <- !app_assoc. reflexivity.
Qed.

End FunSolverLoop.

(** C1 (as stated, refuted). [fn arg_b] and [fn arg_d] apply the same
    function to arguments of equal value and have different values, yet
    [check] sends no congruence lemma for the two: the only lemma is the
    one of [fn arg_b] and the first application examined, [fn arg_a]. *)
Lemma check_compares_with_representative_only :
  exists st',
    FunSolver.check Sample.state_value Sample.hash_node Sample.mk_nary
      Sample.fun_solver [] = Ok st'
    /\ FunSolver.same_class Sample.state_value Sample.app_b Sample.app_d
       = true
    /\ Sample.state_value Sample.app_b <> Sample.state_value Sample.app_d
    /\ FunSolver.lemmas st'
       = [FunSolver.congruence_lemma Sample.mk_nary Sample.app_b
            Sample.app_a]
    /\ ~ In (FunSolver.congruence_lemma Sample.mk_nary Sample.app_b
               Sample.app_d) (FunSolver.lemmas st')
    /\ ~ In (FunSolver.congruence_lemma Sample.mk_nary Sample.app_d
               Sample.app_b) (FunSolver.lemmas st').
Proof.
  eexists. split; [vm_compute; reflexivity|].
  split; [vm_compute; reflexivity|].
  split; [vm_compute; discriminate|].
  split; [vm_compute; reflexivity|].
  split; vm_compute; intros [H|[]]; discriminate H.
Qed.

(** C1 (amended). [check] examines, in the order of registration, every
    registered application, those registered while it runs included. An
    application is compared with its representative only, that is with
    the first application examined before it that applies the same
    function to arguments with pairwise equal model values; when the two
    have different model values, [check] sends exactly the lemma
    [(a_1 = b_1 /\ ... /\ a_n = b_n) => a = b] of the application [a] and
    its representative [b] to the solver state, and it sends no other
    lemma. *)
Theorem check_sends_representative_lemmas :
  forall (state_value : Node -> Node) (hash_node : Node -> Z)
         (mk_nary : Kind.t -> list Node -> Node)
         (st : FunSolver.State) (growth : list (list Node)),
    FunSolver.applies_wf (FunSolver.d_applies st ++ concat growth) ->
    exists st' extra,
      FunSolver.check state_value hash_node mk_nary st growth = Ok st'
      /\ FunSolver.d_applies st' = FunSolver.d_applies st ++ extra
      /\ extra
         = concat (firstn (List.length (FunSolver.d_applies st')) growth)
      /\ FunSolver.lemmas st'
         = FunSolver.lemmas st
           ++ FunSolver.expected_lemmas state_value mk_nary []
                (FunSolver.d_applies st').
Proof.
  intros state_value hash_node mk_nary st growth Hwf.
  unfold FunSolver.check.
  destruct (check_loop_spec state_value hash_node mk_nary
              (FunSolver.d_applies st ++ concat growth)
              (List.length (FunSolver.d_applies st)
               + List.length (concat growth))
              (FunSolver.d_applies st) growth [] [] (FunSolver.lemmas st))
    as (st' & extra & Hloop & Happ & Hextra & Hlem).
  - exact Hwf.
  - simpl. apply incl_refl.
  - lia.
  - intros a f args _ _. reflexivity.
  - exists st', extra. simpl in Happ.
    split; [exact Hloop|]. split; [exact Happ|]. split.
    + rewrite Happ, List.length_app. exact Hextra.
    + rewrite Hlem, Happ. reflexivity.
Qed.

(** Two applications registered, a third registered during the first
    round: all three are examined and the one lemma is sent. *)
Lemma check_sends_representative_lemmas_witness :
  FunSolver.applies_wf
    (FunSolver.d_applies Sample.fun_solver_two ++ concat [[Sample.app_d]])
  /\ exists st',
       FunSolver.check Sample.state_value Sample.hash_node Sample.mk_nary
         Sample.fun_solver_two [[Sample.app_d]] = Ok st'
       /\ FunSolver.d_applies st'
          = [Sample.app_a; Sample.app_b; Sample.app_d]
       /\ FunSolver.lemmas st'
          = FunSolver.expected_lemmas Sample.state_value Sample.mk_nary []
              [Sample.app_a; Sample.app_b; Sample.app_d].
Proof.
  assert (Hwf : FunSolver.applies_wf
                  (FunSolver.d_applies Sample.fun_solver_two
                   ++ concat [[Sample.app_d]])).
  { split.
    - repeat constructor; discriminate.
    - simpl. intros a b Ha Hb _.
      repeat (destruct Ha as [<-|Ha]; [|]);
        try contradiction;
        repeat (destruct Hb as [<-|Hb]; [|]);
        try contradiction; reflexivity. }
  split; [exact Hwf|].
  destruct (check_sends_representative_lemmas Sample.state_value
              Sample.hash_node Sample.mk_nary Sample.fun_solver_two
              [[Sample.app_d]] Hwf)
    as (st' & extra & Hcheck & Happ & Hextra & Hlem).
  exists st'. split; [exact Hcheck|].
  vm_compute in Hcheck. inversion Hcheck; subst st'.
  split; reflexivity.
Defined.

(* ------------------------------------------------------------------ *)
(** ** Free variables of assertions                                    *)
(* ------------------------------------------------------------------ *)

(** C9 (the code at the failing input). [exists x. x = c] is closed and
    [x = c] has the free variable [x]; both are Boolean and both are
    accepted by [assert_formula]. Checked alone, [x = c] is reported with
    its free variable. Checked after [exists x. x = c], it is not: the
    check passes and [solve] goes on to the engine instead of
    aborting. *)
Theorem free_variable_check_misses_shared_subterm :
  closed Sample.exists_x
  /\ free_variables Sample.eq_x_c = [Sample.x]
  /\ Context.check_no_free_variables 100 [Sample.eq_x_c]
     = Context.FoundFreeVariables Sample.eq_x_c [Sample.x]
  /\ Context.check_no_free_variables 100 [Sample.exists_x; Sample.eq_x_c]
     = Context.NoFreeVariables
  /\ exists ctx1 ctx2 ctx3 : Context.SolvingContext unit unit,
       Context.assert_formula Sample.is_bool
         (Context.SolvingContext_new Opt.all_off tt tt) Sample.exists_x
       = Ok ctx1
       /\ Context.assert_formula Sample.is_bool ctx1 Sample.eq_x_c = Ok ctx2
       /\ Context.assertion_nodes ctx2 = [Sample.exists_x; Sample.eq_x_c]
       /\ Context.solve Sample.pass_apply Sample.pp_process
            (fun e _ => e) Sample.engine_solve (fun e _ => e)
            (fun _ _ => true) (fun _ _ => true) 100 ctx2
          = Ok (ctx3, UNKNOWN).
Proof.
  split; [reflexivity|]. split; [reflexivity|].
  split; [vm_compute; reflexivity|]. split; [vm_compute; reflexivity|].
  eexists. eexists. eexists.
  split; [reflexivity|]. split; [reflexivity|]. split; [reflexivity|].
  vm_compute. reflexivity.
Qed.

(* ------------------------------------------------------------------ *)
(** ** Values                                                          *)
(* ------------------------------------------------------------------ *)

Lemma fun_value_shape :
  forall mk_nary type_of mk_var mk_default_value
         mk_binder (st : FunSolver.State) (f v : Node)
         (fun_model : list FunSolver.Apply),
    find_node (FunSolver.d_fun_models st) f = Some fun_model ->
    FunSolver.value mk_nary type_of mk_var mk_default_value mk_binder st f
    = Ok v ->
    exists body,
      v = mk_binder Kind.LAMBDA
            (FunSolver.mk_vars mk_var 0
               (removelast (fun_types (type_of f))) ++ [body]).
Proof.
  intros mk_nary type_of mk_var mk_default_value
    mk_binder st f v fun_model Hfind Hval.
  unfold FunSolver.value in Hval.
  destruct (Ty_is_fun (type_of f)); [|discriminate Hval].
  cbn [oassert obind] in Hval. rewrite Hfind in Hval.
  destruct (FunSolver.add_ites mk_nary _ fun_model _) as [body| | |];
    try discriminate Hval.
  cbn [obind] in Hval. inversion Hval. exists body. reflexivity.
Qed.

Lemma mk_vars_length :
  forall mk_var types k,
    List.length (FunSolver.mk_vars mk_var k types) = List.length types.
Proof.
  intros mk_var types. induction types as [|t ts IH]; intros k; simpl;
    [reflexivity|]. rewrite IH. reflexivity.
Qed.




(* ================================================================== *)
(** * Further properties of the code                                   *)
(* ================================================================== *)

(* ------------------------------------------------------------------ *)
(** ** Sets of nodes, sizes and subterms                               *)
(* ------------------------------------------------------------------ *)

Lemma mem_In : forall (s : NodeSet) n, mem s n = true <-> In n s.
Proof.
  intros s n. unfold mem. rewrite existsb_exists. split.
  - intros (x & Hx & He). apply Node_eqb_eq in He. subst. exact Hx.
  - intros H. exists n. split; [exact H|apply Node_eqb_refl].
Qed.

Lemma set_insert_In :
  forall (s : NodeSet) n v, In v (set_insert s n) <-> In v s \/ v = n.
Proof.
  intros s n v. unfold set_insert. destruct (mem s n) eqn:Hm.
  - apply mem_In in Hm. split; [auto|]. intros [H| ->]; assumption.
  - rewrite in_app_iff. simpl. intuition.
Qed.

Lemma set_insert_all_In :
  forall ns (s : NodeSet) v,
    In v (set_insert_all s ns) <-> In v s \/ In v ns.
Proof.
  unfold set_insert_all.
  induction ns as [|n ns IH]; intros s v; simpl; [tauto|].
  rewrite IH, set_insert_In. intuition.
Qed.

Lemma set_erase_In :
  forall (s : NodeSet) n v, In v (set_erase s n) <-> In v s /\ v <> n.
Proof.
  intros s n v. unfold set_erase. rewrite filter_In, negb_true_iff.
  rewrite Node_eqb_neq. intuition.
Qed.

Lemma node_size_eq :
  forall k p cs, node_size (Nd k p cs) = S (nodes_size cs).
Proof. reflexivity. Qed.

Lemma subterms_eq :
  forall k p cs, subterms (Nd k p cs) = Nd k p cs :: subterms_list cs.
Proof. reflexivity. Qed.

Lemma subterms_list_In :
  forall cs m, In m (subterms_list cs) <-> exists c, In c cs /\ subterm m c.
Proof.
  induction cs as [|c cs IH]; intros m; simpl.
  - split; [tauto|]. intros (c & [] & _).
  - rewrite in_app_iff, IH. split.
    + intros [H|(c' & Hc & Hs)]; [exists c; auto|exists c'; auto].
    + intros (c' & [<-|Hc] & Hs); [left; exact Hs|right; exists c'; auto].
Qed.

Lemma subterm_refl : forall n, subterm n n.
Proof. intros [k p cs]. left. reflexivity. Qed.

Lemma subterm_iff :
  forall m n,
    subterm m n <-> m = n \/ exists c, In c (children n) /\ subterm m c.
Proof.
  intros m [k p cs]. unfold subterm at 1. rewrite subterms_eq. simpl.
  rewrite subterms_list_In. intuition.
Qed.

Lemma nodes_size_In :
  forall cs c, In c cs -> (node_size c <= nodes_size cs)%nat.
Proof.
  induction cs as [|c' cs IH]; intros c H; simpl in *; [contradiction|].
  destruct H as [<-|H]; [lia|]. specialize (IH c H). lia.
Qed.

Lemma subterm_size :
  forall n m, subterm m n -> (node_size m <= node_size n)%nat.
Proof.
  induction n as [k p cs IH] using Node_induction. intros m Hs.
  apply subterm_iff in Hs. destruct Hs as [->|(c & Hc & Hs)]; [lia|].
  simpl in Hc. rewrite List.Forall_forall in IH.
  specialize (IH c Hc m Hs). pose proof (nodes_size_In cs c Hc).
  rewrite node_size_eq. lia.
Qed.

Lemma subterm_child_size :
  forall n c m,
    In c (children n) -> subterm m c -> (node_size m < node_size n)%nat.
Proof.
  intros [k p cs] c m Hc Hs. simpl in Hc.
  pose proof (subterm_size c m Hs). pose proof (nodes_size_In cs c Hc).
  rewrite node_size_eq. lia.
Qed.

Lemma subterm_trans :
  forall n c m, subterm c n -> subterm m c -> subterm m n.
Proof.
  induction n as [k p cs IH] using Node_induction. intros c m Hc Hm.
  apply subterm_iff in Hc. destruct Hc as [->|(d & Hd & Hc)]; [exact Hm|].
  apply subterm_iff. right. exists d. split; [exact Hd|].
  simpl in Hd. rewrite List.Forall_forall in IH. exact (IH d Hd c m Hc Hm).
Qed.

Lemma nodes_size_rev : forall cs, nodes_size (rev cs) = nodes_size cs.
Proof.
  assert (Happ : forall a b,
            nodes_size (a ++ b) = (nodes_size a + nodes_size b)%nat).
  { induction a as [|x a IH]; intros b; simpl; [reflexivity|].
    rewrite IH. lia. }
  induction cs as [|c cs IH]; simpl; [reflexivity|].
  rewrite Happ, IH. simpl. lia.
Qed.

(* ------------------------------------------------------------------ *)
(** ** The free-variable check                                         *)
(* ------------------------------------------------------------------ *)

Lemma free_variables_In :
  forall n v,
    In v (free_variables n) <->
    if Kind.eqb (kind n) Kind.VARIABLE then v = n
    else (exists c, In c (children n) /\ In v (free_variables c))
         /\ (is_binder (kind n) = true ->
             match children n with
             | v0 :: _ => v <> v0
             | [] => True
             end).
Proof.
  intros [k p cs] v. cbn [kind children free_variables].
  set (go := fix go (l : list Node) : list Node :=
               match l with
               | [] => []
               | c :: l' => set_insert_all (free_variables c) (go l')
               end).
  assert (Hbelow :
    forall l, In v (go l)
              <-> exists c, In c l /\ In v (free_variables c)).
  { induction l as [|c l IH]; simpl.
    - split; [tauto|]. intros (c & [] & _).
    - rewrite set_insert_all_In, IH. split.
      + intros [H|(c' & Hc & Hv)]; [exists c; auto|exists c'; auto].
      + intros (c' & [<-|Hc] & Hv); [left; exact Hv|right; exists c'; auto]. }
  clearbody go.
  destruct (Kind.eqb k Kind.VARIABLE).
  - simpl. split; [intros [H|[]]; auto|intros ->; auto].
  - destruct (is_binder k).
    + destruct cs as [|v0 cs'].
      * rewrite Hbelow. split; [intros H; split; auto|intros [H _]; exact H].
      * rewrite set_erase_In, Hbelow. split.
        -- intros [H Hne]. split; auto.
        -- intros [H Hne]. split; auto.
    + rewrite Hbelow. split; [intros H; split; [exact H|discriminate]|].
      intros [H _]. exact H.
Qed.


Lemma free_vars_loop_nil :
  forall fuel cache free_vars,
    Context.free_vars_loop (S fuel) [] cache free_vars
    = Some (cache, free_vars).
Proof. reflexivity. Qed.

Lemma free_vars_loop_new :
  forall fuel cur rest cache free_vars,
    find_node cache cur = None ->
    Context.free_vars_loop (S fuel) (cur :: rest) cache free_vars
    = Context.free_vars_loop fuel (rev (children cur) ++ cur :: rest)
        (set_node cache cur false) free_vars.
Proof. intros. cbn [Context.free_vars_loop]. rewrite H. reflexivity. Qed.

Lemma free_vars_loop_finish :
  forall fuel cur rest cache free_vars,
    find_node cache cur = Some false ->
    Context.free_vars_loop (S fuel) (cur :: rest) cache free_vars
    = Context.free_vars_loop fuel rest (set_node cache cur true)
        (finish_node cur free_vars).
Proof. intros. cbn [Context.free_vars_loop]. rewrite H. reflexivity. Qed.

Lemma free_vars_loop_done :
  forall fuel cur rest cache free_vars,
    find_node cache cur = Some true ->
    Context.free_vars_loop (S fuel) (cur :: rest) cache free_vars
    = Context.free_vars_loop fuel rest cache free_vars.
Proof. intros. cbn [Context.free_vars_loop]. rewrite H. reflexivity. Qed.

Lemma fold_vars_In :
  forall (free_vars : NodeMap NodeSet) cs vars0 v,
    In v (fold_left
            (fun vars c =>
               match find_node free_vars c with
               | Some s => set_insert_all vars s
               | None => vars
               end) cs vars0)
    <-> In v vars0
        \/ exists c s, In c cs /\ find_node free_vars c = Some s /\ In v s.
Proof.
  intros free_vars cs. induction cs as [|c cs IH]; intros vars0 v; simpl.
  - split; [auto|]. intros [H|(c & s & [] & _)]. exact H.
  - rewrite IH. destruct (find_node free_vars c) as [s|] eqn:Hc.
    + rewrite set_insert_all_In. split.
      * intros [[H|H]|(c' & s' & Hc' & Hf & Hv)]; auto.
        -- right. exists c, s. auto.
        -- right. exists c', s'. auto.
      * intros [H|(c' & s' & [<-|Hc'] & Hf & Hv)]; auto.
        -- rewrite Hc in Hf. inversion Hf; subst. auto.
        -- right. exists c', s'. auto.
    + split.
      * intros [H|(c' & s' & Hc' & Hf & Hv)]; auto.
        right. exists c', s'. auto.
      * intros [H|(c' & s' & [<-|Hc'] & Hf & Hv)]; auto.
        -- rewrite Hc in Hf. discriminate.
        -- right. exists c', s'. auto.
Qed.

Lemma find_node_set_node_eq :
  forall {V : Type} (m : NodeMap V) k (v : V),
    find_node (set_node m k v) k = Some v.
Proof.
  intros. rewrite find_node_set_node, Node_eqb_refl. reflexivity.
Qed.

Lemma find_node_set_node_ne :
  forall {V : Type} (m : NodeMap V) k k' (v : V),
    k <> k' -> find_node (set_node m k v) k' = find_node m k'.
Proof.
  intros V m k k' v H. rewrite find_node_set_node.
  apply Node_eqb_neq in H. rewrite H. reflexivity.
Qed.

Lemma finish_node_other :
  forall cur free_vars n,
    n <> cur ->
    find_node (finish_node cur free_vars) n = find_node free_vars n.
Proof.
  intros cur free_vars n Hn. unfold finish_node.
  assert (Hne : cur <> n) by congruence.
  destruct (is_binder (kind cur));
    destruct (Kind.eqb (kind cur) Kind.VARIABLE);
    try destruct (children cur) as [|v0 cs];
    try match goal with
        | |- context [match find_node ?m cur with _ => _ end] =>
            destruct (find_node m cur)
        end;
    repeat rewrite find_node_set_node_ne by exact Hne; reflexivity.
Qed.

(** The set recorded for [cur] itself: the variable, or what its children
    contribute together with what was recorded for it before, less the
    bound variable. *)
Lemma finish_node_self :
  forall cur free_vars,
  exists s,
    find_node (finish_node cur free_vars) cur = Some s
    /\ forall v,
         In v s <->
         if Kind.eqb (kind cur) Kind.VARIABLE then v = cur
         else ((exists s0, find_node free_vars cur = Some s0 /\ In v s0)
               \/ exists c sc, In c (children cur)
                               /\ find_node free_vars c = Some sc
                               /\ In v sc)
              /\ (is_binder (kind cur) = true ->
                  match children cur with
                  | v0 :: _ => v <> v0
                  | [] => True
                  end).
Proof.
  intros cur free_vars. unfold finish_node.
  destruct (Kind.eqb (kind cur) Kind.VARIABLE) eqn:Hvar.
  - assert (Hb : is_binder (kind cur) = false).
    { apply Kind_eqb_eq in Hvar. rewrite Hvar. reflexivity. }
    rewrite Hb. exists [cur]. rewrite find_node_set_node_eq.
    split; [reflexivity|]. intros v. simpl. intuition.
  - cbv zeta.
    set (vars0 := match find_node free_vars cur with
                  | Some s => s
                  | None => []
                  end).
    set (vars := fold_left _ (children cur) vars0).
    assert (Hvars : forall v,
              In v vars <->
              (exists s0, find_node free_vars cur = Some s0 /\ In v s0)
              \/ exists c sc, In c (children cur)
                              /\ find_node free_vars c = Some sc
                              /\ In v sc).
    { intros v. subst vars. rewrite fold_vars_In. subst vars0.
      destruct (find_node free_vars cur) as [s0|].
      - split; [intros [H|H]; [left; exists s0; auto|auto]|].
        intros [(s1 & H1 & H2)|H]; [inversion H1; subst; auto|auto].
      - split; [intros [[]|H]; auto|].
        intros [(s1 & H1 & _)|H]; [discriminate|auto]. }
    clearbody vars. clear vars0.
    destruct (is_binder (kind cur)).
    + destruct (children cur) as [|v0 cs] eqn:Hch.
      * exists vars. rewrite find_node_set_node_eq. split; [reflexivity|].
        intros v. rewrite Hvars. split; [intros H; split; auto|].
        intros [H _]. exact H.
      * rewrite find_node_set_node_eq.
        exists (set_erase vars v0). rewrite find_node_set_node_eq.
        split; [reflexivity|]. intros v. rewrite set_erase_In, Hvars.
        split; intros [H Hne]; split; auto.
    + exists vars. rewrite find_node_set_node_eq. split; [reflexivity|].
      intros v. rewrite Hvars. split; [intros H; split; [exact H|]|].
      * discriminate.
      * intros [H _]. exact H.
Qed.

Lemma finish_node_sound :
  forall cur free_vars,
    free_vars_sound free_vars -> free_vars_sound (finish_node cur free_vars).
Proof.
  intros cur free_vars Hs n s Hn v Hv.
  destruct (Node_eqb n cur) eqn:He.
  - apply Node_eqb_eq in He. subst n.
    destruct (finish_node_self cur free_vars) as (s' & Hs' & Hchar).
    rewrite Hs' in Hn. inversion Hn; subst s'. clear Hn.
    apply Hchar in Hv. apply free_variables_In.
    destruct (Kind.eqb (kind cur) Kind.VARIABLE) eqn:Hk; [exact Hv|].
    destruct Hv as [Hv Hb].
    assert (Hbelow : exists c, In c (children cur)
                               /\ In v (free_variables c)).
    { destruct Hv as [(s0 & H0 & Hv0)|(c & sc & Hc & Hf & Hvc)].
      - pose proof (Hs cur s0 H0 v Hv0) as Hfree.
        apply free_variables_In in Hfree. rewrite Hk in Hfree.
        destruct Hfree as [H _]. exact H.
      - exists c. split; [exact Hc|]. exact (Hs c sc Hf v Hvc). }
    split; assumption.
  - apply Node_eqb_neq in He. rewrite finish_node_other in Hn by exact He.
    exact (Hs n s Hn v Hv).
Qed.

Lemma free_vars_loop_sound :
  forall fuel visit cache free_vars cache' free_vars',
    free_vars_sound free_vars ->
    Context.free_vars_loop fuel visit cache free_vars
    = Some (cache', free_vars') ->
    free_vars_sound free_vars'.
Proof.
  induction fuel as [|fuel IH];
    intros visit cache free_vars cache' free_vars' Hs Hl;
    [discriminate|].
  destruct visit as [|cur rest].
  - rewrite free_vars_loop_nil in Hl. inversion Hl; subst. exact Hs.
  - destruct (find_node cache cur) as [[|]|] eqn:Hc.
    + rewrite free_vars_loop_done in Hl by exact Hc. eapply IH; eauto.
    + rewrite free_vars_loop_finish in Hl by exact Hc.
      eapply IH; [|exact Hl]. apply finish_node_sound. exact Hs.
    + rewrite free_vars_loop_new in Hl by exact Hc. eapply IH; eauto.
Qed.

Lemma free_variables_are_variables :
  forall n v,
    In v (free_variables n) -> kind v = Kind.VARIABLE /\ subterm v n.
Proof.
  induction n as [k p cs IH] using Node_induction. intros v Hv.
  apply free_variables_In in Hv. cbn [kind children] in Hv.
  destruct (Kind.eqb k Kind.VARIABLE) eqn:Hk.
  - subst v. apply Kind_eqb_eq in Hk. split; [exact Hk|apply subterm_refl].
  - destruct Hv as [(c & Hc & Hvc) _].
    rewrite List.Forall_forall in IH. destruct (IH c Hc v Hvc) as [H1 H2].
    split; [exact H1|]. apply subterm_iff. right. exists c. auto.
Qed.

Lemma check_from_sound :
  forall fuel assertions cache a vars,
    Context.check_from fuel assertions cache
    = Context.FoundFreeVariables a vars ->
    In a assertions /\ vars <> []
    /\ forall v, In v vars -> In v (free_variables a).
Proof.
  intros fuel assertions.
  induction assertions as [|x rest IH]; intros cache a vars H;
    [discriminate|].
  cbn [Context.check_from] in H.
  destruct (Context.free_vars_loop fuel [x] cache [])
    as [[cache' fv]|] eqn:Hl; [|discriminate].
  assert (Hs : free_vars_sound fv).
  { eapply free_vars_loop_sound; [|exact Hl]. intros n s Hn. discriminate. }
  destruct (find_node fv x) as [[|v vs]|] eqn:Hx.
  - destruct (IH _ _ _ H) as (H1 & H2 & H3). split; [right; exact H1|auto].
  - inversion H; subst. split; [left; reflexivity|].
    split; [discriminate|]. exact (Hs a (v :: vs) Hx).
  - destruct (IH _ _ _ H) as (H1 & H2 & H3). split; [right; exact H1|auto].
Qed.

(** X1. The free-variable check gives no false alarm: whatever the
    assertions and the bound of the traversal, an assertion it reports is
    one of the assertions, the variables listed are not empty, and each of
    them is a variable that occurs free in that assertion. A closed
    assertion is never reported. *)
Theorem free_variable_report_is_sound :
  forall fuel assertions a vars,
    Context.check_no_free_variables fuel assertions
    = Context.FoundFreeVariables a vars ->
    In a assertions /\ vars <> [] /\ ~ closed a
    /\ forall v, In v vars ->
                 In v (free_variables a) /\ kind v = Kind.VARIABLE
                 /\ subterm v a.
Proof.
  intros fuel assertions a vars H.
  apply check_from_sound in H. destruct H as (H1 & H2 & H3).
  split; [exact H1|]. split; [exact H2|]. split.
  - unfold closed. intros Hc. destruct vars as [|v vs]; [congruence|].
    specialize (H3 v (or_introl eq_refl)). rewrite Hc in H3. exact H3.
  - intros v Hv. split; [exact (H3 v Hv)|].
    apply free_variables_are_variables. exact (H3 v Hv).
Qed.

Lemma free_variable_report_is_sound_witness :
  Context.check_no_free_variables 100
    [Sample.not_not_p; mk_node Kind.NOT [Sample.eq_x_c]]
  = Context.FoundFreeVariables (mk_node Kind.NOT [Sample.eq_x_c]) [Sample.x]
  /\ ~ closed (mk_node Kind.NOT [Sample.eq_x_c])
  /\ In Sample.x (free_variables (mk_node Kind.NOT [Sample.eq_x_c])).
Proof.
  assert (H : Context.check_no_free_variables 100
                [Sample.not_not_p; mk_node Kind.NOT [Sample.eq_x_c]]
              = Context.FoundFreeVariables
                  (mk_node Kind.NOT [Sample.eq_x_c]) [Sample.x])
    by (vm_compute; reflexivity).
  split; [exact H|].
  destruct (free_variable_report_is_sound _ _ _ _ H) as (_ & _ & Hc & Hv).
  split; [exact Hc|]. apply (Hv Sample.x). left. reflexivity.
Defined.

Section Traversal.

Variable I : NodeMap bool -> NodeMap NodeSet -> Prop.

Hypothesis I_enter :
  forall cache free_vars n,
    I cache free_vars -> find_node cache n = None ->
    I (set_node cache n false) free_vars.

Hypothesis I_finish :
  forall cache free_vars n,
    I cache free_vars -> find_node cache n = Some false ->
    (forall c, In c (children n) -> find_node cache c = Some true) ->
    I (set_node cache n true) (finish_node n free_vars).

Lemma visits_list :
  forall l,
    Forall (fun c => visits I [c] (2 * node_size c)) l ->
    visits I l (2 * nodes_size l).
Proof.
  induction l as [|c l IH]; intros Hall cache fv rest HI Hnf.
  - exists O, cache, fv. repeat split; auto. intros c [].
  - inversion Hall as [|? ? Hc Hl]; subst.
    destruct (Hc cache fv (l ++ rest) HI)
      as (s1 & c1 & f1 & Hb1 & Hrun1 & HI1 & Ht1 & Hm1 & Hf1).
    { intros c' m [<-|[]] Hm. apply (Hnf c m); [left; reflexivity|exact Hm]. }
    destruct (IH Hl c1 f1 rest HI1)
      as (s2 & c2 & f2 & Hb2 & Hrun2 & HI2 & Ht2 & Hm2 & Hf2).
    { intros c' m Hc' Hm. rewrite Hf1.
      apply (Hnf c' m); [right; exact Hc'|exact Hm]. }
    exists (s1 + s2)%nat, c2, f2. split.
    { change (nodes_size (c :: l)) with (node_size c + nodes_size l)%nat.
      lia. }
    split.
    { intros fuel. replace (s1 + s2 + fuel)%nat with (s1 + (s2 + fuel))%nat
        by lia.
      change ((c :: l) ++ rest) with ([c] ++ (l ++ rest)).
      rewrite Hrun1. apply Hrun2. }
    split; [exact HI2|]. split.
    { intros c' [<-|Hc'].
      - apply Hm2. apply Ht1. left. reflexivity.
      - apply Ht2. exact Hc'. }
    split.
    { intros m Hm. apply Hm2. apply Hm1. exact Hm. }
    intros m. rewrite Hf2. apply Hf1.
Qed.

Lemma visits_node : forall n, visits I [n] (2 * node_size n).
Proof.
  induction n as [k p cs IH] using Node_induction.
  set (n := Nd k p cs). intros cache fv rest HI Hnf.
  destruct (find_node cache n) as [[|]|] eqn:Hn.
  - exists 1%nat, cache, fv. split; [subst n; rewrite node_size_eq; lia|].
    split.
    { intros fuel. change ([n] ++ rest) with (n :: rest).
      apply free_vars_loop_done. exact Hn. }
    split; [exact HI|]. split; [intros c [<-|[]]; exact Hn|].
    split; [auto|]. intros m. reflexivity.
  - exfalso. apply (Hnf n n); [left; reflexivity|apply subterm_refl|exact Hn].
  - assert (Hall : Forall (fun c => visits I [c] (2 * node_size c)) (rev cs)).
    { apply List.Forall_forall. intros c Hc. apply in_rev in Hc.
      rewrite List.Forall_forall in IH. exact (IH c Hc). }
    assert (Hproper : forall c m, In c cs -> subterm m c -> m <> n).
    { intros c m Hc Hm ->.
      pose proof (subterm_child_size n c n Hc Hm). lia. }
    destruct (visits_list (rev cs) Hall (set_node cache n false) fv
                (n :: rest))
      as (sl & cl & fl & Hbl & Hrunl & HIl & Htl & Hml & Hfl).
    { apply I_enter; assumption. }
    { intros c m Hc Hm. apply in_rev in Hc.
      rewrite find_node_set_node_ne
        by (intros E; exact (Hproper c m Hc Hm (eq_sym E))).
      apply (Hnf n m); [left; reflexivity|].
      apply subterm_iff. right. exists c. split; assumption. }
    assert (Hnl : find_node cl n = Some false).
    { apply Hfl. apply find_node_set_node_eq. }
    exists (S (sl + 1)), (set_node cl n true), (finish_node n fl).
    split.
    { rewrite nodes_size_rev in Hbl. subst n. rewrite node_size_eq. lia. }
    split.
    { intros fuel. change ([n] ++ rest) with (n :: rest).
      cbn [Nat.add]. rewrite free_vars_loop_new by exact Hn.
      replace (sl + 1 + fuel)%nat with (sl + S fuel)%nat by lia.
      change (children n) with cs. rewrite Hrunl.
      apply free_vars_loop_finish. exact Hnl. }
    split.
    { apply I_finish; [exact HIl|exact Hnl|].
      intros c Hc. apply Htl. apply in_rev. rewrite rev_involutive.
      exact Hc. }
    split.
    { intros c [<-|[]]. apply find_node_set_node_eq. }
    split.
    { intros m Hm. assert (n <> m) by congruence.
      rewrite find_node_set_node_ne by assumption. apply Hml.
      rewrite find_node_set_node_ne by assumption. exact Hm. }
    intros m. destruct (Node_eqb n m) eqn:He.
    + apply Node_eqb_eq in He. subst m. rewrite find_node_set_node_eq, Hn.
      split; discriminate.
    + apply Node_eqb_neq in He. rewrite find_node_set_node_ne by exact He.
      rewrite Hfl. rewrite find_node_set_node_ne by exact He. reflexivity.
Qed.

End Traversal.

Lemma free_vars_good_enter :
  forall cache free_vars n,
    free_vars_good cache free_vars -> find_node cache n = None ->
    free_vars_good (set_node cache n false) free_vars.
Proof.
  intros cache fv n [H1 H2] Hn. split.
  - intros m Hm. destruct (Node_eqb n m) eqn:He.
    + apply Node_eqb_eq in He. subst m.
      rewrite find_node_set_node_eq in Hm. discriminate.
    + apply Node_eqb_neq in He.
      rewrite find_node_set_node_ne in Hm by exact He. exact (H1 m Hm).
  - intros m s Hm. pose proof (H2 m s Hm) as Ht.
    assert (n <> m) by congruence.
    rewrite find_node_set_node_ne by assumption. exact Ht.
Qed.

Lemma free_vars_good_finish :
  forall cache free_vars n,
    free_vars_good cache free_vars -> find_node cache n = Some false ->
    (forall c, In c (children n) -> find_node cache c = Some true) ->
    free_vars_good (set_node cache n true) (finish_node n free_vars).
Proof.
  intros cache fv n [H1 H2] Hn Hch. split.
  - intros m Hm. destruct (Node_eqb n m) eqn:He.
    + apply Node_eqb_eq in He. subst m.
      destruct (finish_node_self n fv) as (s & Hs & Hchar).
      exists s. split; [exact Hs|]. intros v.
      rewrite Hchar, free_variables_In.
      destruct (Kind.eqb (kind n) Kind.VARIABLE); [reflexivity|].
      assert (Hnone : forall s0, find_node fv n <> Some s0).
      { intros s0 H0. apply H2 in H0. congruence. }
      split; intros [Hv Hb]; (split; [|exact Hb]).
      * destruct Hv as [(s0 & H0 & _)|(c & sc & Hc & Hf & Hv)].
        { exfalso. exact (Hnone s0 H0). }
        exists c. split; [exact Hc|].
        destruct (H1 c (Hch c Hc)) as (s' & Hs' & Hsame).
        rewrite Hs' in Hf. inversion Hf; subst. apply Hsame. exact Hv.
      * destruct Hv as (c & Hc & Hv). right.
        destruct (H1 c (Hch c Hc)) as (s' & Hs' & Hsame).
        exists c, s'. split; [exact Hc|]. split; [exact Hs'|].
        apply Hsame. exact Hv.
    + apply Node_eqb_neq in He.
      rewrite find_node_set_node_ne in Hm by exact He.
      rewrite finish_node_other by congruence. exact (H1 m Hm).
  - intros m s Hm. destruct (Node_eqb n m) eqn:He.
    + apply Node_eqb_eq in He. subst m. apply find_node_set_node_eq.
    + apply Node_eqb_neq in He.
      rewrite find_node_set_node_ne by exact He.
      rewrite finish_node_other in Hm by congruence. exact (H2 m s Hm).
Qed.

(** X2. On the first assertion the free-variable check is exact: once the
    bound of the traversal exceeds twice the size of the assertion, an
    assertion that is not closed is reported, whatever follows it, with
    exactly its free variables, and a closed assertion alone passes. *)
Theorem free_variable_check_first_assertion :
  forall fuel a,
    (2 * node_size a < fuel)%nat ->
    (~ closed a ->
     forall rest, exists vars,
       Context.check_no_free_variables fuel (a :: rest)
       = Context.FoundFreeVariables a vars
       /\ same_elements vars (free_variables a))
    /\ (closed a ->
        Context.check_no_free_variables fuel [a] = Context.NoFreeVariables).
Proof.
  intros fuel a Hfuel.
  destruct (visits_node free_vars_good free_vars_good_enter
              free_vars_good_finish a [] [] [])
    as (steps & cache' & fv' & Hb & Hrun & [Hg1 Hg2] & Ht & _ & _).
  { split; intros; discriminate. }
  { intros c m _ _. discriminate. }
  destruct (Hg1 a (Ht a (or_introl eq_refl))) as (s & Hs & Hsame).
  assert (Hloop : Context.free_vars_loop fuel [a] [] [] = Some (cache', fv')).
  { replace fuel with (steps + S (fuel - steps - 1))%nat by lia.
    change [a] with ([a] ++ []). rewrite Hrun. reflexivity. }
  unfold Context.check_no_free_variables. split.
  - intros Hopen rest. cbn [Context.check_from]. rewrite Hloop, Hs.
    destruct s as [|v vs].
    + exfalso. apply Hopen. unfold closed.
      destruct (free_variables a) as [|w ws]; [reflexivity|].
      destruct (proj2 (Hsame w) (or_introl eq_refl)).
    + exists (v :: vs). split; [reflexivity|exact Hsame].
  - intros Hclosed. cbn [Context.check_from]. rewrite Hloop, Hs.
    destruct s as [|v vs]; [reflexivity|]. exfalso.
    pose proof (proj1 (Hsame v) (or_introl eq_refl)) as Hv.
    unfold closed in Hclosed. rewrite Hclosed in Hv. exact Hv.
Qed.

Lemma free_variable_check_first_assertion_witness :
  (exists vars,
      Context.check_no_free_variables 7 [Sample.eq_x_c; Sample.exists_x]
      = Context.FoundFreeVariables Sample.eq_x_c vars
      /\ same_elements vars (free_variables Sample.eq_x_c))
  /\ Context.check_no_free_variables 11 [Sample.exists_x]
     = Context.NoFreeVariables.
Proof.
  split.
  - apply (free_variable_check_first_assertion 7 Sample.eq_x_c).
    + vm_compute. lia.
    + unfold closed. vm_compute. discriminate.
  - apply (free_variable_check_first_assertion 11 Sample.exists_x).
    + vm_compute. lia.
    + vm_compute. reflexivity.
Defined.

Lemma check_from_completes :
  forall fuel assertions cache,
    (forall a, In a assertions -> (2 * node_size a < fuel)%nat) ->
    (forall m, find_node cache m <> Some false) ->
    Context.check_from fuel assertions cache <> Context.CheckOutOfFuel.
Proof.
  intros fuel assertions.
  induction assertions as [|a rest IH]; intros cache Hfuel Hnf;
    [discriminate|].
  destruct (visits_node (fun _ _ => True) (fun _ _ _ _ _ => Logic.I)
              (fun _ _ _ _ _ _ => Logic.I) a cache [] [] Logic.I)
    as (steps & cache' & fv' & Hb & Hrun & _ & _ & _ & Hf).
  { intros c m _ _. apply Hnf. }
  pose proof (Hfuel a (or_introl eq_refl)) as Ha.
  assert (Hloop : Context.free_vars_loop fuel [a] cache []
                  = Some (cache', fv')).
  { replace fuel with (steps + S (fuel - steps - 1))%nat by lia.
    change [a] with ([a] ++ []). rewrite Hrun. reflexivity. }
  cbn [Context.check_from]. rewrite Hloop.
  assert (Hrest : Context.check_from fuel rest cache'
                  <> Context.CheckOutOfFuel).
  { apply IH.
    - intros b Hb'. apply Hfuel. right. exact Hb'.
    - intros m Hm. apply Hf in Hm. exact (Hnf m Hm). }
  destruct (find_node fv' a) as [[|v vs]|]; try exact Hrest. discriminate.
Qed.

(** X3. The free-variable check completes once the bound of its traversal
    exceeds twice the size of the largest assertion, and then closed
    assertions pass: if every assertion is closed, the check reports no
    free variables. *)
Theorem free_variable_check_completes :
  forall fuel assertions,
    (forall a, In a assertions -> (2 * node_size a < fuel)%nat) ->
    Context.check_no_free_variables fuel assertions
    <> Context.CheckOutOfFuel
    /\ ((forall a, In a assertions -> closed a) ->
        Context.check_no_free_variables fuel assertions
        = Context.NoFreeVariables).
Proof.
  intros fuel assertions Hfuel.
  assert (Hc : Context.check_no_free_variables fuel assertions
               <> Context.CheckOutOfFuel).
  { apply check_from_completes; [exact Hfuel|]. intros m. discriminate. }
  split; [exact Hc|]. intros Hclosed.
  destruct (Context.check_no_free_variables fuel assertions)
    as [|a vars|] eqn:Hr; [reflexivity| |congruence].
  apply check_from_sound in Hr. destruct Hr as (Hin & Hne & Hv).
  exfalso. destruct vars as [|v vs]; [congruence|].
  specialize (Hv v (or_introl eq_refl)).
  pose proof (Hclosed a Hin) as Ha. unfold closed in Ha.
  rewrite Ha in Hv. exact Hv.
Qed.

Lemma free_variable_check_completes_witness :
  Context.check_no_free_variables 11 [Sample.exists_x; Sample.not_not_p]
  = Context.NoFreeVariables.
Proof.
  apply (free_variable_check_completes 11
           [Sample.exists_x; Sample.not_not_p]).
  - intros a [<-|[<-|[]]]; vm_compute; lia.
  - intros a [<-|[<-|[]]]; reflexivity.
Defined.

(** ** The function solver *)

Section FunSolverModels.

Variable state_value : Node -> Node.
Variable hash_node : Node -> Z.
Variable mk_nary : Kind.t -> list Node -> Node.

Import FunSolver.

#[local] Abbreviation new' := (Apply_new state_value hash_node).
#[local] Abbreviation rep' := (representative state_value).

Lemma same_class_sym :
  forall a b,
    same_class state_value a b = true -> same_class state_value b a = true.
Proof.
  intros a b H. apply same_class_iff in H. apply same_class_iff.
  destruct H. split; congruence.
Qed.

Lemma same_class_trans :
  forall a b c,
    same_class state_value a b = true -> same_class state_value b c = true ->
    same_class state_value a c = true.
Proof.
  intros a b c H1 H2. apply same_class_iff in H1, H2. apply same_class_iff.
  destruct H1, H2. split; congruence.
Qed.

Lemma same_class_refl : forall a, same_class state_value a a = true.
Proof. intros a. apply same_class_iff. split; reflexivity. Qed.

Lemma lemma_for_nil_iff :
  forall earlier a,
    congruent_on state_value earlier ->
    (lemma_for state_value mk_nary earlier a = []
     <-> congruent_on state_value (earlier ++ [a])).
Proof.
  intros earlier a Hc. unfold lemma_for, representative.
  destruct (List.find (fun b => same_class state_value b a) earlier)
    as [r|] eqn:Hr.
  - apply List.find_some in Hr. destruct Hr as [Hin Hra].
    destruct (Node_eqb (state_value r) (state_value a)) eqn:Hv.
    + apply Node_eqb_eq in Hv. split; [intros _|reflexivity].
      intros x y Hx Hy Hxy. apply in_app_iff in Hx, Hy.
      destruct Hx as [Hx|[<-|[]]]; destruct Hy as [Hy|[<-|[]]].
      * exact (Hc x y Hx Hy Hxy).
      * rewrite <- Hv. apply (Hc x r Hx Hin).
        apply (same_class_trans x a r Hxy). apply same_class_sym. exact Hra.
      * rewrite <- Hv. apply (Hc r y Hin Hy).
        apply (same_class_trans r a y Hra Hxy).
      * reflexivity.
    + split; [discriminate|]. intros Hc'. exfalso.
      apply Node_eqb_neq in Hv. apply Hv. apply Hc'.
      * apply in_app_iff. left. exact Hin.
      * apply in_app_iff. right. left. reflexivity.
      * exact Hra.
  - split; [intros _|reflexivity].
    intros x y Hx Hy Hxy. apply in_app_iff in Hx, Hy.
    destruct Hx as [Hx|[<-|[]]]; destruct Hy as [Hy|[<-|[]]].
    + exact (Hc x y Hx Hy Hxy).
    + pose proof (List.find_none _ _ Hr x Hx) as Hn. cbv beta in Hn.
      congruence.
    + pose proof (List.find_none _ _ Hr y Hy) as Hn. cbv beta in Hn.
      apply same_class_sym in Hxy. congruence.
    + reflexivity.
Qed.

Lemma expected_lemmas_nil_iff :
  forall todo earlier,
    congruent_on state_value earlier ->
    (expected_lemmas state_value mk_nary earlier todo = []
     <-> congruent_on state_value (earlier ++ todo)).
Proof.
  induction todo as [|a rest IH]; intros earlier Hc.
  - rewrite app_nil_r. simpl. split; auto.
  - cbn [expected_lemmas]. split.
    + intros H. apply app_eq_nil in H. destruct H as [H1 H2].
      apply (lemma_for_nil_iff earlier a Hc) in H1.
      apply (IH _ H1) in H2. rewrite <- app_assoc in H2. exact H2.
    + intros H.
      assert (H1 : congruent_on state_value (earlier ++ [a])).
      { intros x y Hx Hy. apply H; apply in_app_iff.
        - apply in_app_iff in Hx. destruct Hx as [Hx|[<-|[]]]; auto.
          right. left. reflexivity.
        - apply in_app_iff in Hy. destruct Hy as [Hy|[<-|[]]]; auto.
          right. left. reflexivity. }
      rewrite (proj2 (lemma_for_nil_iff earlier a Hc) H1).
      apply (IH _ H1). rewrite <- app_assoc. exact H.
Qed.

Lemma expected_lemmas_In :
  forall todo earlier l,
    In l (expected_lemmas state_value mk_nary earlier todo) ->
    exists a b,
      In a todo /\ In b (earlier ++ todo)
      /\ l = congruence_lemma mk_nary a b
      /\ same_class state_value b a = true
      /\ state_value b <> state_value a.
Proof.
  induction todo as [|a rest IH]; intros earlier l H; [destruct H|].
  cbn [expected_lemmas] in H. apply in_app_iff in H. destruct H as [H|H].
  - unfold lemma_for, representative in H.
    destruct (List.find (fun b => same_class state_value b a) earlier)
      as [r|] eqn:Hr; [|destruct H].
    apply List.find_some in Hr. destruct Hr as [Hin Hra].
    destruct (Node_eqb (state_value r) (state_value a)) eqn:Hv;
      [destruct H|].
    destruct H as [<-|[]]. exists a, r.
    split; [left; reflexivity|]. split; [apply in_app_iff; auto|].
    split; [reflexivity|]. split; [exact Hra|].
    apply Node_eqb_neq. exact Hv.
  - destruct (IH _ _ H) as (x & y & Hx & Hy & Hl & Hc & Hv).
    exists x, y. split; [right; exact Hx|]. split; [|auto].
    rewrite <- app_assoc in Hy. exact Hy.
Qed.

Lemma check_result :
  forall (st : State) (growth : list (list Node)),
    applies_wf (d_applies st ++ concat growth) ->
    exists st',
      check state_value hash_node mk_nary st growth = Ok st'
      /\ incl (d_applies st) (d_applies st')
      /\ incl (d_applies st') (d_applies st ++ concat growth)
      /\ lemmas st'
         = lemmas st
           ++ expected_lemmas state_value mk_nary [] (d_applies st').
Proof.
  intros st growth Hwf. unfold check.
  destruct (check_loop_spec state_value hash_node mk_nary
              (d_applies st ++ concat growth)
              (List.length (d_applies st) + List.length (concat growth))
              (d_applies st) growth [] [] (lemmas st))
    as (st' & extra & Hloop & Happ & Hextra & Hlem).
  - exact Hwf.
  - simpl. apply incl_refl.
  - lia.
  - intros a f args _ _. reflexivity.
  - exists st'. simpl in Happ. split; [exact Hloop|].
    split; [rewrite Happ; apply incl_appl, incl_refl|].
    split; [|rewrite Hlem, Happ; reflexivity].
    rewrite Happ. apply incl_app; [apply incl_appl, incl_refl|].
    apply incl_appr. rewrite Hextra. intros x Hx.
    apply in_concat in Hx. destruct Hx as (g & Hg & Hx).
    apply in_concat. exists g. split; [|exact Hx].
    revert Hg. generalize (List.length (d_applies st) + List.length extra)%nat.
    clear. intros n. revert growth.
    induction n as [|n IH]; intros [|g' gs] H; simpl in H; try contradiction.
    destruct H as [<-|H]; [left; reflexivity|right; auto].
Qed.

End FunSolverModels.

(** X4. [check] sends no new lemma exactly when the model is congruent on
    the registered applications, those registered while it runs included:
    any two of them that apply the same function to arguments of equal
    value have the same value. *)
Theorem check_silent_iff_congruent :
  forall (state_value : Node -> Node) (hash_node : Node -> Z)
         (mk_nary : Kind.t -> list Node -> Node)
         (st : FunSolver.State) (growth : list (list Node)),
    FunSolver.applies_wf (FunSolver.d_applies st ++ concat growth) ->
    exists st',
      FunSolver.check state_value hash_node mk_nary st growth = Ok st'
      /\ (FunSolver.lemmas st' = FunSolver.lemmas st
          <-> congruent_on state_value (FunSolver.d_applies st')).
Proof.
  intros state_value hash_node mk_nary st growth Hwf.
  destruct (check_result state_value hash_node mk_nary st growth Hwf)
    as (st' & Hcheck & _ & _ & Hlem).
  exists st'. split; [exact Hcheck|]. rewrite Hlem.
  rewrite <- (expected_lemmas_nil_iff state_value mk_nary
                (FunSolver.d_applies st') []).
  - split.
    + intros H. rewrite <- (app_nil_r (FunSolver.lemmas st)) in H at 2.
      apply app_inv_head in H. exact H.
    + intros ->. apply app_nil_r.
  - intros a b [].
Qed.

Lemma check_silent_iff_congruent_witness :
  exists st',
    FunSolver.check Sample.state_value Sample.hash_node Sample.mk_nary
      Sample.fun_solver_two [[Sample.app_d]] = Ok st'
    /\ FunSolver.lemmas st' <> []
    /\ ~ congruent_on Sample.state_value (FunSolver.d_applies st').
Proof.
  assert (Hwf : FunSolver.applies_wf
                  (FunSolver.d_applies Sample.fun_solver_two
                   ++ concat [[Sample.app_d]])).
  { split.
    - repeat constructor; discriminate.
    - simpl. intros a b Ha Hb _.
      repeat (destruct Ha as [<-|Ha]; [|]);
        try contradiction;
        repeat (destruct Hb as [<-|Hb]; [|]);
        try contradiction; reflexivity. }
  destruct (check_silent_iff_congruent Sample.state_value
              Sample.hash_node Sample.mk_nary Sample.fun_solver_two
              [[Sample.app_d]] Hwf)
    as (st' & Hcheck & Hiff).
  exists st'. split; [exact Hcheck|].
  assert (Hne : FunSolver.lemmas st' <> []).
  { vm_compute in Hcheck. inversion Hcheck; subst st'. discriminate. }
  split; [exact Hne|]. intros Hc. apply Hiff in Hc. apply Hne. exact Hc.
Defined.

(** X5. Every lemma [check] sends is the congruence lemma of two
    registered applications of the same function whose arguments have
    pairwise equal values and whose own values differ. *)
Theorem check_lemmas_are_conflicts :
  forall (state_value : Node -> Node) (hash_node : Node -> Z)
         (mk_nary : Kind.t -> list Node -> Node)
         (st : FunSolver.State) (growth : list (list Node)),
    FunSolver.applies_wf (FunSolver.d_applies st ++ concat growth) ->
    exists st' sent,
      FunSolver.check state_value hash_node mk_nary st growth = Ok st'
      /\ FunSolver.lemmas st' = FunSolver.lemmas st ++ sent
      /\ forall l, In l sent ->
           exists a b,
             In a (FunSolver.d_applies st')
             /\ In b (FunSolver.d_applies st')
             /\ l = FunSolver.congruence_lemma mk_nary a b
             /\ FunSolver.same_class state_value b a = true
             /\ state_value b <> state_value a.
Proof.
  intros state_value hash_node mk_nary st growth Hwf.
  destruct (check_result state_value hash_node mk_nary st growth Hwf)
    as (st' & Hcheck & _ & _ & Hlem).
  exists st', (FunSolver.expected_lemmas state_value mk_nary []
                 (FunSolver.d_applies st')).
  split; [exact Hcheck|]. split; [exact Hlem|]. intros l Hl.
  destruct (expected_lemmas_In state_value mk_nary _ _ _ Hl)
    as (a & b & Ha & Hb & Heq & Hc & Hv).
  exists a, b. auto.
Qed.

Lemma check_lemmas_are_conflicts_witness :
  exists st',
    FunSolver.check Sample.state_value Sample.hash_node Sample.mk_nary
      Sample.fun_solver [] = Ok st'
    /\ forall l, In l (FunSolver.lemmas st') ->
         exists a b,
           In a (FunSolver.d_applies st') /\ In b (FunSolver.d_applies st')
           /\ l = FunSolver.congruence_lemma Sample.mk_nary a b
           /\ Sample.state_value b <> Sample.state_value a.
Proof.
  assert (Hwf : FunSolver.applies_wf
                  (FunSolver.d_applies Sample.fun_solver ++ concat [])).
  { split.
    - repeat constructor; discriminate.
    - simpl. intros a b Ha Hb _.
      repeat (destruct Ha as [<-|Ha]; [|]);
        try contradiction;
        repeat (destruct Hb as [<-|Hb]; [|]);
        try contradiction; reflexivity. }
  destruct (check_lemmas_are_conflicts Sample.state_value
              Sample.hash_node Sample.mk_nary Sample.fun_solver [] Hwf)
    as (st' & sent & Hcheck & Hlem & Hsent).
  exists st'. split; [exact Hcheck|]. intros l Hl.
  rewrite Hlem in Hl. cbn [Sample.fun_solver FunSolver.lemmas app] in Hl.
  destruct (Hsent l Hl) as (a & b & Ha & Hb & Heq & _ & Hv).
  exists a, b. auto.
Defined.

Section FunSolverContent.

Variable state_value : Node -> Node.
Variable hash_node : Node -> Z.
Variable mk_nary : Kind.t -> list Node -> Node.

Import FunSolver.

#[local] Abbreviation mk_apply := (Apply_new state_value hash_node).
#[local] Abbreviation first_of := (representative state_value).

(** What one round of the loop does to the function models: the model of
    the function applied gets an entry when the application is the first
    of its class, and exists afterwards in any case. *)
Lemma check_step_models :
  forall L examined models sent x f args models' sent',
    In x L -> children x = f :: args ->
    models_inv state_value hash_node L examined models ->
    check_step state_value hash_node mk_nary x (models, sent)
    = Ok (models', sent') ->
    (forall g,
        fun_model_of models' g
        = fun_model_of models g
          ++ (if Node_eqb f g
              then match first_of examined x with
                   | None => [mk_apply x]
                   | Some _ => []
                   end
              else []))
    /\ (forall g, find_node models' g = None
                  <-> find_node models g = None /\ Node_eqb f g = false).
Proof.
  intros L examined models sent x f args models' sent' Hx Hch Hinv Hstep.
  unfold check_step, child in Hstep. rewrite Hch in Hstep.
  cbn [nth_error obind] in Hstep.
  rewrite (Hinv x f args Hx Hch) in Hstep. cbn [obind] in Hstep.
  assert (Hkeys : forall fm g,
            find_node (set_node models f fm) g = None
            <-> find_node models g = None /\ Node_eqb f g = false).
  { intros fm g. rewrite find_node_set_node.
    destruct (Node_eqb f g); split; try discriminate; try tauto.
    intros [_ H]. discriminate. }
  destruct (first_of examined x) as [b|] eqn:Hrep;
    cbn [option_map] in Hstep.
  - assert (Hm : models' = set_node models f (fun_model_of models f)).
    { destruct (negb _) in Hstep; [|inversion Hstep; reflexivity].
      destruct (add_function_congruence_lemma _ _ _ _) in Hstep;
        try discriminate.
      cbn [obind] in Hstep. inversion Hstep. reflexivity. }
    subst models'. split; [|apply Hkeys].
    intros g. rewrite fun_model_of_set.
    destruct (Node_eqb f g) eqn:Hfg; rewrite app_nil_r; [|reflexivity].
    apply Node_eqb_eq in Hfg. subst g. reflexivity.
  - inversion Hstep; subst. split; [|apply Hkeys].
    intros g. rewrite fun_model_of_set.
    destruct (Node_eqb f g) eqn:Hfg; [|rewrite app_nil_r; reflexivity].
    apply Node_eqb_eq in Hfg. subst g. reflexivity.
Qed.

Lemma class_firsts_app :
  forall t1 t2 earlier,
    class_firsts state_value earlier (t1 ++ t2)
    = class_firsts state_value earlier t1
      ++ class_firsts state_value (earlier ++ t1) t2.
Proof.
  induction t1 as [|a t1 IH]; intros t2 earlier; simpl.
  - rewrite app_nil_r. reflexivity.
  - rewrite IH, <- !app_assoc. reflexivity.
Qed.

Lemma applies_of_app :
  forall g l1 l2, applies_of g (l1 ++ l2) = applies_of g l1 ++ applies_of g l2.
Proof. intros. apply List.filter_app. Qed.

Lemma applies_of_single :
  forall g x f args,
    children x = f :: args ->
    applies_of g [x] = if Node_eqb f g then [x] else [].
Proof.
  intros g x f args Hch. unfold applies_of. cbn [List.filter].
  rewrite Hch. cbn [firstn nodes_eqb]. rewrite andb_true_r. reflexivity.
Qed.

Lemma check_loop_models :
  forall L fuel pending growth examined models sent st',
    applies_wf L ->
    incl (examined ++ pending ++ concat growth) L ->
    models_inv state_value hash_node L examined models ->
    (forall g, fun_model_of models g
               = map mk_apply
                   (applies_of g (class_firsts state_value [] examined))) ->
    (forall g, find_node models g = None <-> applies_of g examined = []) ->
    check_loop state_value hash_node mk_nary fuel pending growth examined
      (models, sent) = Ok st' ->
    (forall g, fun_model_of (d_fun_models st') g
               = map mk_apply
                   (applies_of g
                      (class_firsts state_value [] (d_applies st'))))
    /\ (forall g, find_node (d_fun_models st') g = None
                  <-> applies_of g (d_applies st') = []).
Proof.
  intros L fuel. induction fuel as [|fuel IH];
    intros pending growth examined models sent st' Hwf Hincl Hinv Hcont
           Hkeys Hloop.
  - destruct pending as [|x rest]; [|discriminate].
    inversion Hloop; subst. simpl. split; assumption.
  - destruct pending as [|x rest].
    + inversion Hloop; subst. simpl. split; assumption.
    + cbn [check_loop] in Hloop.
      assert (Hx : In x L).
      { apply Hincl. apply in_or_app. right. left. reflexivity. }
      assert (Hex : incl examined L).
      { intros y Hy. apply Hincl. apply in_or_app. left. exact Hy. }
      destruct (check_step_spec state_value hash_node mk_nary
                  L examined models sent x Hwf Hex Hx Hinv)
        as (models' & Hstep & Hinv').
      rewrite Hstep in Hloop. cbn [obind] in Hloop.
      destruct Hwf as [Hwf1 Hwf2].
      destruct (proj1 (List.Forall_forall _ _) Hwf1 x Hx) as [_ Hcx].
      destruct (children x) as [|f args] eqn:Hch; [contradiction|].
      destruct (check_step_models L examined models sent x f args models'
                  _ Hx Hch Hinv Hstep) as [Hcont' Hkeys'].
      apply (IH _ _ _ _ _ _ (conj Hwf1 Hwf2)) in Hloop; auto.
      * intros y Hy. apply Hincl. rewrite (concat_hd_tl growth).
        rewrite <- !app_assoc in Hy. exact Hy.
      * intros g. rewrite Hcont', Hcont, class_firsts_app, applies_of_app.
        rewrite List.map_app. f_equal. cbn [class_firsts app].
        rewrite app_nil_r.
        destruct (Node_eqb f g) eqn:Hfg.
        -- destruct (first_of examined x); [reflexivity|].
           rewrite (applies_of_single g x f args Hch), Hfg. reflexivity.
        -- destruct (first_of examined x); [reflexivity|].
           rewrite (applies_of_single g x f args Hch), Hfg. reflexivity.
      * intros g. rewrite Hkeys', Hkeys, applies_of_app.
        rewrite (applies_of_single g x f args Hch).
        destruct (Node_eqb f g); split.
        -- intros [_ H]. discriminate.
        -- intros H. apply app_eq_nil in H. destruct H. discriminate.
        -- intros [H _]. rewrite H. reflexivity.
        -- intros H. apply app_eq_nil in H. destruct H. auto.
Qed.

Lemma check_models :
  forall (st : State) (growth : list (list Node)) st',
    applies_wf (d_applies st ++ concat growth) ->
    check state_value hash_node mk_nary st growth = Ok st' ->
    (forall g, fun_model_of (d_fun_models st') g
               = map mk_apply
                   (applies_of g
                      (class_firsts state_value [] (d_applies st'))))
    /\ (forall g, find_node (d_fun_models st') g = None
                  <-> applies_of g (d_applies st') = []).
Proof.
  intros st growth st' Hwf Hcheck. unfold check in Hcheck.
  eapply check_loop_models; [exact Hwf| | | | |exact Hcheck].
  - simpl. apply incl_refl.
  - intros a f args _ _. reflexivity.
  - intros g. reflexivity.
  - intros g. split; reflexivity.
Qed.

End FunSolverContent.

(** X6. After [check], whatever the function models held before, the
    model of each function holds exactly one entry per class of its
    examined applications: the first application examined in the class,
    with the values of its arguments and its own value. *)
Theorem check_models_hold_class_firsts :
  forall (state_value : Node -> Node) (hash_node : Node -> Z)
         (mk_nary : Kind.t -> list Node -> Node)
         (st : FunSolver.State) (growth : list (list Node)),
    FunSolver.applies_wf (FunSolver.d_applies st ++ concat growth) ->
    exists st',
      FunSolver.check state_value hash_node mk_nary st growth = Ok st'
      /\ forall f,
           Permutation
             (FunSolver.fun_model_of (FunSolver.d_fun_models st') f)
             (map (FunSolver.Apply_new state_value hash_node)
                (applies_of f
                   (class_firsts state_value []
                      (FunSolver.d_applies st')))).
Proof.
  intros state_value hash_node mk_nary st growth Hwf.
  destruct (check_result state_value hash_node mk_nary st growth Hwf)
    as (st' & Hcheck & _).
  exists st'. split; [exact Hcheck|]. intros f.
  rewrite (proj1 (check_models state_value hash_node mk_nary st growth st'
                    Hwf Hcheck) f).
  apply Permutation_refl.
Qed.

Lemma check_models_hold_class_firsts_witness :
  exists st',
    FunSolver.check Sample.state_value Sample.hash_node Sample.mk_nary
      Sample.fun_solver [] = Ok st'
    /\ Permutation
         (FunSolver.fun_model_of (FunSolver.d_fun_models st') Sample.fn)
         [FunSolver.Apply_new Sample.state_value Sample.hash_node
            Sample.app_a].
Proof.
  assert (Hwf : FunSolver.applies_wf
                  (FunSolver.d_applies Sample.fun_solver ++ concat [])).
  { split.
    - repeat constructor; discriminate.
    - simpl. intros a b Ha Hb _.
      repeat (destruct Ha as [<-|Ha]; [|]);
        try contradiction;
        repeat (destruct Hb as [<-|Hb]; [|]);
        try contradiction; reflexivity. }
  destruct (check_models_hold_class_firsts Sample.state_value
              Sample.hash_node Sample.mk_nary Sample.fun_solver [] Hwf)
    as (st' & Hcheck & Hmodel).
  exists st'. split; [exact Hcheck|].
  pose proof (Hmodel Sample.fn) as Hfn.
  vm_compute in Hcheck. inversion Hcheck; subst st'. exact Hfn.
Defined.

Lemma applies_of_none :
  forall f l,
    (forall a, In a l -> firstn 1 (children a) <> [f]) ->
    applies_of f l = [].
Proof.
  intros f l. induction l as [|a l IH]; intros H; [reflexivity|].
  unfold applies_of. cbn [List.filter].
  destruct (nodes_eqb (firstn 1 (children a)) [f]) eqn:He.
  - apply nodes_eqb_true_iff in He. exfalso.
    exact (H a (or_introl eq_refl) He).
  - apply IH. intros b Hb. apply H. right. exact Hb.
Qed.

(** X7. The value of a function that no registered application applies
    is, after [check], the default value of its type: no lambda is built
    for it, whatever the function models held before. *)
Theorem value_of_unapplied_function :
  forall (state_value : Node -> Node) (hash_node : Node -> Z)
         (mk_nary : Kind.t -> list Node -> Node)
         (type_of : Node -> Ty) (mk_var : nat -> Ty -> Node)
         (mk_default_value : Ty -> Node)
         (mk_binder : Kind.t -> list Node -> Node)
         (st : FunSolver.State) (growth : list (list Node)) (f : Node),
    FunSolver.applies_wf (FunSolver.d_applies st ++ concat growth) ->
    Ty_is_fun (type_of f) = true ->
    (forall a, In a (FunSolver.d_applies st ++ concat growth) ->
               firstn 1 (children a) <> [f]) ->
    exists st',
      FunSolver.check state_value hash_node mk_nary st growth = Ok st'
      /\ FunSolver.value mk_nary type_of mk_var mk_default_value mk_binder
           st' f
         = Ok (mk_default_value (type_of f)).
Proof.
  intros state_value hash_node mk_nary type_of mk_var mk_default_value
         mk_binder st growth f Hwf Hfun Hnone.
  destruct (check_result state_value hash_node mk_nary st growth Hwf)
    as (st' & Hcheck & _ & Hincl & _).
  exists st'. split; [exact Hcheck|].
  destruct (check_models state_value hash_node mk_nary st growth st'
              Hwf Hcheck) as [_ Hkeys].
  unfold FunSolver.value. rewrite Hfun. cbn [oassert obind].
  rewrite (proj2 (Hkeys f)); [reflexivity|].
  apply applies_of_none. intros a Ha. apply Hnone. apply Hincl. exact Ha.
Qed.

Lemma value_of_unapplied_function_witness :
  exists st',
    FunSolver.check Sample.state_value Sample.hash_node Sample.mk_nary
      {| FunSolver.d_applies := [Sample.app_a; Sample.app_b];
         FunSolver.d_fun_models :=
           [(Sample.q,
             [FunSolver.Apply_new Sample.state_value Sample.hash_node
                Sample.app_a])];
         FunSolver.lemmas := [] |} [] = Ok st'
    /\ FunSolver.value Sample.mk_nary (fun _ => TFun [TBV 8; TBV 8])
         Sample.mk_var Sample.mk_default_value Sample.mk_binder st' Sample.q
       = Ok (Sample.mk_default_value (TFun [TBV 8; TBV 8])).
Proof.
  apply (value_of_unapplied_function Sample.state_value Sample.hash_node
           Sample.mk_nary (fun _ => TFun [TBV 8; TBV 8])).
  - split.
    + repeat constructor; discriminate.
    + simpl. intros a b Ha Hb _.
      repeat (destruct Ha as [<-|Ha]; [|]);
        try contradiction;
        repeat (destruct Hb as [<-|Hb]; [|]);
        try contradiction; reflexivity.
  - reflexivity.
  - simpl. intros a [<-|[<-|[]]]; discriminate.
Defined.

(** ** The traversal of [solve] and [ensure_model] *)

Lemma collect_consts_nil :
  forall fuel process cache terms need_check,
    Context.collect_consts (S fuel) process [] cache terms need_check
    = Some (cache, terms, need_check).
Proof. reflexivity. Qed.

Lemma collect_consts_seen :
  forall fuel process cur rest cache terms need_check,
    mem cache cur = true ->
    Context.collect_consts (S fuel) process (cur :: rest) cache terms
      need_check
    = Context.collect_consts fuel process rest cache terms need_check.
Proof. intros. cbn [Context.collect_consts]. rewrite H. reflexivity. Qed.

Lemma is_quantifier_not_const :
  forall n, (negb (is_const n) && is_quantifier n)%bool = is_quantifier n.
Proof.
  intros n. unfold is_const, is_quantifier.
  destruct (kind n); reflexivity.
Qed.

Lemma collect_consts_new :
  forall fuel process cur rest cache terms need_check,
    mem cache cur = false ->
    Context.collect_consts (S fuel) process (cur :: rest) cache terms
      need_check
    = Context.collect_consts fuel process (rev (children cur) ++ rest)
        (cache ++ [cur])
        (terms ++ map process (List.filter is_const [cur]))
        (need_check || existsb is_quantifier [cur]).
Proof.
  intros. cbn [Context.collect_consts]. rewrite H.
  cbn [List.filter existsb]. rewrite orb_false_r.
  fold (is_quantifier cur). rewrite is_quantifier_not_const.
  destruct (is_const cur); cbn [map]; [reflexivity|].
  rewrite app_nil_r. reflexivity.
Qed.

Lemma NoDup_append :
  forall (l1 l2 : list Node),
    List.NoDup l1 -> List.NoDup l2 -> (forall a, In a l2 -> ~ In a l1) ->
    List.NoDup (l1 ++ l2).
Proof.
  induction l1 as [|a l1 IH]; intros l2 H1 H2 Hd; [exact H2|].
  inversion H1 as [|? ? Ha Hl1]; subst. simpl. constructor.
  - intros Hin. apply in_app_iff in Hin. destruct Hin as [Hin|Hin].
    + exact (Ha Hin).
    + apply (Hd a Hin). left. reflexivity.
  - apply IH; [exact Hl1|exact H2|].
    intros b Hb Hin. apply (Hd b Hb). right. exact Hin.
Qed.

Lemma In_dec_set : forall (s : NodeSet) n, In n s \/ ~ In n s.
Proof.
  intros s n. destruct (mem s n) eqn:Hm.
  - left. apply mem_In. exact Hm.
  - right. intros H. apply mem_In in H. congruence.
Qed.

Lemma fresh_subterms_nil : forall cache, fresh_subterms [] cache [].
Proof.
  intros cache. split; [constructor|]. intros k. split; [intros []|].
  intros [(c & [] & _) _].
Qed.

Lemma fresh_subterms_cons :
  forall c l cache new1 new2,
    fresh_subterms [c] cache new1 ->
    fresh_subterms l (cache ++ new1) new2 ->
    fresh_subterms (c :: l) cache (new1 ++ new2).
Proof.
  intros c l cache new1 new2 [Hn1 H1] [Hn2 H2]. split.
  - apply NoDup_append; [exact Hn1|exact Hn2|].
    intros a Ha Hin. apply H2 in Ha. destruct Ha as [_ Ha].
    apply Ha. apply in_app_iff. right. exact Hin.
  - intros k. rewrite in_app_iff, H1, H2. split.
    + intros [[(c' & [<-|[]] & Hs) Hc]|[(c' & Hc' & Hs) Hc]].
      * split; [exists c; split; [left; reflexivity|exact Hs]|exact Hc].
      * split; [exists c'; split; [right; exact Hc'|exact Hs]|].
        intros Hin. apply Hc. apply in_app_iff. left. exact Hin.
    + intros [(c' & [<-|Hc'] & Hs) Hc].
      * left. split; [exists c; split; [left; reflexivity|exact Hs]|exact Hc].
      * destruct (In_dec_set new1 k) as [Hin|Hout].
        -- left. apply H1. exact Hin.
        -- right. split; [exists c'; split; assumption|].
           intros Hin. apply in_app_iff in Hin. tauto.
Qed.

Lemma closed_below_after :
  forall c c' cache new1,
    closed_below cache c' ->
    fresh_subterms [c] cache new1 ->
    closed_below (cache ++ new1) c'.
Proof.
  intros c c' cache new1 Hcl [_ H1] m Hm Hin k Hk.
  apply in_app_iff in Hin. apply in_app_iff. destruct Hin as [Hin|Hin].
  - left. exact (Hcl m Hm Hin k Hk).
  - destruct (In_dec_set cache k) as [Hc|Hc]; [left; exact Hc|].
    right. apply H1. split; [|exact Hc].
    apply H1 in Hin. destruct Hin as [(c0 & [<-|[]] & Hs) _].
    exists c. split; [left; reflexivity|].
    exact (subterm_trans c m k Hs Hk).
Qed.

Lemma collect_visits_list :
  forall l,
    Forall (fun c => collect_visits [c] (node_size c)) l ->
    collect_visits l (nodes_size l).
Proof.
  induction l as [|c l IH]; intros Hall process cache terms nc rest Hcl.
  - exists O, []. split; [simpl; lia|]. split.
    + intros fuel. cbn [app Nat.add List.filter map existsb].
      rewrite !app_nil_r, orb_false_r. reflexivity.
    + apply fresh_subterms_nil.
  - inversion Hall as [|? ? Hc Hl]; subst.
    destruct (Hc process cache terms nc (l ++ rest))
      as (s1 & new1 & Hb1 & Hrun1 & Hf1).
    { intros c' [<-|[]]. apply Hcl. left. reflexivity. }
    destruct (IH Hl process (cache ++ new1)
                (terms ++ map process (List.filter is_const new1))
                (nc || existsb is_quantifier new1)%bool rest)
      as (s2 & new2 & Hb2 & Hrun2 & Hf2).
    { intros c' Hc'. apply (closed_below_after c); [|exact Hf1].
      apply Hcl. right. exact Hc'. }
    exists (s1 + s2)%nat, (new1 ++ new2). split.
    { change (nodes_size (c :: l)) with (node_size c + nodes_size l)%nat.
      lia. }
    split; [|apply fresh_subterms_cons; assumption].
    intros fuel.
    replace (s1 + s2 + fuel)%nat with (s1 + (s2 + fuel))%nat by lia.
    change ((c :: l) ++ rest) with ([c] ++ (l ++ rest)).
    rewrite Hrun1, Hrun2.
    rewrite List.filter_app, List.map_app, existsb_app.
    rewrite <- !app_assoc, orb_assoc. reflexivity.
Qed.

Lemma collect_visits_node : forall n, collect_visits [n] (node_size n).
Proof.
  induction n as [k p cs IH] using Node_induction.
  set (n := Nd k p cs). intros process cache terms nc rest Hcl.
  specialize (Hcl n (or_introl eq_refl)).
  destruct (mem cache n) eqn:Hn.
  - exists 1%nat, []. split; [subst n; rewrite node_size_eq; lia|]. split.
    + intros fuel. change ([n] ++ rest) with (n :: rest).
      cbn [Nat.add List.filter map existsb].
      rewrite !app_nil_r, orb_false_r.
      apply collect_consts_seen. exact Hn.
    + split; [constructor|]. intros m. split; [intros []|].
      intros [(c & [<-|[]] & Hs) Hout]. apply Hout.
      apply mem_In in Hn. exact (Hcl n (subterm_refl n) Hn m Hs).
  - assert (Hout : ~ In n cache).
    { intros H. apply mem_In in H. congruence. }
    assert (Hall : Forall (fun c => collect_visits [c] (node_size c))
                     (rev cs)).
    { apply List.Forall_forall. intros c Hc. apply in_rev in Hc.
      rewrite List.Forall_forall in IH. exact (IH c Hc). }
    assert (Hproper : forall c m, In c cs -> subterm m c -> m <> n).
    { intros c m Hc Hm ->.
      pose proof (subterm_child_size n c n Hc Hm). lia. }
    destruct (collect_visits_list (rev cs) Hall process (cache ++ [n])
                (terms ++ map process (List.filter is_const [n]))
                (nc || existsb is_quantifier [n])%bool rest)
      as (sl & newl & Hbl & Hrunl & [Hndl Hfl]).
    { intros c Hc m Hm Hin j Hj. apply in_rev in Hc.
      apply in_app_iff in Hin. apply in_app_iff. left.
      destruct Hin as [Hin|[Heq|[]]].
      - apply (Hcl m); [|exact Hin|exact Hj].
        apply subterm_iff. right. exists c. split; assumption.
      - exfalso. exact (Hproper c m Hc Hm (eq_sym Heq)). }
    exists (S sl), (n :: newl). split.
    { rewrite nodes_size_rev in Hbl. subst n. rewrite node_size_eq. lia. }
    split.
    { intros fuel. change ([n] ++ rest) with (n :: rest).
      cbn [Nat.add]. rewrite collect_consts_new by exact Hn.
      change (children n) with cs. rewrite Hrunl.
      change (n :: newl) with ([n] ++ newl).
      rewrite List.filter_app, List.map_app, existsb_app.
      rewrite <- !app_assoc, orb_assoc. reflexivity. }
    split.
    { constructor; [|exact Hndl]. intros Hin. apply Hfl in Hin.
      destruct Hin as [_ Hin]. apply Hin. apply in_app_iff. right.
      left. reflexivity. }
    intros m. split.
    + intros [<-|Hin].
      * split; [|exact Hout]. exists n.
        split; [left; reflexivity|apply subterm_refl].
      * apply Hfl in Hin. destruct Hin as [(c & Hc & Hs) Hnot].
        apply in_rev in Hc. split.
        -- exists n. split; [left; reflexivity|].
           apply subterm_iff. right. exists c. split; assumption.
        -- intros Hin. apply Hnot. apply in_app_iff. left. exact Hin.
    + intros [(c & [<-|[]] & Hs) Hnot].
      apply subterm_iff in Hs. destruct Hs as [->|(c & Hc & Hs)].
      * left. reflexivity.
      * right. apply Hfl. split.
        -- exists c. split; [apply in_rev; rewrite rev_involutive|];
             assumption.
        -- intros Hin. apply in_app_iff in Hin.
           destruct Hin as [Hin|[Heq|[]]]; [exact (Hnot Hin)|].
           exact (Hproper c m Hc Hs (eq_sym Heq)).
Qed.

Lemma collect_all_spec :
  forall fuel process assertions cache terms need_check,
    (forall a, In a assertions -> (node_size a < fuel)%nat) ->
    (forall a, In a assertions -> closed_below cache a) ->
    exists new,
      Context.collect_all fuel process assertions cache terms need_check
      = Some (terms ++ map process (List.filter is_const new),
              (need_check || existsb is_quantifier new)%bool)
      /\ fresh_subterms assertions cache new.
Proof.
  intros fuel process assertions.
  induction assertions as [|a rest IH]; intros cache terms nc Hfuel Hcl.
  - exists []. cbn [Context.collect_all List.filter map existsb].
    rewrite app_nil_r, orb_false_r. split; [reflexivity|].
    apply fresh_subterms_nil.
  - destruct (collect_visits_node a process cache terms nc [])
      as (steps & new1 & Hb & Hrun & Hf1).
    { intros c [<-|[]]. apply Hcl. left. reflexivity. }
    pose proof (Hfuel a (or_introl eq_refl)) as Ha.
    destruct (IH (cache ++ new1)
                (terms ++ map process (List.filter is_const new1))
                (nc || existsb is_quantifier new1)%bool)
      as (new2 & Hall & Hf2).
    { intros b Hb'. apply Hfuel. right. exact Hb'. }
    { intros b Hb'. apply (closed_below_after a); [|exact Hf1].
      apply Hcl. right. exact Hb'. }
    exists (new1 ++ new2). split; [|apply fresh_subterms_cons; assumption].
    cbn [Context.collect_all].
    replace fuel with (steps + S (fuel - steps - 1))%nat at 1 by lia.
    change [a] with ([a] ++ []). rewrite Hrun, collect_consts_nil, Hall.
    rewrite List.filter_app, List.map_app, existsb_app.
    rewrite <- !app_assoc, orb_assoc. reflexivity.
Qed.

(** The traversal started with nothing visited, as [solve] and
    [ensure_model] start it. *)
Lemma collect_all_fresh :
  forall fuel process assertions,
    (forall a, In a assertions -> (node_size a < fuel)%nat) ->
    exists visited,
      Context.collect_all fuel process assertions [] [] false
      = Some (map process (List.filter is_const visited),
              existsb is_quantifier visited)
      /\ List.NoDup visited
      /\ forall k, In k visited
                   <-> exists a, In a assertions /\ subterm k a.
Proof.
  intros fuel process assertions Hfuel.
  destruct (collect_all_spec fuel process assertions [] [] false Hfuel)
    as (new & Hall & Hnd & Hin).
  { intros a _ m _ []. }
  exists new. split; [exact Hall|]. split; [exact Hnd|].
  intros k. rewrite Hin. split; [intros [H _]; exact H|].
  intros H. split; [exact H|]. intros [].
Qed.

Lemma ensure_model_spec :
  forall (PassState Engine : Type) (pp_process : PassState -> Node -> Node)
         (engine_ensure_model : Engine -> list Node -> Engine)
         (fuel : nat) (ctx : Context.SolvingContext PassState Engine),
    (forall a, In a (Context.original_assertions ctx) ->
               (node_size a < fuel)%nat) ->
    exists visited,
      List.NoDup visited
      /\ (forall k, In k visited
                    <-> exists a, In a (Context.original_assertions ctx)
                                  /\ subterm k a)
      /\ Context.ensure_model PassState pp_process Engine
           engine_ensure_model fuel ctx
         = Ok (if existsb is_quantifier visited
               then Context.with_engine PassState Engine ctx
                      (engine_ensure_model (Context.d_solver_engine ctx)
                         (map (pp_process
                                 (Preprocess.d_passes
                                    (Context.d_preprocessor ctx)))
                              (List.filter is_const visited)))
                      (Context.d_sat_state ctx)
               else ctx).
Proof.
  intros PassState Engine pp_process engine_ensure_model fuel ctx Hfuel.
  destruct (collect_all_fresh fuel
              (pp_process (Preprocess.d_passes (Context.d_preprocessor ctx)))
              (Context.original_assertions ctx) Hfuel)
    as (visited & Hall & Hnd & Hin).
  exists visited. split; [exact Hnd|]. split; [exact Hin|].
  unfold Context.ensure_model. rewrite Hall.
  destruct (existsb is_quantifier visited); reflexivity.
Qed.



Lemma preprocess_keeps_originals :
  forall (PassState Engine : Type) pass_apply fuel
         (ctx ctx1 : Context.SolvingContext PassState Engine) r1,
    Context.preprocess pass_apply fuel ctx = Ok (ctx1, r1) ->
    Context.original_assertions ctx1 = Context.original_assertions ctx
    /\ Context.d_solver_engine ctx1 = Context.d_solver_engine ctx
    /\ Context.d_env ctx1 = Context.d_env ctx.
Proof.
  intros PassState Engine pass_apply fuel ctx ctx1 r1 H.
  unfold Context.preprocess in H.
  destruct (Preprocess.preprocess pass_apply fuel (Context.d_env ctx)
              (Context.d_levels ctx) (Context.d_preprocessor ctx)
              (Context.d_assertions ctx)) as [[[pp v] tr] [res|]];
    [|discriminate].
  inversion H; subst. repeat split; reflexivity.
Qed.

(** X9. When [solve] returns, it has preprocessed the assertions, given
    the engine the preprocessed form of every constant that occurs in an
    original assertion, each exactly once, and then asked it to solve;
    the answer of the engine is the result returned, it is what
    [d_sat_state] holds afterwards, and the original assertions are the
    same as before. *)
Theorem solve_registers_constants :
  forall (PassState Engine : Type) pass_apply
         (pp_process : PassState -> Node -> Node)
         (engine_process_term : Engine -> Node -> Engine)
         (engine_solve : Engine -> Engine * Result)
         (engine_ensure_model : Engine -> list Node -> Engine)
         check_model check_unsat_core (fuel : nat)
         (ctx ctx' : Context.SolvingContext PassState Engine) (r : Result),
    (forall a, In a (Context.original_assertions ctx) ->
               (node_size a < fuel)%nat) ->
    Context.solve pass_apply pp_process engine_process_term engine_solve
      engine_ensure_model check_model check_unsat_core fuel ctx
    = Ok (ctx', r) ->
    exists ctx1 r1 visited,
      Context.preprocess pass_apply fuel ctx = Ok (ctx1, r1)
      /\ List.NoDup visited
      /\ (forall k, In k visited
                    <-> exists a, In a (Context.original_assertions ctx)
                                  /\ subterm k a)
      /\ r = snd (engine_solve
                    (fold_left engine_process_term
                       (map (pp_process
                               (Preprocess.d_passes
                                  (Context.d_preprocessor ctx1)))
                          (List.filter is_const visited))
                       (Context.d_solver_engine ctx)))
      /\ Context.d_sat_state ctx' = r
      /\ Context.original_assertions ctx' = Context.original_assertions ctx.
Proof.
  intros PassState Engine pass_apply pp_process engine_process_term
         engine_solve engine_ensure_model check_model check_unsat_core
         fuel ctx ctx' r Hfuel H.
  unfold Context.solve in H.
  destruct (Context.check_no_free_variables fuel
              (Context.assertion_nodes ctx)); try discriminate.
  destruct (Context.preprocess pass_apply fuel ctx)
    as [[ctx1 r1]| | |] eqn:Hpre; cbn [obind fst] in H; try discriminate.
  destruct (preprocess_keeps_originals _ _ _ _ _ _ _ Hpre)
    as (Horig & Heng & _).
  destruct (collect_all_fresh fuel
              (pp_process (Preprocess.d_passes (Context.d_preprocessor ctx1)))
              (Context.original_assertions ctx1))
    as (visited & Hall & Hnd & Hin).
  { rewrite Horig. exact Hfuel. }
  rewrite Hall in H.
  destruct (engine_solve _) as [engine res] eqn:Hsolve.
  exists ctx1, r1, visited. split; [reflexivity|]. split; [exact Hnd|].
  split; [rewrite <- Horig; exact Hin|].
  rewrite <- Heng, Hsolve. cbn [snd].
  set (ctx2 := Context.with_engine PassState Engine ctx1 engine res) in *.
  assert (Hkeep : forall ctx3,
            (if (Context.Result_is res SAT
                 && (Opt.produce_models (Context.options ctx2)
                     || Opt.dbg_check_model (Context.options ctx2)))%bool
             then Context.ensure_model PassState pp_process Engine
                    engine_ensure_model fuel ctx2
             else Ok ctx2) = Ok ctx3 ->
            Context.d_sat_state ctx3 = res
            /\ Context.original_assertions ctx3
               = Context.original_assertions ctx1).
  { intros ctx3 H3. destruct (_ && _)%bool in H3.
    - destruct (ensure_model_spec PassState Engine pp_process
                  engine_ensure_model fuel ctx2) as (vis & _ & _ & Hem).
      { change (Context.original_assertions ctx2)
          with (Context.original_assertions ctx1).
        rewrite Horig. exact Hfuel. }
      rewrite Hem in H3. inversion H3.
      destruct (existsb is_quantifier vis); split; reflexivity.
    - inversion H3. split; reflexivity. }
  match type of H with
  | obind ?m _ = _ => destruct m as [ctx3| | |] eqn:H3
  end; cbn [obind] in H; try discriminate.
  destruct (Hkeep ctx3 eq_refl) as [Hs Ho].
  match type of H with
  | obind ?m _ = _ => destruct m as [[]| | |]
  end; cbn [obind] in H; try discriminate.
  inversion H; subst. split; [reflexivity|].
  split; [reflexivity|]. rewrite Ho. exact Horig.
Qed.

Lemma solve_registers_constants_witness :
  exists ctx',
    Context.solve Sample.pass_apply Sample.pp_process Sample.engine_add
      Sample.engine_sat Sample.engine_add_all (fun _ _ => true)
      (fun _ _ => true) 20
      (Sample.context_of [Sample.not_not_p; Sample.exists_x])
    = Ok (ctx', SAT)
    /\ Context.d_sat_state ctx' = SAT
    /\ Context.original_assertions ctx'
       = [Sample.not_not_p; Sample.exists_x].
Proof.
  destruct (Context.solve Sample.pass_apply Sample.pp_process
              Sample.engine_add Sample.engine_sat Sample.engine_add_all
              (fun _ _ => true) (fun _ _ => true) 20
              (Sample.context_of [Sample.not_not_p; Sample.exists_x]))
    as [[ctx' r]| | |] eqn:H;
    try (vm_compute in H; discriminate).
  assert (Hfuel : forall a,
            In a (Context.original_assertions
                    (Sample.context_of [Sample.not_not_p; Sample.exists_x]))
            -> (node_size a < 20)%nat).
  { intros a [<-|[<-|[]]]; vm_compute; lia. }
  destruct (solve_registers_constants unit (list Node) Sample.pass_apply
              Sample.pp_process Sample.engine_add Sample.engine_sat
              Sample.engine_add_all (fun _ _ => true) (fun _ _ => true) 20
              (Sample.context_of [Sample.not_not_p; Sample.exists_x])
              ctx' r Hfuel H)
    as (ctx1 & r1 & visited & _ & _ & _ & Hr & Hs & Ho).
  cbn [Sample.engine_sat snd] in Hr. subst r.
  exists ctx'. split; [reflexivity|]. split; [exact Hs|exact Ho].
Defined.

(** ** The kinds of the API *)


(** ** The command line of [main] *)

Lemma prefix_length :
  forall s2 s1, String.prefix s1 s2 = true ->
                (String.length s1 <= String.length s2)%nat.
Proof.
  induction s2 as [|b s2 IH]; intros [|a s1] H; simpl in *;
    try lia; try discriminate.
  destruct (ascii_dec a b); [|discriminate].
  specialize (IH s1 H). lia.
Qed.

Lemma index_bound :
  forall s2 s1 m,
    index 0 s1 s2 = Some m ->
    (m + String.length s1 <= String.length s2)%nat.
Proof.
  induction s2 as [|b s2 IH]; intros s1 m H.
  - destruct s1; simpl in H; [|discriminate]. inversion H. simpl. lia.
  - cbn [String.index] in H. destruct (String.prefix s1 (String b s2)) eqn:Hp.
    + inversion H; subst. apply prefix_length in Hp. lia.
    + destruct (index 0 s1 s2) as [n|] eqn:Hi; [|discriminate].
      inversion H; subst. specialize (IH s1 n Hi). simpl. lia.
Qed.

Lemma find_found :
  forall s sub m,
    index 0 sub s = Some m ->
    Main.find s sub = Z.of_nat m
    /\ (m + String.length sub <= String.length s)%nat
    /\ substring m (String.length sub) s = sub.
Proof.
  intros s sub m H. unfold Main.find. rewrite H.
  split; [reflexivity|]. split; [exact (index_bound s sub m H)|].
  exact (index_correct1 0 m sub s H).
Qed.

Lemma size_minus_five :
  forall arg : string,
    Main.size arg < Main.size_max ->
    (Main.size arg - 5) mod Main.size_max
    = if (String.length arg <? 5)%nat
      then Main.size arg - 5 + Main.size_max
      else Main.size arg - 5.
Proof.
  intros arg Hlt. unfold Main.size, Main.size_max in *.
  change (2 ^ 64) with 18446744073709551616 in *.
  destruct (String.length arg <? 5)%nat eqn:H5.
  - apply Nat.ltb_lt in H5. symmetry.
    apply Z.mod_unique with (q := -1); lia.
  - apply Nat.ltb_ge in H5. apply Z.mod_small. lia.
Qed.

Lemma suffix_test :
  forall arg suffix : string,
    String.length suffix = 5%nat ->
    Main.size arg < Main.size_max ->
    (Main.find arg suffix =? (Main.size arg - 5) mod Main.size_max) = true ->
    String.length arg = 4%nat \/ ends_with arg suffix.
Proof.
  intros arg suffix H5 Hlt H. apply Z.eqb_eq in H.
  rewrite size_minus_five in H by exact Hlt.
  destruct (index 0 suffix arg) as [m|] eqn:Hi.
  - destruct (find_found arg suffix m Hi) as (Hf & Hb & Hs).
    rewrite Hf in H. right. unfold ends_with. rewrite H5 in *.
    destruct (String.length arg <? 5)%nat eqn:Hl.
    + apply Nat.ltb_lt in Hl. lia.
    + unfold Main.size in H.
      replace (String.length arg - 5)%nat with m by lia. exact Hs.
  - unfold Main.find in H. rewrite Hi in H.
    unfold Main.npos, Main.size, Main.size_max in *.
    change (2 ^ 64) with 18446744073709551616 in *.
    destruct (String.length arg <? 5)%nat; [left|]; lia.
Qed.

Lemma suffix_test_short :
  forall arg suffix : string,
    String.length suffix = 5%nat ->
    (String.length arg < 5)%nat ->
    (Main.find arg suffix =? (Main.size arg - 5) mod Main.size_max)
    = (String.length arg =? 4)%nat.
Proof.
  intros arg suffix H5 Hl.
  assert (Hlt : Main.size arg < Main.size_max).
  { unfold Main.size, Main.size_max.
    change (2 ^ 64) with 18446744073709551616. lia. }
  rewrite size_minus_five by exact Hlt.
  destruct (String.length arg <? 5)%nat eqn:Hl';
    [|apply Nat.ltb_ge in Hl'; lia].
  assert (Hnone : index 0 suffix arg = None).
  { destruct (index 0 suffix arg) as [m|] eqn:Hi; [|reflexivity].
    apply index_bound in Hi. lia. }
  unfold Main.find. rewrite Hnone.
  unfold Main.npos, Main.size, Main.size_max.
  change (2 ^ 64) with 18446744073709551616.
  destruct (String.length arg =? 4)%nat eqn:H4.
  - apply Nat.eqb_eq in H4. apply Z.eqb_eq. lia.
  - apply Nat.eqb_neq in H4. apply Z.eqb_neq. lia.
Qed.

(** X11. The test by which [main] takes an argument as the input file
    computes [arg.size() - 5] on [size_t]: an argument of four characters
    always passes it, a shorter one never does, and any other argument
    that passes it ends with [.smt2] or [.btor]. *)
Theorem is_input_file_cases :
  forall arg : string,
    Main.size arg < Main.size_max ->
    (String.length arg = 4%nat -> Main.is_input_file arg = true)
    /\ ((String.length arg < 4)%nat -> Main.is_input_file arg = false)
    /\ (Main.is_input_file arg = true ->
        String.length arg = 4%nat
        \/ ends_with arg ".smt2" \/ ends_with arg ".btor").
Proof.
  intros arg Hlt. unfold Main.is_input_file. split; [|split].
  - intros H4. rewrite !suffix_test_short by (try reflexivity; lia).
    rewrite H4. reflexivity.
  - intros H4. rewrite !suffix_test_short by (try reflexivity; lia).
    destruct (String.length arg =? 4)%nat eqn:He; [|reflexivity].
    apply Nat.eqb_eq in He. lia.
  - intros H. apply orb_true_iff in H. destruct H as [H|H].
    + destruct (suffix_test arg ".smt2" eq_refl Hlt H); auto.
    + destruct (suffix_test arg ".btor" eq_refl Hlt H); auto.
Qed.

Lemma is_input_file_cases_witness :
  Main.is_input_file "-abc" = true
  /\ Main.is_input_file "abc" = false.
Proof.
  split.
  - apply (is_input_file_cases "-abc"); [vm_compute|]; reflexivity.
  - apply (is_input_file_cases "abc"); [vm_compute; reflexivity|].
    simpl. lia.
Defined.

Lemma last_cons : forall (a d : string) l, List.last (a :: l) d = List.last l a.
Proof.
  intros a d l. revert a d.
  induction l as [|b l IH]; intros a d; [reflexivity|].
  change (List.last (a :: b :: l) d) with (List.last (b :: l) d).
  rewrite (IH b d), (IH b a). reflexivity.
Qed.

Lemma not_exit_flag :
  forall a : string,
    ~ In a exit_flags ->
    (String.eqb a "-h" || String.eqb a "--help")%bool = false
    /\ (String.eqb a "-c" || String.eqb a "--copyright")%bool = false
    /\ (String.eqb a "-V" || String.eqb a "--version")%bool = false.
Proof.
  intros a H. unfold exit_flags in H. simpl in H.
  repeat split; apply orb_false_iff; split; apply String.eqb_neq;
    intros ->; apply H; tauto.
Qed.

(** The loop over the arguments, up to the first argument at which [main]
    exits: the arguments that do not pass the input-file test are
    collected in order, and the last one that passes it is the file
    name. *)
Lemma scan_args_prefix :
  forall pre rest args filename,
    (forall a, In a pre -> ~ In a exit_flags) ->
    Main.scan_args (pre ++ rest) args filename
    = Main.scan_args rest
        (args ++ List.filter (fun a => negb (Main.is_input_file a)) pre)
        (List.last (List.filter Main.is_input_file pre) filename).
Proof.
  induction pre as [|a pre IH]; intros rest args filename Hpre.
  - cbn [app List.filter List.last]. rewrite app_nil_r. reflexivity.
  - destruct (not_exit_flag a (Hpre a (or_introl eq_refl)))
      as (Hh & Hc & Hv).
    cbn [app Main.scan_args]. rewrite Hh, Hc, Hv. cbn [List.filter].
    destruct (Main.is_input_file a); cbn [negb].
    + rewrite IH by (intros b Hb; apply Hpre; right; exact Hb).
      rewrite last_cons. reflexivity.
    + rewrite IH by (intros b Hb; apply Hpre; right; exact Hb).
      rewrite <- app_assoc. reflexivity.
Qed.

(** X12. At the first of the arguments [-h], [--help], [-c],
    [--copyright], [-V] and [--version], [main] prints the help, the
    copyright or the version and exits with status 0, whatever the other
    arguments are: no option is set and nothing is parsed, even when an
    earlier argument is not a valid option. *)
Theorem main_exit_flag_first :
  forall options_set parse (prog : string) (pre post : list string)
         (flag : string),
    In flag exit_flags ->
    (forall a, In a pre -> ~ In a exit_flags) ->
    Main.main options_set parse (prog :: pre ++ flag :: post)
    = ([flag_output flag], Main.Exit Main.EXIT_SUCCESS).
Proof.
  intros options_set parse prog pre post flag Hflag Hpre.
  unfold Main.main. cbn [tl]. rewrite scan_args_prefix by exact Hpre.
  unfold exit_flags in Hflag. simpl in Hflag.
  destruct Hflag as [<-|[<-|[<-|[<-|[<-|[<-|[]]]]]]]; reflexivity.
Qed.

Lemma main_exit_flag_first_witness :
  Main.main (fun _ => Some "invalid option"%string)
    (Main.parse_answer SAT)
    ["bitwuzla"; "--no-such-option"; "-V"; "x.smt2"]%string
  = ([Main.PrintVersion], Main.Exit 0).
Proof.
  apply (main_exit_flag_first (fun _ => Some "invalid option"%string)
           (Main.parse_answer SAT) "bitwuzla" ["--no-such-option"%string]
           ["x.smt2"%string] "-V").
  - simpl. tauto.
  - intros a [<-|[]]. simpl. intros H.
    repeat (destruct H as [H|H]; [discriminate H|]). exact H.
Defined.

(** X13. When no argument makes [main] exit at once, the options are set
    from the arguments that do not pass the input-file test, in the order
    given, and the file parsed is the last argument that passes it, or
    the empty name when there is none. *)
Theorem main_arguments :
  forall (argv : list string),
    (forall a, In a (tl argv) -> ~ In a exit_flags) ->
    Main.scan_args (tl argv) [] ""
    = inr (List.filter (fun a => negb (Main.is_input_file a)) (tl argv),
           List.last (List.filter Main.is_input_file (tl argv)) ""%string).
Proof.
  intros argv H.
  rewrite <- (app_nil_r (tl argv)) at 1.
  rewrite scan_args_prefix by exact H. reflexivity.
Qed.

Lemma main_arguments_witness :
  Main.scan_args (tl ["bitwuzla"; "a.smt2"; "-v"; "b.btor"; "-i"]%string)
    [] ""
  = inr (["-v"; "-i"]%string, "b.btor"%string).
Proof.
  rewrite (main_arguments ["bitwuzla"; "a.smt2"; "-v"; "b.btor"; "-i"]%string).
  - reflexivity.
  - simpl. intros a Ha Hf.
    repeat (destruct Ha as [<-|Ha];
            [repeat (destruct Hf as [Hf|Hf]; [discriminate Hf|]);
             exact Hf|]).
    exact Ha.
Defined.



(** ** Timers *)




(** ** The statistics of the preprocessor *)

Lemma count_resets_app :
  forall a b, count_resets (a ++ b) = (count_resets a + count_resets b)%nat.
Proof.
  intros a b. unfold count_resets.
  rewrite List.filter_app, List.length_app. reflexivity.
Qed.

Lemma count_resets_round :
  forall options first,
    count_resets (Preprocess.round_events options first) = 1%nat.
Proof.
  intros options first. unfold Preprocess.round_events, count_resets.
  cbn [List.filter List.length]. f_equal.
  induction (List.filter (Preprocess.enabled options first)
               Preprocess.pass_order) as [|p l IH]; [reflexivity|exact IH].
Qed.

Lemma count_resets_loop :
  forall options k, count_resets (Preprocess.loop_events options k) = k.
Proof.
  intros options [|k]; [reflexivity|].
  cbn [Preprocess.loop_events]. rewrite count_resets_app, count_resets_round.
  f_equal. induction k as [|k IH]; [reflexivity|].
  cbn [repeat concat]. rewrite count_resets_app, count_resets_round, IH.
  reflexivity.
Qed.



(** ** Counting nodes *)

(** [count_nodes] walks as the traversal of [solve] does and keeps the
    cache only. *)
Lemma count_nodes_loop_collect :
  forall fuel process visit cache terms need_check,
    count_nodes_loop fuel visit cache
    = option_map (fun r : NodeSet * list Node * bool => fst (fst r))
        (Context.collect_consts fuel process visit cache terms need_check).
Proof.
  induction fuel as [|fuel IH]; intros process visit cache terms nc;
    [reflexivity|].
  destruct visit as [|cur rest]; [reflexivity|].
  cbn [count_nodes_loop Context.collect_consts].
  destruct (mem cache cur); apply IH.
Qed.

Lemma count_nodes_spec :
  forall fuel node cache,
    (node_size node < fuel)%nat ->
    closed_below cache node ->
    exists new,
      count_nodes fuel node cache = Some (cache ++ new)
      /\ fresh_subterms [node] cache new.
Proof.
  intros fuel node cache Hfuel Hcl.
  destruct (collect_visits_node node (fun n => n) cache [] false [])
    as (steps & new & Hb & Hrun & Hf).
  { intros c [<-|[]]. exact Hcl. }
  exists new. split; [|exact Hf]. unfold count_nodes.
  rewrite (count_nodes_loop_collect fuel (fun n => n) [node] cache [] false).
  replace fuel with (steps + S (fuel - steps - 1))%nat by lia.
  change [node] with ([node] ++ []). rewrite Hrun. reflexivity.
Qed.

Lemma count_all_nodes_spec :
  forall fuel assertions cache,
    (forall a, In a assertions -> (node_size a < fuel)%nat) ->
    (forall a, In a assertions -> closed_below cache a) ->
    exists new,
      count_all_nodes fuel assertions cache = Some (cache ++ new)
      /\ fresh_subterms assertions cache new.
Proof.
  intros fuel assertions.
  induction assertions as [|a rest IH]; intros cache Hfuel Hcl.
  - exists []. rewrite app_nil_r. split; [reflexivity|].
    apply fresh_subterms_nil.
  - destruct (count_nodes_spec fuel a cache) as (new1 & Hrun & Hf1).
    { apply Hfuel. left. reflexivity. }
    { apply Hcl. left. reflexivity. }
    destruct (IH (cache ++ new1)) as (new2 & Hall & Hf2).
    { intros b Hb. apply Hfuel. right. exact Hb. }
    { intros b Hb. apply (closed_below_after a); [|exact Hf1].
      apply Hcl. right. exact Hb. }
    exists (new1 ++ new2). split; [|apply fresh_subterms_cons; assumption].
    cbn [count_all_nodes]. rewrite Hrun, Hall, app_assoc. reflexivity.
Qed.

(** X18. The nodes that [Preprocessor::apply] counts before and after the
    passes: started with an empty cache, [count_nodes] over the
    assertions ends with a cache that holds every subterm of an assertion
    exactly once and nothing else, so that its size is the number of
    distinct nodes of the assertions, shared subterms counted once. *)
Theorem count_nodes_distinct_subterms :
  forall (fuel : nat) (assertions : list Node),
    (forall a, In a assertions -> (node_size a < fuel)%nat) ->
    exists cache,
      count_all_nodes fuel assertions [] = Some cache
      /\ List.NoDup cache
      /\ forall k, In k cache <-> exists a, In a assertions /\ subterm k a.
Proof.
  intros fuel assertions Hfuel.
  destruct (count_all_nodes_spec fuel assertions [] Hfuel)
    as (new & Hall & Hnd & Hin).
  { intros a _ m _ []. }
  exists new. split; [exact Hall|]. split; [exact Hnd|].
  intros k. rewrite Hin. split; [intros [H _]; exact H|].
  intros H. split; [exact H|]. intros [].
Qed.

Lemma count_nodes_distinct_subterms_witness :
  exists cache,
    count_all_nodes 6 [Sample.exists_x; Sample.eq_x_c] [] = Some cache
    /\ List.length cache = 4%nat.
Proof.
  destruct (count_nodes_distinct_subterms 6
              [Sample.exists_x; Sample.eq_x_c])
    as (cache & Hrun & _).
  - intros a [<-|[<-|[]]]; vm_compute; lia.
  - exists cache. split; [exact Hrun|].
    vm_compute in Hrun. inversion Hrun. reflexivity.
Defined.

(** ** Sorts of functions *)

Lemma map_nth_seq :
  forall (l : list Ty) (n : nat) (d : Ty),
    (n <= List.length l)%nat ->
    map (fun i => nth i l d) (seq 0 n) = firstn n l.
Proof.
  induction l as [|x l IH]; intros n d Hn.
  - simpl in Hn. replace n with O by lia. reflexivity.
  - destruct n as [|n]; [reflexivity|].
    cbn [seq map nth firstn]. f_equal.
    rewrite <- seq_shift, List.map_map. cbn [nth].
    apply IH. simpl in Hn. lia.
Qed.

(** X19. [Sort::fun_get_domain] and [Sort::fun_get_codomain] split the
    types of a function sort: the domain followed by the codomain is the
    list of types, so the domain has one type less; on a sort without
    types both fail their assertion. *)
Theorem fun_sort_domain_codomain :
  forall d_type : Ty,
    (fun_types d_type = [] ->
     Sort_fun_get_domain d_type = AssertFail
     /\ Sort_fun_get_codomain d_type = AssertFail)
    /\ (fun_types d_type <> [] ->
        exists domain codomain,
          Sort_fun_get_domain d_type = Ok domain
          /\ Sort_fun_get_codomain d_type = Ok codomain
          /\ domain ++ [codomain] = fun_types d_type
          /\ S (List.length domain) = List.length (fun_types d_type)).
Proof.
  intros d_type. unfold Sort_fun_get_domain, Sort_fun_get_codomain.
  destruct (fun_types d_type) as [|t ts] eqn:Ht.
  - split; [intros _; split; reflexivity|]. intros H. contradiction.
  - split; [discriminate|]. intros _.
    cbn [List.length Nat.ltb Nat.leb oassert obind].
    eexists. eexists. split; [reflexivity|]. split; [reflexivity|].
    rewrite map_nth_seq by (simpl; lia).
    replace (S (List.length ts) - 1)%nat
      with (Nat.pred (List.length (t :: ts))) by (simpl; lia).
    rewrite <- removelast_firstn_len. split.
    + symmetry. apply app_removelast_last. discriminate.
    + rewrite removelast_firstn_len, List.length_firstn. simpl. lia.
Qed.

(** ** The term handles of the C API *)

Section HandleFacts.

Variable Term_id : CApi.Term -> Z.

#[local] Abbreviation export := (CApi.export_term Term_id).

Lemma export_term_spec :
  forall (term_map : CApi.TermMap) (term : CApi.Term),
    CApi.is_null term = false ->
    CApi.consistent Term_id term_map ->
    exists term_map' t',
      export term_map term = Ok (term_map', Term_id term)
      /\ CApi.import_term term_map' (Term_id term) = Some t'
      /\ Term_id t' = Term_id term
      /\ CApi.references term_map' (Term_id term)
         = (if decide (is_Some (term_map !! Term_id term))
            then (CApi.references term_map (Term_id term) + 1) mod 2 ^ 64
            else 1)
      /\ (forall id, id <> Term_id term ->
                     term_map' !! id = term_map !! id)
      /\ CApi.consistent Term_id term_map'
      /\ (term_map !! Term_id term = None -> t' = term).
Proof.
  intros term_map term Hnull Hcons.
  unfold CApi.export_term, CApi.import_term, CApi.references.
  rewrite Hnull. cbn [negb oassert obind].
  destruct (term_map !! Term_id term) as [[t0 c]|] eqn:Hm.
  - exists (<[Term_id term := (t0, (c + 1) mod 2 ^ 64)]> term_map), t0.
    destruct (Hcons _ _ _ Hm) as [Hid Hn].
    rewrite lookup_insert_eq.
    rewrite decide_True by (exists (t0, c); reflexivity).
    repeat split; try reflexivity; try exact Hid.
    + intros id Hne. apply lookup_insert_ne. congruence.
    + destruct (decide (id = Term_id term)) as [->|Hne].
      * rewrite lookup_insert_eq in H. inversion H; subst. exact Hid.
      * rewrite lookup_insert_ne in H by congruence.
        exact (proj1 (Hcons _ _ _ H)).
    + destruct (decide (id = Term_id term)) as [->|Hne].
      * rewrite lookup_insert_eq in H. inversion H; subst. exact Hn.
      * rewrite lookup_insert_ne in H by congruence.
        exact (proj2 (Hcons _ _ _ H)).
    + discriminate.
  - exists (<[Term_id term := (term, 1)]> term_map), term.
    rewrite lookup_insert_eq.
    rewrite decide_False by (intros [x Hx]; discriminate).
    repeat split; try reflexivity.
    + intros id Hne. apply lookup_insert_ne. congruence.
    + destruct (decide (id = Term_id term)) as [->|Hne].
      * rewrite lookup_insert_eq in H. inversion H; subst. reflexivity.
      * rewrite lookup_insert_ne in H by congruence.
        exact (proj1 (Hcons _ _ _ H)).
    + destruct (decide (id = Term_id term)) as [->|Hne].
      * rewrite lookup_insert_eq in H. inversion H; subst. exact Hnull.
      * rewrite lookup_insert_ne in H by congruence.
        exact (proj2 (Hcons _ _ _ H)).
Qed.

End HandleFacts.

(** X20. The handles of the C API: exporting a term that is not null
    returns its id and hands out one more reference for it, keeps the
    entries of the other ids, and keeps every term under its own id; the
    term imported from the id then has the id of the term exported, and
    is that term when the id was not in the map. Exporting a null term
    fails the assertion. *)
Theorem export_then_import :
  forall (Term_id : CApi.Term -> Z) (term_map : CApi.TermMap)
         (term : CApi.Term),
    CApi.consistent Term_id term_map ->
    (CApi.is_null term = true ->
     CApi.export_term Term_id term_map term = AssertFail)
    /\ (CApi.is_null term = false ->
        exists term_map' t',
          CApi.export_term Term_id term_map term
          = Ok (term_map', Term_id term)
          /\ CApi.import_term term_map' (Term_id term) = Some t'
          /\ Term_id t' = Term_id term
          /\ CApi.references term_map' (Term_id term)
             = (if decide (is_Some (term_map !! Term_id term))
                then (CApi.references term_map (Term_id term) + 1)
                     mod 2 ^ 64
                else 1)
          /\ (forall id, id <> Term_id term ->
                         term_map' !! id = term_map !! id)
          /\ CApi.consistent Term_id term_map'
          /\ (term_map !! Term_id term = None -> t' = term)).
Proof.
  intros Term_id term_map term Hcons. split.
  - intros Hnull. unfold CApi.export_term. rewrite Hnull. reflexivity.
  - intros Hnull. apply export_term_spec; assumption.
Qed.

Lemma export_then_import_witness :
  exists term_map' t',
    CApi.export_term
      (fun t => match CApi.d_node t with
                | Some n => Z.of_N (payload n)
                | None => 0
                end)
      ∅ {| CApi.d_node := Some Sample.p |}
    = Ok (term_map', 1)
    /\ CApi.import_term term_map' 1 = Some t'
    /\ t' = {| CApi.d_node := Some Sample.p |}
    /\ CApi.references term_map' 1 = 1.
Proof.
  destruct (export_then_import
              (fun t => match CApi.d_node t with
                        | Some n => Z.of_N (payload n)
                        | None => 0
                        end)
              ∅ {| CApi.d_node := Some Sample.p |})
    as [_ H].
  - intros id t count Hl. rewrite lookup_empty in Hl. discriminate.
  - destruct (H eq_refl)
      as (term_map' & t' & Hexp & Himp & _ & Hrefs & _ & _ & Hnew).
    exists term_map', t'. split; [exact Hexp|]. split; [exact Himp|].
    split; [apply Hnew; apply lookup_empty|]. exact Hrefs.
Defined.

(** ** Wrapping the help text *)

Lemma string_app_assoc :
  forall a b c : string, ((a ++ b) ++ c = a ++ (b ++ c))%string.
Proof.
  induction a as [|x a IH]; intros b c; [reflexivity|].
  change (String x ((a ++ b) ++ c) = String x (a ++ (b ++ c)))%string.
  f_equal. apply IH.
Qed.

Lemma string_app_nil_r : forall a : string, (a ++ "" = a)%string.
Proof.
  induction a as [|x a IH]; [reflexivity|].
  change (String x (a ++ "") = String x a)%string. f_equal. exact IH.
Qed.

Lemma size_bounds : forall w, 0 <= Main.size w.
Proof. intros w. unfold Main.size. lia. Qed.

Lemma total_size_nonneg : forall line, 0 <= Help.total_size line.
Proof.
  induction line as [|w line IH]; simpl; [lia|].
  pose proof (size_bounds w). lia.
Qed.

(** The loop from a state in which the words on the current line have
    the total size [line_len]: the words are written in order, [first] on
    the current line and the others on new lines. *)
Lemma wrap_loop_lines :
  forall (width : Z) (already : nat) (words : list string)
         (line_len : Z) (wrapped : string),
    width <= 80 ->
    0 <= line_len ->
    (words <> [] -> line_len < width) ->
    (forall w, In w words -> Main.size w < width) ->
    exists first rest,
      Help.wrap_loop width already words line_len wrapped
      = Ok (wrapped ++ Help.render_line first
            ++ Help.render_lines already rest)%string
      /\ first ++ concat rest = words
      /\ (words <> [] -> line_len + Help.total_size first < width)
      /\ forall l, In l rest -> l <> [] /\ Help.total_size l < width.
Proof.
  intros width already words.
  induction words as [|w ws IH]; intros line_len wrapped Hmax H0 Hlen Hws.
  - exists [], []. cbn [Help.wrap_loop Help.render_line Help.render_lines].
    rewrite string_app_nil_r. repeat split; try reflexivity.
    + intros H. contradiction.
    + destruct H.
    + destruct H.
  - assert (Hw : Main.size w < width) by (apply Hws; left; reflexivity).
    specialize (Hlen ltac:(discriminate)).
    pose proof (size_bounds w) as Hw0.
    assert (Hsm : Main.size_max = 18446744073709551616) by reflexivity.
    cbn [Help.wrap_loop].
    replace (Main.size w <? width) with true
      by (symmetry; apply Z.ltb_lt; exact Hw).
    cbn [oassert obind].
    rewrite (Z.mod_small (line_len + Main.size w)) by (rewrite Hsm; lia).
    destruct (width <=? line_len + Main.size w) eqn:Hbreak.
    + apply Z.leb_le in Hbreak.
      rewrite (Z.mod_small (0 + Main.size w)) by (rewrite Hsm; lia).
      destruct (IH (0 + Main.size w)
                  ((wrapped ++ Help.line_break already) ++ w ++ " ")%string)
        as (first & rest & Hrun & Hcat & Hfirst & Hrest);
        [exact Hmax|lia|intros _; lia|
         intros v Hv; apply Hws; right; exact Hv|].
      exists [], ((w :: first) :: rest). split; [|split; [|split]].
      * rewrite Hrun. cbn [Help.render_line Help.render_lines].
        rewrite !string_app_assoc. reflexivity.
      * cbn [concat app]. rewrite <- Hcat. reflexivity.
      * intros _. cbn [Help.total_size]. lia.
      * intros l [<-|Hl]; [|apply Hrest; exact Hl].
        split; [discriminate|]. cbn [Help.total_size].
        destruct ws as [|v ws'].
        -- destruct first; [|discriminate].
           cbn [Help.total_size]. lia.
        -- specialize (Hfirst ltac:(discriminate)). lia.
    + apply Z.leb_gt in Hbreak.
      rewrite (Z.mod_small (line_len + Main.size w)) by (rewrite Hsm; lia).
      destruct (IH (line_len + Main.size w) (wrapped ++ w ++ " ")%string)
        as (first & rest & Hrun & Hcat & Hfirst & Hrest);
        [exact Hmax|lia|intros _; lia|
         intros v Hv; apply Hws; right; exact Hv|].
      exists (w :: first), rest. split; [|split; [|split]].
      * rewrite Hrun. cbn [Help.render_line].
        rewrite !string_app_assoc. reflexivity.
      * cbn [app]. rewrite <- Hcat. reflexivity.
      * intros _. cbn [Help.total_size].
        destruct ws as [|v ws'].
        -- destruct first; [|discriminate].
           cbn [Help.total_size]. lia.
        -- specialize (Hfirst ltac:(discriminate)). lia.
      * exact Hrest.
Qed.

Lemma wrap_loop_fails :
  forall (width : Z) (already : nat) (words : list string)
         (line_len : Z) (wrapped : string),
    (exists w, In w words /\ width <= Main.size w) ->
    Help.wrap_loop width already words line_len wrapped = AssertFail.
Proof.
  intros width already words.
  induction words as [|w ws IH]; intros line_len wrapped (v & Hv & Hbig).
  - destruct Hv.
  - cbn [Help.wrap_loop].
    destruct (Main.size w <? width) eqn:Hw; [|reflexivity].
    cbn [oassert obind]. apply IH. exists v. split; [|exact Hbig].
    destruct Hv as [<-|Hv]; [|exact Hv].
    apply Z.ltb_lt in Hw. lia.
Qed.

(** X21. [wrap] writes the words of the text in their order, each
    followed by a space, and breaks the line before a word when the sizes
    of the words already on the line and of the word add up to the width
    left, 80 less the width used, or more: the sizes of the words of each
    line add up to less than that width, the spaces not being counted,
    and no line after the first is empty. A word as long as that width
    fails the assertion. *)
Theorem wrap_lines :
  forall (text : string) (already_used_width : nat),
    (already_used_width <= 80)%nat ->
    ((exists w, In w (Help.getline_words text)
                /\ 80 - Z.of_nat already_used_width <= Main.size w) ->
     Help.wrap text already_used_width = AssertFail)
    /\ ((forall w, In w (Help.getline_words text) ->
                   Main.size w < 80 - Z.of_nat already_used_width) ->
        exists first rest,
          Help.wrap text already_used_width
          = Ok (Help.render_line first
                ++ Help.render_lines already_used_width rest)%string
          /\ first ++ concat rest = Help.getline_words text
          /\ (Help.getline_words text <> [] ->
              Help.total_size first < 80 - Z.of_nat already_used_width)
          /\ forall l, In l rest ->
               l <> []
               /\ Help.total_size l < 80 - Z.of_nat already_used_width).
Proof.
  intros text already Hused. unfold Help.wrap.
  assert (Hwidth : (80 - Z.of_nat already) mod Main.size_max
                   = 80 - Z.of_nat already).
  { apply Z.mod_small. unfold Main.size_max.
    change (2 ^ 64) with 18446744073709551616. lia. }
  rewrite Hwidth. split.
  - intros H. apply wrap_loop_fails. exact H.
  - intros Hws.
    destruct (wrap_loop_lines (80 - Z.of_nat already) already
                (Help.getline_words text) 0 ""%string)
      as (first & rest & Hrun & Hcat & Hfirst & Hrest).
    + lia.
    + lia.
    + intros Hne. destruct (Help.getline_words text) as [|w ws];
        [contradiction|].
      pose proof (Hws w (or_introl eq_refl)). pose proof (size_bounds w).
      lia.
    + exact Hws.
    + exists first, rest. split; [exact Hrun|]. split; [exact Hcat|].
      split; [|exact Hrest]. intros Hne. specialize (Hfirst Hne). lia.
Qed.

Lemma wrap_lines_witness :
  (exists first rest,
      Help.wrap "aaa bbb ccc" 74
      = Ok (Help.render_line first ++ Help.render_lines 74 rest)%string
      /\ first ++ concat rest = Help.getline_words "aaa bbb ccc"
      /\ (Help.getline_words "aaa bbb ccc" <> [] ->
          Help.total_size first < 80 - Z.of_nat 74)
      /\ forall l, In l rest ->
           l <> [] /\ Help.total_size l < 80 - Z.of_nat 74)
  /\ Help.wrap "aaaaaa" 74 = AssertFail.
Proof.
  split.
  - apply (wrap_lines "aaa bbb ccc" 74); [lia|].
    intros w Hw. vm_compute in Hw.
    repeat (destruct Hw as [<-|Hw]; [reflexivity|]). destruct Hw.
  - apply (wrap_lines "aaaaaa" 74); [lia|].
    exists "aaaaaa"%string. split; [left; reflexivity|].
    vm_compute. discriminate.
Defined.

(** ** The statistics of the formula *)

Lemma count_nodes_loop_extends :
  forall fuel visit cache cache',
    count_nodes_loop fuel visit cache = Some cache' ->
    exists new, cache' = cache ++ new.
Proof.
  induction fuel as [|fuel IH]; intros visit cache cache' H; [discriminate|].
  destruct visit as [|cur rest].
  - inversion H. exists []. rewrite app_nil_r. reflexivity.
  - cbn [count_nodes_loop] in H. destruct (mem cache cur).
    + exact (IH _ _ _ H).
    + destruct (IH _ _ _ H) as [new ->]. exists (cur :: new).
      rewrite <- app_assoc. reflexivity.
Qed.

Lemma skipn_length_app :
  forall (a b : list Node), skipn (List.length a) (a ++ b) = b.
Proof. induction a as [|x a IH]; intros b; [reflexivity|apply IH]. Qed.

Lemma formula_statistics_loop_count :
  forall fuel visit cache stat,
    formula_statistics_loop fuel visit cache stat
    = match count_nodes_loop fuel visit cache with
      | Some cache' =>
          Some (cache',
                stat ++ map kind (skipn (List.length cache) cache'))
      | None => None
      end.
Proof.
  induction fuel as [|fuel IH]; intros visit cache stat; [reflexivity|].
  destruct visit as [|cur rest].
  - cbn [formula_statistics_loop count_nodes_loop].
    rewrite skipn_all, app_nil_r. reflexivity.
  - cbn [formula_statistics_loop count_nodes_loop].
    destruct (mem cache cur); [apply IH|].
    rewrite IH.
    destruct (count_nodes_loop fuel (rev (children cur) ++ rest)
                (cache ++ [cur])) as [cache'|] eqn:Hc; [|reflexivity].
    destruct (count_nodes_loop_extends _ _ _ _ Hc) as [new ->].
    f_equal. f_equal.
    rewrite (skipn_length_app (cache ++ [cur]) new).
    rewrite <- (app_assoc cache [cur] new).
    rewrite (skipn_length_app cache ([cur] ++ new)).
    cbn [app map]. rewrite <- app_assoc. reflexivity.
Qed.

(** X22. [compute_formula_statistics] streams into the histogram the kind
    of every subterm of the assertions exactly once, shared subterms
    counted once, and what the histogram held before is kept. *)
Theorem formula_statistics_distinct_subterms :
  forall (fuel : nat) (d_assertions : list Node) (stat : list Kind.t),
    (nodes_size d_assertions < fuel)%nat ->
    exists visited,
      compute_formula_statistics fuel d_assertions stat
      = Some (stat ++ map kind visited)
      /\ List.NoDup visited
      /\ forall k, In k visited
                   <-> exists a, In a d_assertions /\ subterm k a.
Proof.
  intros fuel d_assertions stat Hfuel.
  destruct (collect_visits_list (rev d_assertions)) with
    (process := fun n : Node => n) (cache := @nil Node)
    (terms := @nil Node) (need_check := false) (rest := @nil Node)
    as (steps & new & Hb & Hrun & Hnd & Hin).
  { apply List.Forall_forall. intros c _. apply collect_visits_node. }
  { intros c _ m _ []. }
  rewrite nodes_size_rev in Hb.
  exists new. split; [|split; [exact Hnd|]].
  - unfold compute_formula_statistics.
    rewrite formula_statistics_loop_count.
    rewrite (count_nodes_loop_collect fuel (fun n => n)
               (rev d_assertions) [] [] false).
    replace fuel with (steps + S (fuel - steps - 1))%nat by lia.
    rewrite <- (app_nil_r (rev d_assertions)). rewrite Hrun.
    reflexivity.
  - intros k. rewrite Hin. split.
    + intros [(c & Hc & Hs) _]. exists c. split; [|exact Hs].
      apply in_rev. exact Hc.
    + intros (a & Ha & Hs). split; [|intros []].
      exists a. split; [|exact Hs]. apply in_rev. rewrite rev_involutive.
      exact Ha.
Qed.

Lemma formula_statistics_distinct_subterms_witness :
  exists visited,
    compute_formula_statistics 9 [Sample.exists_x; Sample.eq_x_c]
      [Kind.NOT]
    = Some ([Kind.NOT] ++ map kind visited)
    /\ List.NoDup visited
    /\ forall k, In k visited
                 <-> exists a, In a [Sample.exists_x; Sample.eq_x_c]
                               /\ subterm k a.
Proof.
  apply (formula_statistics_distinct_subterms 9
           [Sample.exists_x; Sample.eq_x_c] [Kind.NOT]).
  vm_compute. lia.
Defined.

(** ** Elimination of lambdas *)

Section ElimLambdaFacts.

Variable rebuild_node : Node -> list (option Node) -> Node.
Variable rebuild_node_cache : Node -> ElimLambda.Cache -> Node.

(** Rebuilding a node over its own children gives the node itself. *)
Hypothesis rebuild_same :
  forall n, rebuild_node n (map Some (children n)) = n.

Import ElimLambda.

#[local] Abbreviation loop := (process_loop rebuild_node rebuild_node_cache).

Lemma process_loop_new :
  forall fuel cur rest d_cache num_elim,
    find_node d_cache cur = None ->
    loop (S fuel) (cur :: rest) d_cache num_elim
    = loop fuel (rev (children cur) ++ cur :: rest)
        (set_node d_cache cur None) num_elim.
Proof. intros. cbn [process_loop]. rewrite H. reflexivity. Qed.

Lemma process_loop_done :
  forall fuel cur rest d_cache num_elim r,
    find_node d_cache cur = Some (Some r) ->
    loop (S fuel) (cur :: rest) d_cache num_elim
    = loop fuel rest d_cache num_elim.
Proof. intros. cbn [process_loop]. rewrite H. reflexivity. Qed.

Lemma child_values_same :
  forall (d_cache : Cache) cs,
    (forall c, In c cs -> find_node d_cache c = Some (Some c)) ->
    child_values d_cache cs = Ok (map Some cs).
Proof.
  intros d_cache cs. induction cs as [|c cs IH]; intros H; [reflexivity|].
  cbn [child_values map]. rewrite (H c (or_introl eq_refl)).
  rewrite IH by (intros d Hd; apply H; right; exact Hd). reflexivity.
Qed.

Lemma process_loop_rebuild :
  forall fuel cur rest d_cache num_elim,
    find_node d_cache cur = Some None ->
    (forall c, In c (children cur) ->
               find_node d_cache c = Some (Some c)) ->
    is_lambda_apply cur = Ok false ->
    loop (S fuel) (cur :: rest) d_cache num_elim
    = loop fuel rest (set_node d_cache cur (Some cur)) num_elim.
Proof.
  intros fuel cur rest d_cache num_elim Hc Hch Hno.
  cbn [process_loop]. rewrite Hc, (child_values_same _ _ Hch).
  cbn [obind]. rewrite Hno. cbn [obind]. rewrite rebuild_same.
  reflexivity.
Qed.

Lemma process_visits_list :
  forall l,
    Forall (fun c => process_visits rebuild_node rebuild_node_cache [c]
                       (2 * node_size c)) l ->
    process_visits rebuild_node rebuild_node_cache l (2 * nodes_size l).
Proof.
  induction l as [|c l IH]; intros Hall d_cache num_elim rest Hpre.
  - exists O, d_cache. split; [lia|]. split; [reflexivity|].
    split; [intros c []|]. intros m. left. reflexivity.
  - inversion Hall as [|? ? Hc Hl]; subst.
    destruct (Hc d_cache num_elim (l ++ rest))
      as (s1 & c1 & Hb1 & Hrun1 & Ht1 & Hd1).
    { intros c' [<-|[]]. apply Hpre. left. reflexivity. }
    destruct (IH Hl c1 num_elim rest)
      as (s2 & c2 & Hb2 & Hrun2 & Ht2 & Hd2).
    { intros c' Hc'. destruct (Hpre c' (or_intror Hc')) as [Hno Hun].
      split; [exact Hno|]. intros m Hm.
      destruct (Hd1 m) as [->|[_ ->]]; [apply Hun; exact Hm|].
      right. reflexivity. }
    exists (s1 + s2)%nat, c2. split.
    { change (nodes_size (c :: l)) with (node_size c + nodes_size l)%nat.
      lia. }
    split.
    { intros fuel.
      replace (s1 + s2 + fuel)%nat with (s1 + (s2 + fuel))%nat by lia.
      change ((c :: l) ++ rest) with ([c] ++ (l ++ rest)).
      rewrite Hrun1. apply Hrun2. }
    split.
    { intros c' [<-|Hc'].
      - destruct (Hd2 c) as [->|[_ ->]]; [|reflexivity].
        apply Ht1. left. reflexivity.
      - apply Ht2. exact Hc'. }
    intros m. destruct (Hd2 m) as [->|[(c' & Hc' & Hs) ->]].
    + destruct (Hd1 m) as [->|[(c' & [<-|[]] & Hs) ->]].
      * left. reflexivity.
      * right. split; [|reflexivity]. exists c.
        split; [left; reflexivity|exact Hs].
    + right. split; [|reflexivity]. exists c'.
      split; [right; exact Hc'|exact Hs].
Qed.

Lemma process_visits_node :
  forall n,
    process_visits rebuild_node rebuild_node_cache [n] (2 * node_size n).
Proof.
  induction n as [k p cs IH] using Node_induction.
  set (n := Nd k p cs). intros d_cache num_elim rest Hpre.
  destruct (Hpre n (or_introl eq_refl)) as [Hno Hun].
  destruct (Hun n (subterm_refl n)) as [Hn|Hn].
  - assert (Hall : Forall (fun c => process_visits rebuild_node
                                      rebuild_node_cache [c]
                                      (2 * node_size c)) (rev cs)).
    { apply List.Forall_forall. intros c Hc. apply in_rev in Hc.
      rewrite List.Forall_forall in IH. exact (IH c Hc). }
    assert (Hproper : forall c m, In c cs -> subterm m c -> n <> m).
    { intros c m Hc Hm <-.
      pose proof (subterm_child_size n c n Hc Hm). lia. }
    assert (Hbelow : forall c m, In c cs -> subterm m c -> subterm m n).
    { intros c m Hc Hm. apply subterm_iff. right. exists c.
      split; assumption. }
    destruct (process_visits_list (rev cs) Hall (set_node d_cache n None)
                num_elim (n :: rest))
      as (sl & cl & Hbl & Hrunl & Htl & Hdl).
    { intros c Hc. apply in_rev in Hc. split.
      - intros m Hm. apply Hno. exact (Hbelow c m Hc Hm).
      - intros m Hm.
        rewrite find_node_set_node_ne by exact (Hproper c m Hc Hm).
        apply Hun. exact (Hbelow c m Hc Hm). }
    assert (Hnl : find_node cl n = Some None).
    { destruct (Hdl n) as [->|[(c & Hc & Hs) _]].
      - apply find_node_set_node_eq.
      - apply in_rev in Hc. exfalso. exact (Hproper c n Hc Hs eq_refl). }
    exists (S (sl + 1)), (set_node cl n (Some n)). split.
    { rewrite nodes_size_rev in Hbl. subst n. rewrite node_size_eq. lia. }
    split.
    { intros fuel. change ([n] ++ rest) with (n :: rest).
      cbn [Nat.add]. rewrite process_loop_new by exact Hn.
      replace (sl + 1 + fuel)%nat with (sl + S fuel)%nat by lia.
      change (children n) with cs. rewrite Hrunl.
      apply process_loop_rebuild; [exact Hnl| |].
      - intros c Hc. apply Htl. apply in_rev. rewrite rev_involutive.
        exact Hc.
      - apply Hno. apply subterm_refl. }
    split.
    { intros c [<-|[]]. apply find_node_set_node_eq. }
    intros m. destruct (Node_eqb n m) eqn:He.
    + apply Node_eqb_eq in He. subst m. right.
      split; [|apply find_node_set_node_eq].
      exists n. split; [left; reflexivity|apply subterm_refl].
    + apply Node_eqb_neq in He. rewrite find_node_set_node_ne by exact He.
      destruct (Hdl m) as [->|[(c & Hc & Hs) ->]].
      * left. apply find_node_set_node_ne. exact He.
      * right. split; [|reflexivity]. exists n.
        split; [left; reflexivity|]. apply in_rev in Hc.
        exact (Hbelow c m Hc Hs).
  - exists 1%nat, d_cache. split; [subst n; rewrite node_size_eq; lia|].
    split.
    { intros fuel. change ([n] ++ rest) with (n :: rest).
      apply (process_loop_done fuel n rest d_cache num_elim n Hn). }
    split; [intros c [<-|[]]; exact Hn|]. intros m. left. reflexivity.
Qed.

End ElimLambdaFacts.

(** X23. [PassElimLambda::process] leaves a term in which no lambda is
    applied as it is: if rebuilding a node over its own children gives
    the node, and the cache maps the subterms it holds to themselves (as
    the empty cache does), then [process] returns the term itself, within
    twice its size in iterations, and counts no elimination. *)
Theorem process_without_lambda_apply :
  forall (rebuild_node : Node -> list (option Node) -> Node)
         (rebuild_node_cache : Node -> ElimLambda.Cache -> Node)
         (fuel : nat) (d_cache : ElimLambda.Cache) (num_elim : Z)
         (term : Node),
    (forall n, rebuild_node n (map Some (children n)) = n) ->
    (2 * node_size term < fuel)%nat ->
    ElimLambda.no_lambda_apply term ->
    ElimLambda.unchanged_below d_cache term ->
    exists d_cache',
      ElimLambda.process rebuild_node rebuild_node_cache fuel d_cache
        num_elim term
      = Ok (Some term, d_cache', num_elim)
      /\ ElimLambda.unchanged_below d_cache' term.
Proof.
  intros rebuild_node rebuild_node_cache fuel d_cache num_elim term
         Hsame Hfuel Hno Hun.
  destruct (process_visits_node rebuild_node rebuild_node_cache Hsame term
              d_cache num_elim [])
    as (steps & d_cache' & Hb & Hrun & Ht & Hd).
  { intros c [<-|[]]. split; assumption. }
  exists d_cache'. split.
  - unfold ElimLambda.process.
    replace fuel with (steps + S (fuel - steps - 1))%nat by lia.
    change [term] with ([term] ++ []). rewrite Hrun.
    cbn [ElimLambda.process_loop obind fst snd].
    unfold ElimLambda.cache_at. rewrite (Ht term (or_introl eq_refl)).
    reflexivity.
  - intros m Hm. destruct (Hd m) as [->|[_ ->]]; [apply Hun; exact Hm|].
    right. reflexivity.
Qed.

Lemma process_without_lambda_apply_witness :
  exists d_cache',
    ElimLambda.process Sample.rebuild_node (fun n _ => n) 11 [] 0
      Sample.exists_x
    = Ok (Some Sample.exists_x, d_cache', 0)
    /\ ElimLambda.unchanged_below d_cache' Sample.exists_x.
Proof.
  apply (process_without_lambda_apply Sample.rebuild_node (fun n _ => n)
           11 [] 0 Sample.exists_x).
  - intros [k p cs]. unfold Sample.rebuild_node.
    cbn [kind payload children]. f_equal.
    induction cs as [|c cs IH]; [reflexivity|].
    cbn [map fold_right]. f_equal. exact IH.
  - vm_compute. lia.
  - intros m Hm. vm_compute in Hm.
    repeat (destruct Hm as [<-|Hm]; [reflexivity|]). destruct Hm.
  - intros m _. left. reflexivity.
Defined.

Section ReduceFacts.

Variable rebuild_node_cache : Node -> ElimLambda.Cache -> Node.
Variable d_cache substitutions : ElimLambda.Cache.

(** Rebuilding a node from a cache gives the node over the images of its
    children. *)
Hypothesis rebuild_images :
  forall (n : Node) (cache : ElimLambda.Cache),
    rebuild_node_cache n cache
    = Nd (kind n) (payload n)
         (map (ElimLambda.cache_image cache) (children n)).

Hypothesis only_variables : ElimLambda.substitutes_variables substitutions.

Import ElimLambda.

#[local] Abbreviation rloop :=
  (reduce_loop rebuild_node_cache).
#[local] Abbreviation sub := (substitute substitutions).

Lemma substitute_eq :
  forall n,
    sub n = match find_node substitutions n with
            | Some (Some r) => r
            | _ => Nd (kind n) (payload n) (map sub (children n))
            end.
Proof. intros [k p cs]. reflexivity. Qed.

Lemma reduce_loop_new :
  forall fuel cur rest cache,
    find_node cache cur = None ->
    is_lambda_apply cur = Ok false ->
    rloop (S fuel) d_cache substitutions (cur :: rest) cache
    = rloop fuel d_cache substitutions (rev (children cur) ++ cur :: rest)
        (set_node cache cur None).
Proof.
  intros fuel cur rest cache Hc Hno. cbn [reduce_loop].
  rewrite Hc, Hno. reflexivity.
Qed.

Lemma reduce_loop_done :
  forall fuel cur rest cache r,
    find_node cache cur = Some (Some r) ->
    rloop (S fuel) d_cache substitutions (cur :: rest) cache
    = rloop fuel d_cache substitutions rest cache.
Proof. intros. cbn [reduce_loop]. rewrite H. reflexivity. Qed.

Lemma reduce_loop_finish :
  forall fuel cur rest cache,
    find_node cache cur = Some None ->
    is_lambda_apply cur = Ok false ->
    (forall c, In c (children cur) ->
               find_node cache c = Some (Some (sub c))) ->
    rloop (S fuel) d_cache substitutions (cur :: rest) cache
    = rloop fuel d_cache substitutions rest
        (set_node cache cur (Some (sub cur))).
Proof.
  intros fuel cur rest cache Hc Hno Hch. cbn [reduce_loop].
  rewrite Hc, Hno. cbn [obind]. rewrite (substitute_eq cur).
  destruct (find_node substitutions cur) as [v|] eqn:Hs.
  - destruct (only_variables cur v Hs) as [Hk Hv].
    rewrite Hk. change (Kind.eqb Kind.VARIABLE Kind.VARIABLE) with true.
    cbn [oassert obind]. destruct v as [r|]; [reflexivity|].
    exfalso. apply Hv. reflexivity.
  - cbn [obind]. rewrite rebuild_images. do 4 f_equal.
    apply map_ext_in. intros c Hc'. unfold cache_image.
    rewrite (Hch c Hc'). reflexivity.
Qed.

Lemma reduce_visits_list :
  forall l,
    Forall (fun c => reduce_visits rebuild_node_cache d_cache substitutions
                       [c] (2 * node_size c)) l ->
    reduce_visits rebuild_node_cache d_cache substitutions l
      (2 * nodes_size l).
Proof.
  induction l as [|c l IH]; intros Hall cache rest Hpre.
  - exists O, cache. split; [lia|]. split; [reflexivity|].
    split; [intros c []|]. intros m. left. reflexivity.
  - inversion Hall as [|? ? Hc Hl]; subst.
    destruct (Hc cache (l ++ rest)) as (s1 & c1 & Hb1 & Hrun1 & Ht1 & Hd1).
    { intros c' [<-|[]]. apply Hpre. left. reflexivity. }
    destruct (IH Hl c1 rest) as (s2 & c2 & Hb2 & Hrun2 & Ht2 & Hd2).
    { intros c' Hc'. destruct (Hpre c' (or_intror Hc')) as [Hno Hun].
      split; [exact Hno|]. intros m Hm.
      destruct (Hd1 m) as [->|[_ ->]]; [apply Hun; exact Hm|].
      right. reflexivity. }
    exists (s1 + s2)%nat, c2. split.
    { change (nodes_size (c :: l)) with (node_size c + nodes_size l)%nat.
      lia. }
    split.
    { intros fuel.
      replace (s1 + s2 + fuel)%nat with (s1 + (s2 + fuel))%nat by lia.
      change ((c :: l) ++ rest) with ([c] ++ (l ++ rest)).
      rewrite Hrun1. apply Hrun2. }
    split.
    { intros c' [<-|Hc'].
      - destruct (Hd2 c) as [->|[_ ->]]; [|reflexivity].
        apply Ht1. left. reflexivity.
      - apply Ht2. exact Hc'. }
    intros m. destruct (Hd2 m) as [->|[(c' & Hc' & Hs) ->]].
    + destruct (Hd1 m) as [->|[(c' & [<-|[]] & Hs) ->]].
      * left. reflexivity.
      * right. split; [|reflexivity]. exists c.
        split; [left; reflexivity|exact Hs].
    + right. split; [|reflexivity]. exists c'.
      split; [right; exact Hc'|exact Hs].
Qed.

Lemma reduce_visits_node :
  forall n,
    reduce_visits rebuild_node_cache d_cache substitutions [n]
      (2 * node_size n).
Proof.
  induction n as [k p cs IH] using Node_induction.
  set (n := Nd k p cs). intros cache rest Hpre.
  destruct (Hpre n (or_introl eq_refl)) as [Hno Hun].
  destruct (Hun n (subterm_refl n)) as [Hn|Hn].
  - assert (Hall : Forall (fun c => reduce_visits rebuild_node_cache d_cache
                                      substitutions [c] (2 * node_size c))
                     (rev cs)).
    { apply List.Forall_forall. intros c Hc. apply in_rev in Hc.
      rewrite List.Forall_forall in IH. exact (IH c Hc). }
    assert (Hproper : forall c m, In c cs -> subterm m c -> n <> m).
    { intros c m Hc Hm <-.
      pose proof (subterm_child_size n c n Hc Hm). lia. }
    assert (Hbelow : forall c m, In c cs -> subterm m c -> subterm m n).
    { intros c m Hc Hm. apply subterm_iff. right. exists c.
      split; assumption. }
    destruct (reduce_visits_list (rev cs) Hall (set_node cache n None)
                (n :: rest))
      as (sl & cl & Hbl & Hrunl & Htl & Hdl).
    { intros c Hc. apply in_rev in Hc. split.
      - intros m Hm. apply Hno. exact (Hbelow c m Hc Hm).
      - intros m Hm.
        rewrite find_node_set_node_ne by exact (Hproper c m Hc Hm).
        apply Hun. exact (Hbelow c m Hc Hm). }
    assert (Hnl : find_node cl n = Some None).
    { destruct (Hdl n) as [->|[(c & Hc & Hs) _]].
      - apply find_node_set_node_eq.
      - apply in_rev in Hc. exfalso. exact (Hproper c n Hc Hs eq_refl). }
    exists (S (sl + 1)), (set_node cl n (Some (sub n))). split.
    { rewrite nodes_size_rev in Hbl. subst n. rewrite node_size_eq. lia. }
    split.
    { intros fuel. change ([n] ++ rest) with (n :: rest).
      cbn [Nat.add].
      rewrite reduce_loop_new by (try exact Hn; apply Hno, subterm_refl).
      replace (sl + 1 + fuel)%nat with (sl + S fuel)%nat by lia.
      change (children n) with cs. rewrite Hrunl.
      apply reduce_loop_finish; [exact Hnl|apply Hno, subterm_refl|].
      intros c Hc. apply Htl. apply in_rev. rewrite rev_involutive.
      exact Hc. }
    split.
    { intros c [<-|[]]. apply find_node_set_node_eq. }
    intros m. destruct (Node_eqb n m) eqn:He.
    + apply Node_eqb_eq in He. subst m. right.
      split; [|apply find_node_set_node_eq].
      exists n. split; [left; reflexivity|apply subterm_refl].
    + apply Node_eqb_neq in He. rewrite find_node_set_node_ne by exact He.
      destruct (Hdl m) as [->|[(c & Hc & Hs) ->]].
      * left. apply find_node_set_node_ne. exact He.
      * right. split; [|reflexivity]. exists n.
        split; [left; reflexivity|]. apply in_rev in Hc.
        exact (Hbelow c m Hc Hs).
  - exists 1%nat, cache. split; [subst n; rewrite node_size_eq; lia|].
    split.
    { intros fuel. change ([n] ++ rest) with (n :: rest).
      apply (reduce_loop_done fuel n rest cache _ Hn). }
    split; [intros c [<-|[]]; exact Hn|]. intros m. left. reflexivity.
Qed.

End ReduceFacts.

Lemma reduce_spec :
  forall (rebuild_node_cache : Node -> ElimLambda.Cache -> Node)
         (fuel : nat) (d_cache : ElimLambda.Cache) (node fn body : Node)
         (substitutions : ElimLambda.Cache),
    (forall (n : Node) (cache : ElimLambda.Cache),
        rebuild_node_cache n cache
        = Nd (kind n) (payload n)
             (map (ElimLambda.cache_image cache) (children n))) ->
    kind node = Kind.APPLY ->
    child node 0 = Ok fn ->
    kind fn = Kind.LAMBDA ->
    ElimLambda.bind_arguments d_cache (tl (children node)) fn []
    = Ok (body, substitutions) ->
    kind body <> Kind.LAMBDA ->
    ElimLambda.no_lambda_apply body ->
    ElimLambda.substitutes_variables substitutions ->
    (2 * node_size body < fuel)%nat ->
    ElimLambda.reduce rebuild_node_cache fuel d_cache node
    = Ok (Some (ElimLambda.substitute substitutions body)).
Proof.
  intros rebuild_node_cache fuel d_cache node fn body substitutions
         Hrebuild Hk Hfn Hkfn Hbind Hkb Hno Hvars Hfuel.
  unfold ElimLambda.reduce. rewrite Hk.
  change (Kind.eqb Kind.APPLY Kind.APPLY) with true. cbn [oassert obind].
  rewrite Hfn. cbn [obind]. rewrite Hkfn.
  change (Kind.eqb Kind.LAMBDA Kind.LAMBDA) with true. cbn [oassert obind].
  rewrite Hbind. cbn [obind fst snd].
  assert (Hnl : Kind.eqb (kind body) Kind.LAMBDA = false).
  { destruct (Kind.eqb (kind body) Kind.LAMBDA) eqn:He; [|reflexivity].
    apply Kind_eqb_eq in He. contradiction. }
  rewrite Hnl. cbn [negb oassert obind].
  destruct (reduce_visits_node rebuild_node_cache d_cache substitutions
              Hrebuild Hvars body [] [])
    as (steps & cache' & Hb & Hrun & Ht & _).
  { intros c [<-|[]]. split; [exact Hno|]. intros m _. left. reflexivity. }
  replace fuel with (steps + S (fuel - steps - 1))%nat by lia.
  change [body] with ([body] ++ []). rewrite Hrun.
  cbn [ElimLambda.reduce_loop obind]. unfold ElimLambda.cache_at.
  rewrite (Ht body (or_introl eq_refl)). reflexivity.
Qed.

(** X24. [PassElimLambda::reduce] substitutes: for an application of
    nested lambdas whose body has no applied lambda inside, it returns
    the body with each variable of the lambdas replaced by the processed
    argument paired with it, provided that what is replaced are variables
    with processed arguments that are not null, and that rebuilding a
    node from the cache gives the node over the images of its
    children. *)
Theorem reduce_substitutes :
  forall (rebuild_node_cache : Node -> ElimLambda.Cache -> Node)
         (fuel : nat) (d_cache : ElimLambda.Cache) (node fn body : Node)
         (substitutions : ElimLambda.Cache),
    (forall (n : Node) (cache : ElimLambda.Cache),
        rebuild_node_cache n cache
        = Nd (kind n) (payload n)
             (map (ElimLambda.cache_image cache) (children n))) ->
    kind node = Kind.APPLY ->
    child node 0 = Ok fn ->
    kind fn = Kind.LAMBDA ->
    ElimLambda.bind_arguments d_cache (tl (children node)) fn []
    = Ok (body, substitutions) ->
    kind body <> Kind.LAMBDA ->
    ElimLambda.no_lambda_apply body ->
    ElimLambda.substitutes_variables substitutions ->
    (2 * node_size body < fuel)%nat ->
    ElimLambda.reduce rebuild_node_cache fuel d_cache node
    = Ok (Some (ElimLambda.substitute substitutions body)).
Proof. exact reduce_spec. Qed.

Lemma reduce_substitutes_witness :
  ElimLambda.reduce Sample.rebuild_node_cache 7
    [(Sample.arg_a, Some Sample.arg_a)] Sample.beta_redex
  = Ok (Some (mk_node Kind.EQUAL [Sample.arg_a; Sample.c])).
Proof.
  apply (reduce_substitutes Sample.rebuild_node_cache 7
           [(Sample.arg_a, Some Sample.arg_a)] Sample.beta_redex
           Sample.lambda_x Sample.eq_x_c
           [(Sample.x, Some Sample.arg_a)]).
  - intros n cache. reflexivity.
  - reflexivity.
  - reflexivity.
  - reflexivity.
  - reflexivity.
  - discriminate.
  - intros m Hm. vm_compute in Hm.
    repeat (destruct Hm as [<-|Hm]; [reflexivity|]). destruct Hm.
  - intros m v H. cbn [find_node] in H.
    destruct (Node_eqb Sample.x m) eqn:E; [|discriminate].
    apply Node_eqb_eq in E. subst m. inversion H.
    split; [reflexivity|discriminate].
  - vm_compute. lia.
Defined.

(** X25. [PassElimLambda::process] beta-reduces at the root: started
    with an empty cache on the application of a lambda over a variable
    to an argument, neither the lambda nor the argument holding an
    applied lambda, it returns the body of the lambda with the variable
    replaced by the argument and counts one elimination. *)
Theorem process_beta_reduces :
  forall (rebuild_node : Node -> list (option Node) -> Node)
         (rebuild_node_cache : Node -> ElimLambda.Cache -> Node)
         (fuel : nat) (num_elim : Z) (p0 p1 : N) (x body arg fn node : Node),
    fn = Nd Kind.LAMBDA p1 [x; body] ->
    node = Nd Kind.APPLY p0 [fn; arg] ->
    (forall n, rebuild_node n (map Some (children n)) = n) ->
    (forall (n : Node) (cache : ElimLambda.Cache),
        rebuild_node_cache n cache
        = Nd (kind n) (payload n)
             (map (ElimLambda.cache_image cache) (children n))) ->
    kind x = Kind.VARIABLE ->
    kind body <> Kind.LAMBDA ->
    ElimLambda.no_lambda_apply fn ->
    ElimLambda.no_lambda_apply arg ->
    (2 * node_size node + 2 * node_size body < fuel)%nat ->
    exists d_cache',
      ElimLambda.process rebuild_node rebuild_node_cache fuel [] num_elim
        node
      = Ok (Some (ElimLambda.substitute [(x, Some arg)] body), d_cache',
            (num_elim + 1) mod 2 ^ 64).
Proof.
  intros rebuild_node rebuild_node_cache fuel num_elim p0 p1 x body arg fn
         node Hfn Hnode Hsame Himages Hx Hbody Hnofn Hnoarg Hfuel.
  assert (Hproper : forall c m, In c [arg; fn] -> subterm m c -> node <> m).
  { intros c m Hc Hm <-.
    assert (Hc' : In c (children node)).
    { rewrite Hnode. cbn [children]. simpl in Hc. simpl. tauto. }
    pose proof (subterm_child_size node c node Hc' Hm). lia. }
  destruct (process_visits_list rebuild_node rebuild_node_cache
              [arg; fn]) with
    (d_cache := set_node (@nil (Node * option Node)) node None)
    (num_elim := num_elim) (rest := [node])
    as (sl & cl & Hbl & Hrunl & Htl & Hdl).
  { apply List.Forall_forall. intros c _.
    apply process_visits_node. exact Hsame. }
  { intros c Hc. split.
    - destruct Hc as [<-|[<-|[]]]; assumption.
    - intros m Hm. left.
      rewrite find_node_set_node_ne by exact (Hproper c m Hc Hm).
      reflexivity. }
  assert (Hnl : find_node cl node = Some None).
  { destruct (Hdl node) as [->|[(c & Hc & Hs) _]].
    - apply find_node_set_node_eq.
    - exfalso. exact (Hproper c node Hc Hs eq_refl). }
  assert (Harg : find_node cl arg = Some (Some arg)).
  { apply Htl. left. reflexivity. }
  assert (Hfnc : find_node cl fn = Some (Some fn)).
  { apply Htl. right. left. reflexivity. }
  assert (Hsize : node_size node
                  = S (node_size fn + (node_size arg + 0))).
  { rewrite Hnode. reflexivity. }
  change (nodes_size [arg; fn])
    with (node_size arg + (node_size fn + 0))%nat in Hbl.
  set (fuel2 := (fuel - sl - 2)%nat).
  assert (Hreduce :
    ElimLambda.reduce rebuild_node_cache fuel2 cl node
    = Ok (Some (ElimLambda.substitute [(x, Some arg)] body))).
  { apply (reduce_spec rebuild_node_cache fuel2 cl node fn body
             [(x, Some arg)] Himages).
    - rewrite Hnode. reflexivity.
    - rewrite Hnode. reflexivity.
    - rewrite Hfn. reflexivity.
    - rewrite Hnode. cbn [children tl ElimLambda.bind_arguments].
      rewrite Hfn at 1. cbn [child children nth_error obind].
      unfold ElimLambda.cache_at. rewrite Harg. cbn [obind find_node].
      rewrite Hfn. cbn [child children nth_error obind set_node].
      reflexivity.
    - exact Hbody.
    - intros m Hm. apply Hnofn. apply subterm_iff. right. exists body.
      split; [rewrite Hfn; cbn [children]; right; left; reflexivity|].
      exact Hm.
    - intros m v H. cbn [find_node] in H.
      destruct (Node_eqb x m) eqn:E; [|discriminate].
      apply Node_eqb_eq in E. subst m. inversion H.
      split; [exact Hx|discriminate].
    - subst fuel2. lia. }
  exists (set_node cl node
            (Some (ElimLambda.substitute [(x, Some arg)] body))).
  unfold ElimLambda.process.
  replace fuel with (S (sl + S (S (fuel2 - 1))))%nat by (subst fuel2; lia).
  rewrite process_loop_new by reflexivity.
  replace (children node) with [fn; arg] by (rewrite Hnode; reflexivity).
  change (rev [fn; arg] ++ [node]) with ([arg; fn] ++ [node]).
  rewrite Hrunl. cbn [ElimLambda.process_loop]. rewrite Hnl.
  replace (children node) with [fn; arg] by (rewrite Hnode; reflexivity).
  cbn [ElimLambda.child_values]. rewrite Hfnc, Harg. cbn [obind].
  assert (Hredex : ElimLambda.is_lambda_apply node = Ok true).
  { rewrite Hnode, Hfn. reflexivity. }
  rewrite Hredex. cbn [obind].
  replace (S (fuel2 - 1)) with fuel2 by (subst fuel2; lia).
  rewrite Hreduce. cbn [obind fst snd].
  replace fuel2 with (S (fuel2 - 1)) by (subst fuel2; lia).
  cbn [ElimLambda.process_loop obind fst snd].
  unfold ElimLambda.cache_at. rewrite find_node_set_node_eq. reflexivity.
Qed.

Lemma process_beta_reduces_witness :
  exists d_cache',
    ElimLambda.process Sample.rebuild_node Sample.rebuild_node_cache 30 []
      0 Sample.beta_redex
    = Ok (Some (mk_node Kind.EQUAL [Sample.arg_a; Sample.c]), d_cache', 1).
Proof.
  apply (process_beta_reduces Sample.rebuild_node Sample.rebuild_node_cache
           30 0 0 0 Sample.x Sample.eq_x_c Sample.arg_a Sample.lambda_x
           Sample.beta_redex).
  - reflexivity.
  - reflexivity.
  - intros [k p cs]. unfold Sample.rebuild_node.
    cbn [kind payload children]. f_equal.
    induction cs as [|c cs IH]; [reflexivity|].
    cbn [map fold_right]. f_equal. exact IH.
  - intros n cache. reflexivity.
  - reflexivity.
  - discriminate.
  - intros m Hm. vm_compute in Hm.
    repeat (destruct Hm as [<-|Hm]; [reflexivity|]). destruct Hm.
  - intros m Hm. vm_compute in Hm.
    repeat (destruct Hm as [<-|Hm]; [reflexivity|]). destruct Hm.
  - vm_compute. lia.
Defined.

Section HandleCounts.

Variable Term_id : CApi.Term -> Z.

Lemma export_term_references :
  forall (term_map term_map' : CApi.TermMap) (term : CApi.Term) (id : Z),
    CApi.export_term Term_id term_map term = Ok (term_map', id) ->
    CApi.references term_map' id
    = (CApi.references term_map id + 1) mod 2 ^ 64.
Proof.
  intros term_map term_map' term id H.
  unfold CApi.export_term in H.
  destruct (negb (CApi.is_null term)); [|discriminate].
  cbn [oassert obind] in H. unfold CApi.references.
  destruct (term_map !! Term_id term) as [[t0 c]|] eqn:Hm;
    inversion H; subst; rewrite lookup_insert_eq, Hm; reflexivity.
Qed.

End HandleCounts.

(** X26. Handing out a list of terms through the C API, as
    [bitwuzla_term_get_children] and [bitwuzla_get_unsat_core] do:
    exporting terms that are not null returns their ids in order, and
    for each id hands out as many references more as terms of the list
    have that id; the entries of the other ids are left alone and every
    term stays under its own id. *)
Theorem export_terms_counts :
  forall (Term_id : CApi.Term -> Z) (terms : list CApi.Term)
         (term_map : CApi.TermMap),
    CApi.consistent Term_id term_map ->
    (forall t, In t terms -> CApi.is_null t = false) ->
    exists term_map',
      CApi.export_terms Term_id term_map terms
      = Ok (term_map', map Term_id terms)
      /\ CApi.consistent Term_id term_map'
      /\ forall id,
           (~ In id (map Term_id terms) ->
            term_map' !! id = term_map !! id)
           /\ (In id (map Term_id terms) ->
               CApi.references term_map' id
               = (CApi.references term_map id
                  + Z.of_nat (count_occ Z.eq_dec (map Term_id terms) id))
                 mod 2 ^ 64).
Proof.
  intros Term_id.
  induction terms as [|t terms IH]; intros term_map Hcons Hnull.
  - exists term_map. split; [reflexivity|]. split; [exact Hcons|].
    intros id. split; [reflexivity|]. intros [].
  - destruct (export_term_spec Term_id term_map t
                (Hnull t (or_introl eq_refl)) Hcons)
      as (m1 & t' & Hexp & _ & _ & _ & Hother & Hcons1 & _).
    pose proof (export_term_references Term_id _ _ _ _ Hexp) as Hrefs.
    destruct (IH m1 Hcons1) as (m2 & Hrun & Hcons2 & Hcount).
    { intros u Hu. apply Hnull. right. exact Hu. }
    exists m2. split; [|split; [exact Hcons2|]].
    + cbn [CApi.export_terms map]. rewrite Hexp. cbn [obind fst snd].
      rewrite Hrun. reflexivity.
    + intros id. cbn [map]. split.
      * intros Hout. destruct (Hcount id) as [Hsame _].
        rewrite Hsame by (intros Hin; apply Hout; right; exact Hin).
        apply Hother. intros ->. apply Hout. left. reflexivity.
      * intros Hin. cbn [count_occ].
        destruct (Z.eq_dec (Term_id t) id) as [Heq|Hne].
        -- subst id.
           destruct (in_dec Z.eq_dec (Term_id t) (map Term_id terms))
             as [Hlater|Hlater].
           ++ destruct (Hcount (Term_id t)) as [_ Hc].
              rewrite (Hc Hlater), Hrefs, Zplus_mod_idemp_l.
              f_equal. lia.
           ++ destruct (Hcount (Term_id t)) as [Hsame _].
              unfold CApi.references at 1. rewrite (Hsame Hlater).
              fold (CApi.references m1 (Term_id t)). rewrite Hrefs.
              rewrite (proj1 (count_occ_not_In Z.eq_dec _ _) Hlater).
              reflexivity.
        -- destruct Hin as [Heq|Hin]; [contradiction|].
           destruct (Hcount id) as [_ Hc]. rewrite (Hc Hin).
           replace (CApi.references m1 id)
             with (CApi.references term_map id); [reflexivity|].
           unfold CApi.references.
           rewrite (Hother id) by congruence. reflexivity.
Qed.

Lemma export_terms_counts_witness :
  exists term_map',
    CApi.export_terms
      (fun t => match CApi.d_node t with
                | Some n => Z.of_N (payload n)
                | None => 0
                end)
      ∅ [{| CApi.d_node := Some Sample.p |};
         {| CApi.d_node := Some Sample.q |};
         {| CApi.d_node := Some Sample.p |}]
    = Ok (term_map', [1; 2; 1])
    /\ CApi.references term_map' 1 = 2
    /\ CApi.references term_map' 2 = 1.
Proof.
  destruct (export_terms_counts
              (fun t => match CApi.d_node t with
                        | Some n => Z.of_N (payload n)
                        | None => 0
                        end)
              [{| CApi.d_node := Some Sample.p |};
               {| CApi.d_node := Some Sample.q |};
               {| CApi.d_node := Some Sample.p |}] ∅)
    as (term_map' & Hrun & _ & Hcount).
  - intros id t count Hl. rewrite lookup_empty in Hl. discriminate.
  - intros t [<-|[<-|[<-|[]]]]; reflexivity.
  - exists term_map'. split; [exact Hrun|]. split.
    + apply (proj2 (Hcount 1)). simpl. tauto.
    + apply (proj2 (Hcount 2)). simpl. tauto.
Defined.
